(** * ImageWriter: the threaded block copy of [ImageWriter.c]

    A shallow embedding of the reader / writer handoff over the ring of
    blocks, of the status line and of the orchestration done by [main],
    followed by the properties the specification states about them.

    The two data-path threads are modelled as an interleaving transition
    system.  Every statement of [readerThread] and [writerThread] that touches
    shared memory or a pthread primitive is one atomic step; purely local
    control (the [switch], the cursor update, [pthread_exit]) is folded into
    the step before it.  Memory is sequentially consistent.  Condition
    variables follow the POSIX contract: [pthread_cond_wait] releases the
    mutex and blocks; a blocked thread is resumed by [pthread_cond_signal] on
    its variable, or by a return without any signal (a spurious wake-up,
    which POSIX allows and which lines 70 and 111 do not guard against, as
    they test the counter with [if] and not in a loop); either way it takes
    the mutex again before it goes on.  A run is therefore a sequence of
    moves, each a statement of a thread or a spurious return, and the runs in
    which every return follows a signal are singled out by [signalled].

    Files are seen through their descriptors: the source as its bytes, its
    length, a file offset and possibly an offset from which the medium cannot
    be read; the destination as the bytes written through the descriptor,
    possibly with a limit on how many it accepts.  A [read] delivers as many
    bytes as are asked for and available, a [write] as many as are asked for
    and accepted, and neither transfers more than [RW_MAX] bytes in one
    call.  The status thread is seen through the one thing it can do to the
    rest of the program: its division traps when [td->fsize] is 0. *)

From Stdlib Require Import ZArith List Bool Lia.
From Stdlib Require Import Strings.Byte.
Import ListNotations.
Local Open Scope Z_scope.

(** ** Machine integers *)

(** [unsigned int] arithmetic is taken modulo [2^32], [size_t] arithmetic
    modulo [2^64]; [to_int] is the conversion of a value to [int]. *)
Definition wrap32 (z : Z) : Z := z mod 2 ^ 32.
Definition wrap64 (z : Z) : Z := z mod 2 ^ 64.
Definition to_int (z : Z) : Z := (z + 2 ^ 31) mod 2 ^ 32 - 2 ^ 31.

(** [#define BLOCK_SIZE 1024*1024] and [#define NUM_BLOCK 10]. *)
Definition BLOCK_SIZE : Z := 1024 * 1024.
Definition NUM_BLOCK : Z := 10.

(** ** Memory and files *)

(** Memory behind [td->buf]: a byte at every offset. *)
Definition mem := Z -> byte.

Definition in_range (lo len a : Z) : bool := (lo <=? a) && (a <? lo + len).

(** The input descriptor.  [in_data] holds the [in_len] bytes of the source,
    [in_pos] is the file offset, and [in_bad = Some N] makes every read that
    starts at offset [N] or beyond fail (the medium is unreadable from there). *)
Record in_file := mkIn {
  in_len : Z;
  in_data : Z -> byte;
  in_bad : option Z;
  in_pos : Z
}.

Definition in_limit (f : in_file) : Z :=
  match in_bad f with
  | Some N => Z.min N (in_len f)
  | None => in_len f
  end.

Definition in_fails (f : in_file) : bool :=
  match in_bad f with
  | Some N => N <=? in_pos f
  | None => false
  end.

(** On Linux one [read] or [write] transfers at most [0x7ffff000] bytes,
    whatever count it is asked for. *)
Definition RW_MAX : Z := 2147479552.

(** [read(fd, &buf[off], count)]: the returned count (or [-1]), the memory
    after the transfer and the descriptor after it. *)
Definition sys_read (f : in_file) (m : mem) (off count : Z) : Z * mem * in_file :=
  if in_fails f then (-1, m, f)
  else
    let k := Z.max 0 (Z.min (Z.min count RW_MAX) (in_limit f - in_pos f)) in
    (k,
     (fun a => if in_range off k a then in_data f (in_pos f + (a - off)) else m a),
     mkIn (in_len f) (in_data f) (in_bad f) (in_pos f + k)).

(** The output descriptor: the bytes written so far live in [out_data] below
    [out_pos]; [out_cap = Some c] is a destination that holds [c] bytes only.
    Once there is no room left, a regular file still accepts a [write] of
    zero bytes, while a device such as [/dev/full] fails it like any other:
    [out_dev] tells the two apart. *)
Record out_file := mkOut {
  out_data : Z -> byte;
  out_pos : Z;
  out_cap : option Z;
  out_dev : bool
}.

(** The room left in a destination that has a limit. *)
Definition out_room (f : out_file) : option Z :=
  match out_cap f with
  | Some c => Some (c - out_pos f)
  | None => None
  end.

(** [write(fd, &buf[off], count)]: the returned count (or [-1] when the
    request finds no room: a non-empty request, or any request on a device)
    and the descriptor after it. *)
Definition sys_write (f : out_file) (m : mem) (off count : Z) : Z * out_file :=
  let want := Z.min count RW_MAX in
  let fails := match out_room f with
               | Some room => (room <=? 0) && ((0 <? count) || out_dev f)
               | None => false
               end in
  if fails then (-1, f)
  else
    let k := Z.max 0 (match out_room f with
                      | Some room => Z.min want room
                      | None => want
                      end) in
    (k,
     mkOut (fun a => if in_range (out_pos f) k a
                     then m (off + (a - out_pos f)) else out_data f a)
           (out_pos f + k) (out_cap f) (out_dev f)).

(** ** The shared data *)

(** [typedef struct block { size_t size; bool end; } block;] *)
Record block := mkBlock {
  size : Z;
  end_ : bool
}.

(** [typedef struct thread_data]. *)
Record thread_data := mkTD {
  blocks : list block;
  buf : mem;
  numToWrite : Z;
  file_in : in_file;
  file_out : out_file;
  read : Z;
  wrote : Z;
  fsize : Z;
  rwaits : Z;
  wwaits : Z
}.

Definition set_blocks (v : list block) (t : thread_data) : thread_data :=
  mkTD v (buf t) (numToWrite t) (file_in t) (file_out t)
       (read t) (wrote t) (fsize t) (rwaits t) (wwaits t).
Definition set_buf (v : mem) (t : thread_data) : thread_data :=
  mkTD (blocks t) v (numToWrite t) (file_in t) (file_out t)
       (read t) (wrote t) (fsize t) (rwaits t) (wwaits t).
Definition set_numToWrite (v : Z) (t : thread_data) : thread_data :=
  mkTD (blocks t) (buf t) v (file_in t) (file_out t)
       (read t) (wrote t) (fsize t) (rwaits t) (wwaits t).
Definition set_file_in (v : in_file) (t : thread_data) : thread_data :=
  mkTD (blocks t) (buf t) (numToWrite t) v (file_out t)
       (read t) (wrote t) (fsize t) (rwaits t) (wwaits t).
Definition set_file_out (v : out_file) (t : thread_data) : thread_data :=
  mkTD (blocks t) (buf t) (numToWrite t) (file_in t) v
       (read t) (wrote t) (fsize t) (rwaits t) (wwaits t).
Definition set_read (v : Z) (t : thread_data) : thread_data :=
  mkTD (blocks t) (buf t) (numToWrite t) (file_in t) (file_out t)
       v (wrote t) (fsize t) (rwaits t) (wwaits t).
Definition set_wrote (v : Z) (t : thread_data) : thread_data :=
  mkTD (blocks t) (buf t) (numToWrite t) (file_in t) (file_out t)
       (read t) v (fsize t) (rwaits t) (wwaits t).
Definition set_rwaits (v : Z) (t : thread_data) : thread_data :=
  mkTD (blocks t) (buf t) (numToWrite t) (file_in t) (file_out t)
       (read t) (wrote t) (fsize t) v (wwaits t).
Definition set_wwaits (v : Z) (t : thread_data) : thread_data :=
  mkTD (blocks t) (buf t) (numToWrite t) (file_in t) (file_out t)
       (read t) (wrote t) (fsize t) (rwaits t) v.

(** [td->blocks[i]] and the two assignments to its fields. *)
Definition default_block : block := mkBlock 0 false.
Definition block_at (bl : list block) (i : Z) : block :=
  nth (Z.to_nat i) bl default_block.

Fixpoint upd_nth (i : nat) (f : block -> block) (bl : list block) : list block :=
  match bl, i with
  | [], _ => []
  | b :: r, O => f b :: r
  | b :: r, S j => b :: upd_nth j f r
  end.

Definition set_block_end (i : Z) (v : bool) (bl : list block) : list block :=
  upd_nth (Z.to_nat i) (fun b => mkBlock (size b) v) bl.
Definition set_block_size (i : Z) (v : Z) (bl : list block) : list block :=
  upd_nth (Z.to_nat i) (fun b => mkBlock v (end_ b)) bl.

(** ** Threads, locks and the observable history *)

Inductive tid := Reader | Writer.

(** Program points of [readerThread]; the number is the source line the step
    executes. *)
Inductive rlabel :=
| R_lock        (* 69: pthread_mutex_lock *)
| R_check       (* 70: if (td->numToWrite >= num_block) *)
| R_waitinc     (* 71: td->rwaits++ *)
| R_wait        (* 72: pthread_cond_wait, releasing the mutex *)
| R_waiting     (*     blocked on ready_to_read_cv *)
| R_woken       (* 72: the wait is over, taking the mutex again *)
| R_unlock      (* 74: pthread_mutex_unlock *)
| R_read        (* 76-77: read and switch (ret) *)
| R_perror      (* 79: perror *)
| R_err_end     (* 80: td->blocks[idx].end = true *)
| R_err_size    (* 81-82: td->blocks[idx].size = 0; pthread_exit *)
| R_case0       (* 86: td->blocks[idx].end = true *)
| R_default     (* 89: td->blocks[idx].size = ret *)
| R_lock2       (* 92: pthread_mutex_lock *)
| R_incr        (* 93: td->numToWrite++ *)
| R_signal      (* 94: pthread_cond_signal (&ready_to_write_cv) *)
| R_unlock2     (* 95: pthread_mutex_unlock *)
| R_chkend      (* 97: if (td->blocks[idx].end) pthread_exit *)
| R_acc         (* 99-100: td->read += size; idx = next_block_idx (idx) *)
| R_done.       (*     terminated *)

(** Program points of [writerThread]. *)
Inductive wlabel :=
| W_lock        (* 110: pthread_mutex_lock *)
| W_check       (* 111: if (td->numToWrite < 1) *)
| W_waitinc     (* 112: td->wwaits++ *)
| W_wait        (* 113: pthread_cond_wait, releasing the mutex *)
| W_waiting     (*      blocked on ready_to_write_cv *)
| W_woken       (* 113: the wait is over, taking the mutex again *)
| W_unlock      (* 115: pthread_mutex_unlock *)
| W_write       (* 117-118: write; if (ret == -1) perror *)
| W_chkshort    (* 119: if (ret != td->blocks[idx].size) printf *)
| W_chkend      (* 121: if (td->blocks[idx].end) pthread_exit *)
| W_lock2       (* 123: pthread_mutex_lock *)
| W_decr        (* 124: td->numToWrite-- *)
| W_signal      (* 125: pthread_cond_signal (&ready_to_read_cv) *)
| W_unlock2     (* 126: pthread_mutex_unlock *)
| W_acc         (* 127-128: td->wrote += size; idx = next_block_idx (idx) *)
| W_done.       (*      terminated *)

(** What an outside observer can see of a run, newest event first. *)
Inductive event :=
| EvReadError                 (* perror ("read error: ") *)
| EvWriteError                (* perror ("write error: ") *)
| EvShortWrite                (* printf ("we didn't write everything!") *)
| EvPublish (i : Z) (b : block)   (* numToWrite++ for slot [i], metadata [b] *)
| EvSignalWrite               (* pthread_cond_signal (&ready_to_write_cv) *)
| EvWrite (i : Z) (n : Z)     (* write of [n] bytes requested out of slot [i] *)
| EvConsumed (i : Z) (b : block)  (* line 121 reached for slot [i], metadata [b] *)
| EvRelease (i : Z)           (* numToWrite-- for slot [i] *)
| EvSignalRead.               (* pthread_cond_signal (&ready_to_read_cv) *)

(** The locals of the two threads: program point, [idx] and [ret]. *)
Record reader_locals := mkR { rpc : rlabel; ridx : Z; rret : Z }.
Record writer_locals := mkW { wpc : wlabel; widx : Z; wret : Z }.

Record state := mkState {
  td : thread_data;
  mutex : option tid;          (* rw_mutex and its owner *)
  rd : reader_locals;
  wr : writer_locals;
  log : list event
}.

Definition with_td (f : thread_data -> thread_data) (s : state) : state :=
  mkState (f (td s)) (mutex s) (rd s) (wr s) (log s).
Definition set_mutex (m : option tid) (s : state) : state :=
  mkState (td s) m (rd s) (wr s) (log s).
Definition set_rpc (l : rlabel) (s : state) : state :=
  mkState (td s) (mutex s) (mkR l (ridx (rd s)) (rret (rd s))) (wr s) (log s).
Definition set_wpc (l : wlabel) (s : state) : state :=
  mkState (td s) (mutex s) (rd s) (mkW l (widx (wr s)) (wret (wr s))) (log s).
Definition set_rd (r : reader_locals) (s : state) : state :=
  mkState (td s) (mutex s) r (wr s) (log s).
Definition set_wr (w : writer_locals) (s : state) : state :=
  mkState (td s) (mutex s) (rd s) w (log s).
Definition emit (e : event) (s : state) : state :=
  mkState (td s) (mutex s) (rd s) (wr s) (e :: log s).

(** [pthread_mutex_lock] succeeds only on a free mutex. *)
Definition acquire (t : tid) (s : state) : option state :=
  match mutex s with
  | None => Some (set_mutex (Some t) s)
  | Some _ => None
  end.

(** [pthread_cond_signal]: a thread blocked on the variable becomes runnable;
    with nobody blocked the signal is lost. *)
Definition wake_writer (s : state) : state :=
  match wpc (wr s) with
  | W_waiting => set_wpc W_woken s
  | _ => s
  end.
Definition wake_reader (s : state) : state :=
  match rpc (rd s) with
  | R_waiting => set_rpc R_woken s
  | _ => s
  end.

(** ** The two data-path threads *)

Section Engine.

(** [unsigned int block_size, num_block;] *)
Variables block_size num_block : Z.

(** [#define buf_idx(idx) ((idx)*(block_size))], a product of two
    [unsigned int]s. *)
Definition buf_idx (idx : Z) : Z := wrap32 (idx * block_size).

(** [#define next_block_idx(curr_block) (((curr_block) + 1) % num_block)]. *)
Definition next_block_idx (curr_block : Z) : Z := wrap32 (curr_block + 1) mod num_block.

(** One step of [readerThread]; [None] when the thread is blocked or has
    terminated.  A thread blocked in [pthread_cond_wait] ([R_waiting]) has no
    step of its own: it is moved on by [wake_reader] or by [spurious]. *)
Definition step_reader (s : state) : option state :=
  let t := td s in
  let i := ridx (rd s) in
  match rpc (rd s) with
  | R_lock => option_map (set_rpc R_check) (acquire Reader s)
  | R_check =>
      Some (set_rpc (if num_block <=? numToWrite t then R_waitinc else R_unlock) s)
  | R_waitinc =>
      Some (set_rpc R_wait (with_td (set_rwaits (wrap32 (rwaits t + 1))) s))
  | R_wait => Some (set_rpc R_waiting (set_mutex None s))
  | R_waiting => None
  | R_woken => option_map (set_rpc R_unlock) (acquire Reader s)
  | R_unlock => Some (set_rpc R_read (set_mutex None s))
  | R_read =>
      let '(n, m, f) := sys_read (file_in t) (buf t) (buf_idx i) block_size in
      let ret := to_int n in
      let l := if ret =? -1 then R_perror
               else if ret =? 0 then R_case0 else R_default in
      Some (set_rd (mkR l i ret) (with_td (fun u => set_buf m (set_file_in f u)) s))
  | R_perror => Some (set_rpc R_err_end (emit EvReadError s))
  | R_err_end =>
      Some (set_rpc R_err_size (with_td (set_blocks (set_block_end i true (blocks t))) s))
  | R_err_size =>
      Some (set_rpc R_done (with_td (set_blocks (set_block_size i 0 (blocks t))) s))
  | R_case0 =>
      Some (set_rpc R_default (with_td (set_blocks (set_block_end i true (blocks t))) s))
  | R_default =>
      Some (set_rpc R_lock2
              (with_td (set_blocks (set_block_size i (wrap64 (rret (rd s))) (blocks t))) s))
  | R_lock2 => option_map (set_rpc R_incr) (acquire Reader s)
  | R_incr =>
      Some (set_rpc R_signal
              (emit (EvPublish i (block_at (blocks t) i))
                 (with_td (set_numToWrite (wrap32 (numToWrite t + 1))) s)))
  | R_signal => Some (set_rpc R_unlock2 (emit EvSignalWrite (wake_writer s)))
  | R_unlock2 => Some (set_rpc R_chkend (set_mutex None s))
  | R_chkend =>
      Some (set_rpc (if end_ (block_at (blocks t) i) then R_done else R_acc) s)
  | R_acc =>
      if num_block =? 0 then None
      else Some (set_rd (mkR R_lock (next_block_idx i) (rret (rd s)))
                   (with_td (set_read (wrap64 (read t + size (block_at (blocks t) i)))) s))
  | R_done => None
  end.

(** One step of [writerThread]; blocked in [pthread_cond_wait] ([W_waiting])
    it is moved on by [wake_writer] or by [spurious]. *)
Definition step_writer (s : state) : option state :=
  let t := td s in
  let i := widx (wr s) in
  match wpc (wr s) with
  | W_lock => option_map (set_wpc W_check) (acquire Writer s)
  | W_check =>
      Some (set_wpc (if numToWrite t <? 1 then W_waitinc else W_unlock) s)
  | W_waitinc =>
      Some (set_wpc W_wait (with_td (set_wwaits (wrap32 (wwaits t + 1))) s))
  | W_wait => Some (set_wpc W_waiting (set_mutex None s))
  | W_waiting => None
  | W_woken => option_map (set_wpc W_unlock) (acquire Writer s)
  | W_unlock => Some (set_wpc W_write (set_mutex None s))
  | W_write =>
      let count := size (block_at (blocks t) i) in
      let '(n, f) := sys_write (file_out t) (buf t) (buf_idx i) count in
      let ret := to_int n in
      let s1 := emit (EvWrite i count) (with_td (set_file_out f) s) in
      let s2 := if ret =? -1 then emit EvWriteError s1 else s1 in
      Some (set_wr (mkW W_chkshort i ret) s2)
  | W_chkshort =>
      let s1 := if wrap64 (wret (wr s)) =? size (block_at (blocks t) i)
                then s else emit EvShortWrite s in
      Some (set_wpc W_chkend s1)
  | W_chkend =>
      let b := block_at (blocks t) i in
      Some (set_wpc (if end_ b then W_done else W_lock2) (emit (EvConsumed i b) s))
  | W_lock2 => option_map (set_wpc W_decr) (acquire Writer s)
  | W_decr =>
      Some (set_wpc W_signal
              (emit (EvRelease i) (with_td (set_numToWrite (wrap32 (numToWrite t - 1))) s)))
  | W_signal => Some (set_wpc W_unlock2 (emit EvSignalRead (wake_reader s)))
  | W_unlock2 => Some (set_wpc W_acc (set_mutex None s))
  | W_acc =>
      if num_block =? 0 then None
      else Some (set_wr (mkW W_lock (next_block_idx i) (wret (wr s)))
                   (with_td (set_wrote (wrap64 (wrote t + size (block_at (blocks t) i)))) s))
  | W_done => None
  end.

Definition step_thread (t : tid) (s : state) : option state :=
  match t with
  | Reader => step_reader s
  | Writer => step_writer s
  end.

(** A return from [pthread_cond_wait] that no signal has caused: the blocked
    thread becomes runnable as if it had been signalled, and goes on to take
    the mutex again.  Lines 72 and 113 stand under an [if], so the thread
    does not test the counter again afterwards. *)
Definition spurious (t : tid) (s : state) : option state :=
  match t with
  | Reader =>
      match rpc (rd s) with
      | R_waiting => Some (set_rpc R_woken s)
      | _ => None
      end
  | Writer =>
      match wpc (wr s) with
      | W_waiting => Some (set_wpc W_woken s)
      | _ => None
      end
  end.

(** What can happen next: a thread executes its next statement, or a thread
    blocked in [pthread_cond_wait] returns from it spuriously. *)
Inductive move :=
| Run (t : tid)
| Spurious (t : tid).

Definition step_move (mv : move) (s : state) : option state :=
  match mv with
  | Run t => step_thread t s
  | Spurious t => spurious t s
  end.

(** Any enabled move may come next. *)
Definition step (s s' : state) : Prop := exists mv, step_move mv s = Some s'.

Inductive reachable (s0 : state) : state -> Prop :=
| reach_init : reachable s0 s0
| reach_step : forall s s', reachable s0 s -> step s s' -> reachable s0 s'.

(** Running a schedule of thread steps: the listed threads execute their
    next statement in order; a schedule that names a thread which cannot
    move is not a run.  In such a run every return from [pthread_cond_wait]
    follows a signal. *)
Fixpoint exec (sched : list tid) (s : state) : option state :=
  match sched with
  | [] => Some s
  | t :: r =>
      match step_thread t s with
      | Some s' => exec r s'
      | None => None
      end
  end.

(** Running a sequence of moves, spurious returns included. *)
Fixpoint exec_moves (ms : list move) (s : state) : option state :=
  match ms with
  | [] => Some s
  | mv :: r =>
      match step_move mv s with
      | Some s' => exec_moves r s'
      | None => None
      end
  end.

Definition terminated (s : state) : bool :=
  match rpc (rd s), wpc (wr s) with
  | R_done, W_done => true
  | _, _ => false
  end.

(** A state in which no thread has a statement to execute: each one has
    terminated, waits for the mutex, or is blocked in [pthread_cond_wait]. *)
Definition stuck (s : state) : bool :=
  match step_reader s, step_writer s with
  | None, None => true
  | _, _ => false
  end.

End Engine.

(** The runs in which [pthread_cond_wait] returns only when the condition
    variable was signalled: no move is a spurious return. *)
Definition is_run_move (mv : move) : bool :=
  match mv with
  | Run _ => true
  | Spurious _ => false
  end.
Definition signalled (ms : list move) : bool := forallb is_run_move ms.

(** The thread each move belongs to. *)
Definition thread_of (mv : move) : tid :=
  match mv with
  | Run t => t
  | Spurious t => t
  end.

(** ** The status line *)

(** One round of the loop of [statusWriter]: the two percentages and the two
    wait counts it prints, or [None] when the [size_t] division has a zero
    divisor and the round has no defined result. *)
Definition statusWriter (t : thread_data) : option (Z * Z * Z * Z) :=
  if fsize t =? 0 then None
  else Some (wrap64 (read t * 100) / fsize t,
             wrap64 (wrote t * 100) / fsize t,
             rwaits t, wwaits t).

(** ** Orchestration *)

(** What [main] meets while it sets up: the parsed options, the two [open]
    calls and the two allocations. *)
Record setup := mkSetup {
  args_ok : bool;               (* getopt accepted everything, two paths remain *)
  opt_s : option Z;             (* atoi of the argument of -s *)
  opt_b : option Z;             (* atoi of the argument of -b *)
  open_in : option in_file;     (* open (argv[0], O_RDONLY), length known *)
  open_out : option out_file;   (* open (argv[1], O_WRONLY|O_CREAT) *)
  calloc_ok : bool;             (* calloc (num_block, sizeof (block)) *)
  malloc_buf : option mem       (* malloc (num_block * block_size), contents arbitrary *)
}.

Definition chosen_block_size (e : setup) : Z :=
  match opt_s e with Some v => wrap32 v | None => BLOCK_SIZE end.
Definition chosen_num_block (e : setup) : Z :=
  match opt_b e with Some v => wrap32 v | None => NUM_BLOCK end.

(** Lines 174-202: the descriptor is rewound, [fsize] is the source length,
    the block table is zeroed and every counter starts at 0. *)
Definition init_td (num_block : Z) (fin : in_file) (fout : out_file) (m : mem)
  : thread_data :=
  mkTD (repeat default_block (Z.to_nat num_block)) m 0
       (mkIn (in_len fin) (in_data fin) (in_bad fin) 0) fout
       0 0 (in_len fin) 0 0.

(** Both threads start at the top of their loop with [idx = 0]. *)
Definition init_state (num_block : Z) (fin : in_file) (fout : out_file) (m : mem)
  : state :=
  mkState (init_td num_block fin fout m) None
          (mkR R_lock 0 0) (mkW W_lock 0 0) [].

(** Lines 149-202 of [main]: either the exit status of a failed set-up or the
    state in which the threads are started. *)
Definition main_setup (e : setup) : Z + state :=
  if negb (args_ok e) then inl (-1)
  else match open_in e with
       | None => inl (-1)
       | Some fin =>
           match open_out e with
           | None => inl (-1)
           | Some fout =>
               if negb (calloc_ok e) then inl (-1)
               else match malloc_buf e with
                    | None => inl (-1)
                    | Some m => inr (init_state (chosen_num_block e) fin fout m)
                    end
           end
       end.

(** Lines 217-239: [main] starts the status thread, then the reader and the
    writer, joins these two and leaves with status 0.  While one of the two
    has not terminated [main] is still inside [pthread_join] and there is no
    exit status.  Nor is there one when a round of [statusWriter] has no
    defined result: the division by zero of line 58 happens in the first
    round of the status thread, which is started first; on the usual
    platforms it traps, the process is killed by the signal (SIGFPE) and
    [main] never returns. *)
Definition main_exit (s : state) : option Z :=
  match statusWriter (td s) with
  | None => None
  | Some _ => if terminated s then Some 0 else None
  end.

(** ** Reading a run *)

(** The slots the reader has published and the slots the writer has taken
    through line 121, oldest first. *)
Fixpoint published (l : list event) : list (Z * block) :=
  match l with
  | [] => []
  | EvPublish i b :: r => published r ++ [(i, b)]
  | _ :: r => published r
  end.

Fixpoint consumed (l : list event) : list (Z * block) :=
  match l with
  | [] => []
  | EvConsumed i b :: r => consumed r ++ [(i, b)]
  | _ :: r => consumed r
  end.

(** The [write] calls the writer has made: slot and requested size, oldest
    first. *)
Fixpoint written (l : list event) : list (Z * Z) :=
  match l with
  | [] => []
  | EvWrite i c :: r => written r ++ [(i, c)]
  | _ :: r => written r
  end.

(** Program points at which the thread owns [rw_mutex]. *)
Definition r_holds (l : rlabel) : bool :=
  match l with
  | R_check | R_waitinc | R_wait | R_unlock | R_incr | R_signal | R_unlock2 => true
  | _ => false
  end.
Definition w_holds (l : wlabel) : bool :=
  match l with
  | W_check | W_waitinc | W_wait | W_unlock | W_decr | W_signal | W_unlock2 => true
  | _ => false
  end.

(** Program points between the moment a thread was let through the test on
    [numToWrite] and the moment it changes the counter. *)
Definition r_granted (l : rlabel) : bool :=
  match l with
  | R_woken | R_unlock | R_read | R_perror | R_err_end | R_err_size
  | R_case0 | R_default | R_lock2 | R_incr => true
  | _ => false
  end.
Definition w_granted (l : wlabel) : bool :=
  match l with
  | W_woken | W_unlock | W_write | W_chkshort | W_chkend | W_lock2 | W_decr => true
  | _ => false
  end.

(** The control invariant: mutual exclusion, the bound on the counter, and
    what each thread knows about the counter where it stands. *)
Record ctl_inv (num_block : Z) (s : state) : Prop := mkCtl {
  ctl_bound : 0 <= numToWrite (td s) <= num_block;
  ctl_rmutex : r_holds (rpc (rd s)) = true -> mutex s = Some Reader;
  ctl_wmutex : w_holds (wpc (wr s)) = true -> mutex s = Some Writer;
  ctl_rgrant : r_granted (rpc (rd s)) = true -> numToWrite (td s) < num_block;
  ctl_wgrant : w_granted (wpc (wr s)) = true -> 1 <= numToWrite (td s);
  ctl_wsignal : wpc (wr s) = W_signal -> numToWrite (td s) < num_block;
  ctl_rsignal : rpc (rd s) = R_signal -> 1 <= numToWrite (td s);
  ctl_owner : match mutex s with
              | Some Reader => r_holds (rpc (rd s)) = true
              | Some Writer => w_holds (wpc (wr s)) = true
              | None => True
              end;
  ctl_rfull : rpc (rd s) = R_waitinc \/ rpc (rd s) = R_wait ->
              num_block <= numToWrite (td s);
  ctl_rwait : rpc (rd s) = R_waiting ->
              num_block <= numToWrite (td s) \/ wpc (wr s) = W_signal;
  ctl_wempty : wpc (wr s) = W_waitinc \/ wpc (wr s) = W_wait ->
               numToWrite (td s) < 1;
  ctl_wwait : wpc (wr s) = W_waiting ->
              numToWrite (td s) < 1 \/ rpc (rd s) = R_signal
}.

(** ** The copy as a sequence of slots *)

Section Slots.

Variables block_size num_block : Z.
(** The source: its length and its bytes. *)
Variable L : Z.
Variable data : Z -> byte.

(** File offset after [k] full-size reads of a source of [L] bytes. *)
Definition fpos (k : Z) : Z := Z.min (k * block_size) L.
(** Bytes delivered by read number [k] (counted from 0). *)
Definition sz (k : Z) : Z := fpos (k + 1) - fpos k.
(** Read number [k] finds the source exhausted. *)
Definition isend (k : Z) : bool := L <=? k * block_size.
(** Ring index and metadata of slot number [k]. *)
Definition slot (k : Z) : Z * block := (k mod num_block, mkBlock (sz k) (isend k)).
Definition slots (p : Z) : list (Z * block) :=
  map (fun i => slot (Z.of_nat i)) (seq 0 (Z.to_nat p)).

(** How far a thread is inside its current round of the loop: whether the
    slot of this round has been counted, has its size recorded, holds its
    data, has been written out, has passed line 121, has been released. *)
Definition r_pub (l : rlabel) : Z :=
  match l with
  | R_signal | R_unlock2 | R_chkend | R_acc | R_done => 1
  | _ => 0
  end.
Definition r_meta (l : rlabel) : Z :=
  match l with
  | R_lock2 | R_incr | R_signal | R_unlock2 | R_chkend | R_acc | R_done => 1
  | _ => 0
  end.
Definition r_data (l : rlabel) : Z :=
  match l with
  | R_case0 | R_default
  | R_lock2 | R_incr | R_signal | R_unlock2 | R_chkend | R_acc | R_done => 1
  | _ => 0
  end.
Definition r_endable (l : rlabel) : bool :=
  match l with
  | R_default | R_lock2 | R_incr | R_signal | R_unlock2 | R_chkend | R_acc | R_done => true
  | _ => false
  end.
Definition r_error (l : rlabel) : bool :=
  match l with
  | R_perror | R_err_end | R_err_size => true
  | _ => false
  end.
Definition w_rel (l : wlabel) : Z :=
  match l with
  | W_signal | W_unlock2 | W_acc => 1
  | _ => 0
  end.
Definition w_wr (l : wlabel) : Z :=
  match l with
  | W_chkshort | W_chkend | W_lock2 | W_decr | W_signal | W_unlock2 | W_acc | W_done => 1
  | _ => 0
  end.
Definition w_cons (l : wlabel) : Z :=
  match l with
  | W_lock2 | W_decr | W_signal | W_unlock2 | W_acc | W_done => 1
  | _ => 0
  end.
Definition w_live (l : wlabel) : bool :=
  match l with
  | W_lock2 | W_decr | W_signal | W_unlock2 | W_acc => true
  | _ => false
  end.

(** No error message in the history. *)
Definition quiet_event (e : event) : bool :=
  match e with
  | EvReadError | EvWriteError | EvShortWrite => false
  | _ => true
  end.

(** The copy invariant of a run without read or write errors: the reader is
    in round [rk] of its loop, the writer in round [wk]. *)
Record copy_inv (rk wk : Z) (s : state) : Prop := mkCopy {
  ci_ctl : ctl_inv num_block s;
  ci_rk : 0 <= rk /\ (rk - 1) * block_size < L;
  ci_wk : 0 <= wk /\ (wk - 1) * block_size < L;
  ci_in : file_in (td s) = mkIn L data None (fpos (rk + r_data (rpc (rd s))));
  ci_ridx : ridx (rd s) = rk mod num_block;
  ci_widx : widx (wr s) = wk mod num_block;
  ci_noerr : r_error (rpc (rd s)) = false;
  ci_num : numToWrite (td s) = (rk + r_pub (rpc (rd s))) - (wk + w_rel (wpc (wr s)));
  ci_len : Z.of_nat (length (blocks (td s))) = num_block;
  ci_ret : rpc (rd s) = R_case0 \/ rpc (rd s) = R_default -> rret (rd s) = sz rk;
  ci_rcase0 : rpc (rd s) = R_case0 -> L <= rk * block_size;
  ci_racc : rpc (rd s) = R_acc -> rk * block_size < L;
  ci_rdone : rpc (rd s) = R_done -> L <= rk * block_size;
  ci_wlive : w_live (wpc (wr s)) = true -> wk * block_size < L;
  ci_wdone : wpc (wr s) = W_done -> L <= wk * block_size;
  ci_size : forall k, wk + w_rel (wpc (wr s)) <= k < rk + r_meta (rpc (rd s)) ->
            size (block_at (blocks (td s)) (k mod num_block)) = sz k;
  ci_rsize : r_meta (rpc (rd s)) = 1 ->
             size (block_at (blocks (td s)) (rk mod num_block)) = sz rk;
  ci_end : forall j, 0 <= j < num_block ->
           end_ (block_at (blocks (td s)) j)
           = r_endable (rpc (rd s)) && isend rk && (j =? rk mod num_block);
  ci_buf : forall k a, wk + w_rel (wpc (wr s)) <= k < rk + r_data (rpc (rd s)) ->
           0 <= a < sz k ->
           buf (td s) ((k mod num_block) * block_size + a) = data (k * block_size + a);
  ci_cap : out_cap (file_out (td s)) = None;
  ci_opos : out_pos (file_out (td s)) = fpos (wk + w_wr (wpc (wr s)));
  ci_out : forall a, 0 <= a < out_pos (file_out (td s)) ->
           out_data (file_out (td s)) a = data a;
  ci_wret : wpc (wr s) = W_chkshort -> wret (wr s) = sz wk;
  ci_read : read (td s) = wrap64 (fpos rk);
  ci_fsize : fsize (td s) = L;
  ci_pub : published (log s) = slots (rk + r_pub (rpc (rd s)));
  ci_cons : consumed (log s) = slots (wk + w_cons (wpc (wr s)));
  ci_quiet : forallb quiet_event (log s) = true;
  ci_written : written (log s)
               = map (fun p => (fst p, size (snd p)))
                     (slots (wk + w_wr (wpc (wr s))))
}.

(** Rank of a program point inside one round, and the number of steps a run
    in rounds [rk] and [wk] can still take. *)
Definition r_rank (l : rlabel) : Z :=
  match l with
  | R_lock => 18 | R_check => 17 | R_waitinc => 16 | R_wait => 15
  | R_waiting => 14 | R_woken => 13 | R_unlock => 12 | R_read => 11
  | R_perror => 10 | R_err_end => 9 | R_err_size => 8
  | R_case0 => 10 | R_default => 9 | R_lock2 => 8 | R_incr => 7
  | R_signal => 6 | R_unlock2 => 5 | R_chkend => 4 | R_acc => 3
  | R_done => 0
  end.
Definition w_rank (l : wlabel) : Z :=
  match l with
  | W_lock => 18 | W_check => 17 | W_waitinc => 16 | W_wait => 15
  | W_waiting => 14 | W_woken => 13 | W_unlock => 12 | W_write => 11
  | W_chkshort => 10 | W_chkend => 9 | W_lock2 => 8 | W_decr => 7
  | W_signal => 6 | W_unlock2 => 5 | W_acc => 4
  | W_done => 0
  end.
Definition fuel_left (rk wk : Z) (s : state) : Z :=
  (L + 1 - rk) * 20 + r_rank (rpc (rd s)) + (L + 1 - wk) * 20 + w_rank (wpc (wr s)).

End Slots.

(** ** The end marker *)

(** A slot whose [end] flag is clear. *)
Definition nonend (p : Z * block) : bool := negb (end_ (snd p)).

(** In a sequence of slots, no slot but the last carries the [end] flag. *)
Fixpoint end_only_last (l : list (Z * block)) : bool :=
  match l with
  | [] => true
  | p :: r =>
      match r with
      | [] => true
      | _ :: _ => nonend p && end_only_last r
      end
  end.

(** Program points of the reader at which the flag of the slot under its
    cursor is still clear in every run. *)
Definition r_clean (l : rlabel) : bool :=
  match l with
  | R_err_size | R_default | R_lock2 | R_incr
  | R_signal | R_unlock2 | R_chkend | R_done => false
  | _ => true
  end.

(** The end-marker invariant, for every source and every configuration. *)
Record end_inv (num_block : Z) (s : state) : Prop := mkEnd {
  ei_len : Z.of_nat (length (blocks (td s))) = num_block;
  ei_idx : 0 <= ridx (rd s) < num_block;
  ei_other : forall j, 0 <= j < num_block -> j <> ridx (rd s) ->
             end_ (block_at (blocks (td s)) j) = false;
  ei_clean : r_clean (rpc (rd s)) = true ->
             end_ (block_at (blocks (td s)) (ridx (rd s))) = false;
  ei_pub : match rpc (rd s) with
           | R_signal | R_unlock2 | R_chkend =>
               exists older,
                 published (log s)
                 = older ++ [(ridx (rd s), block_at (blocks (td s)) (ridx (rd s)))]
                 /\ forallb nonend older = true
           | R_done => end_only_last (published (log s)) = true
           | _ => forallb nonend (published (log s)) = true
           end;
  ei_cons : match wpc (wr s) with
            | W_done => end_only_last (consumed (log s)) = true
            | _ => forallb nonend (consumed (log s)) = true
            end
}.

(** ** One failed read, one consumed slot *)

(** Events by which the reader hands a slot to the writer. *)
Definition reader_silent (e : event) : bool :=
  match e with
  | EvPublish _ _ | EvSignalWrite => false
  | _ => true
  end.

(** Program points of the reader between a failed [read] and its exit. *)
Definition r_failing (l : rlabel) : bool :=
  match l with
  | R_read | R_perror | R_err_end | R_err_size | R_done => true
  | _ => false
  end.



(** What holds after a failed [read], started in [s0], while the rest of the
    program keeps running. *)
Record fail_path (s0 s : state) : Prop := mkFail {
  fp_pc : r_failing (rpc (rd s)) = true;
  fp_idx : ridx (rd s) = ridx (rd s0);
  fp_len : length (blocks (td s)) = length (blocks (td s0));
  fp_read : rpc (rd s) = R_read -> in_fails (file_in (td s)) = true;
  fp_end : rpc (rd s) = R_err_size \/ rpc (rd s) = R_done ->
           end_ (block_at (blocks (td s)) (ridx (rd s))) = true;
  fp_size : rpc (rd s) = R_done ->
            size (block_at (blocks (td s)) (ridx (rd s))) = 0;
  fp_log : exists evs,
      log s = evs ++ log s0
      /\ forallb reader_silent evs = true
      /\ (rpc (rd s) = R_read \/ rpc (rd s) = R_perror \/ In EvReadError evs)
}.

(** ** Concrete runs *)

(** The state a schedule leads to (the starting state when the schedule is
    not a run). *)
Definition run (block_size num_block : Z) (sched : list tid) (s : state) : state :=
  match exec block_size num_block sched s with
  | Some s' => s'
  | None => s
  end.

(** A schedule given as turns: each thread with the number of steps it takes. *)
Definition turns (l : list (tid * nat)) : list tid :=
  flat_map (fun p => repeat (fst p) (snd p)) l.

(** The same for sequences of moves: the moves of a schedule of thread
    steps, and the state a sequence of moves leads to. *)
Definition runs (sched : list tid) : list move := map Run sched.

Definition run_moves (block_size num_block : Z) (ms : list move) (s : state) : state :=
  match exec_moves block_size num_block ms s with
  | Some s' => s'
  | None => s
  end.

Definition is_run_moves (block_size num_block : Z) (ms : list move) (s : state) : bool :=
  match exec_moves block_size num_block ms s with
  | Some _ => true
  | None => false
  end.

(** An empty destination without a size limit, and a freshly allocated
    buffer. *)
Definition dst_new : out_file := mkOut (fun _ => "255"%byte) 0 None false.
Definition mem_new : mem := fun _ => "255"%byte.

(** A source of the three bytes [a b c]. *)
Definition src_abc : in_file :=
  mkIn 3 (fun a => if a =? 0 then "a"%byte else if a =? 1 then "b"%byte else "c"%byte)
       None 0.

(** The same source on a medium that cannot be read from offset 2 on. *)
Definition src_abc_bad : in_file :=
  mkIn 3 (in_data src_abc) (Some 2) 0.

(** The empty source. *)
Definition src_empty : in_file := mkIn 0 (fun _ => "000"%byte) None 0.

(** A source of 3,500,000 bytes, byte [a] holding [a mod 251]. *)
Definition byte_of_Z (z : Z) : byte :=
  match Byte.of_N (Z.to_N (z mod 256)) with
  | Some b => b
  | None => "000"%byte
  end.
Definition src_3500000 : in_file :=
  mkIn 3500000 (fun a => byte_of_Z (a mod 251)) None 0.

(** A source of [len] bytes: zeros below offset [2^32], ones from there on. *)
Definition src_wide (len : Z) : in_file :=
  mkIn len (fun a => if a <? 2 ^ 32 then "000"%byte else "001"%byte) None 0.

(** The reader runs whenever it can. *)
Definition sched_abc : list tid :=
  turns [(Reader, 15); (Writer, 10); (Reader, 14); (Writer, 11);
         (Reader, 10); (Writer, 7)]%nat.
Definition sched_abc_bad : list tid :=
  turns [(Reader, 18); (Writer, 15)]%nat.
Definition sched_3500000 : list tid :=
  turns [(Reader, 26); (Writer, 10); (Reader, 14); (Writer, 11);
         (Reader, 14); (Writer, 11); (Reader, 10); (Writer, 18)]%nat.
Definition sched_wide : list tid :=
  turns [(Reader, 59); (Writer, 10); (Reader, 10); (Writer, 51)]%nat.

(** Whether a schedule is a run from a state. *)
Definition is_run (block_size num_block : Z) (sched : list tid) (s : state) : bool :=
  match exec block_size num_block sched s with
  | Some _ => true
  | None => false
  end.

(** The configuration keeps every [read] within what one call transfers
    (and so every returned count inside [int]) and the offset of every slot
    the copy uses inside [unsigned int]. *)
Definition fits (block_size num_block L : Z) : Prop :=
  Z.min block_size L <= RW_MAX
  /\ forall i, 0 <= i < num_block -> (i - 1) * block_size < L ->
               i * block_size < 2 ^ 32.



(** Schedules that stop at particular program points. *)
Definition sched_first_publish : list tid := turns [(Reader, 7)]%nat.
Definition sched_to_failed_read : list tid := turns [(Reader, 14)]%nat.
Definition sched_past_failed_read : list tid :=
  turns [(Reader, 2); (Writer, 3); (Reader, 2)]%nat.
Definition sched_to_write : list tid := turns [(Reader, 11); (Writer, 3)]%nat.

(** ** Runs in which a read fails *)

(** Slots counted by the reader in its current round, in a run that ends
    with a failed [read]: the exit is on line 82, before line 93. *)
Definition r_pub_err (l : rlabel) : Z :=
  match l with
  | R_signal | R_unlock2 | R_chkend | R_acc => 1
  | _ => 0
  end.

(** Program points after a [read] that delivered data. *)
Definition r_fed (l : rlabel) : bool :=
  match l with
  | R_default | R_lock2 | R_incr | R_signal | R_unlock2 | R_chkend | R_acc => true
  | _ => false
  end.

(** Program points after the error was reported. *)
Definition r_reported (l : rlabel) : bool :=
  match l with
  | R_err_end | R_err_size | R_done => true
  | _ => false
  end.

(** The invariant of a run on a source that becomes unreadable at offset
    [N], inside the source: the reader is in round [rk], the writer in round
    [wk]. *)
Record hang_inv (num_block N rk wk : Z) (s : state) : Prop := mkHang {
  hi_ctl : ctl_inv num_block s;
  hi_rk : 0 <= rk;
  hi_wk : 0 <= wk;
  hi_ridx : ridx (rd s) = rk mod num_block;
  hi_widx : widx (wr s) = wk mod num_block;
  hi_len : Z.of_nat (length (blocks (td s))) = num_block;
  hi_num : numToWrite (td s)
           = (rk + r_pub_err (rpc (rd s))) - (wk + w_rel (wpc (wr s)));
  hi_bad : in_bad (file_in (td s)) = Some N;
  hi_inside : N <= in_len (file_in (td s));
  hi_pos : rk <= in_pos (file_in (td s)) <= N;
  hi_fed : r_fed (rpc (rd s)) = true -> rk + 1 <= in_pos (file_in (td s));
  hi_nocase0 : rpc (rd s) <> R_case0;
  hi_flag : forall j, 0 <= j < num_block ->
            end_ (block_at (blocks (td s)) j) = true ->
            j = ridx (rd s) /\ (rpc (rd s) = R_err_size \/ rpc (rd s) = R_done);
  hi_rdone : rpc (rd s) = R_done -> numToWrite (td s) < num_block;
  hi_wrun : wpc (wr s) <> W_done;
  hi_err : r_reported (rpc (rd s)) = true -> In EvReadError (log s)
}.

Definition fuel_err (N rk wk : Z) (s : state) : Z :=
  (N + 1 - rk) * 20 + r_rank (rpc (rd s))
  + (N + 2 - wk) * 20 + w_rank (wpc (wr s)).


(** ** Locks and signals *)

(** Program points at which a thread is blocked in [pthread_cond_wait] or
    has terminated. *)
Definition r_parked (l : rlabel) : bool :=
  match l with
  | R_waiting | R_done => true
  | _ => false
  end.
Definition w_parked (l : wlabel) : bool :=
  match l with
  | W_waiting | W_done => true
  | _ => false
  end.

(** Mutual exclusion and what a blocked thread knows about the counter: the
    part of the control invariant that does not depend on why a
    [pthread_cond_wait] returned. *)
Record sync_inv (num_block : Z) (s : state) : Prop := mkSync {
  sy_rmutex : r_holds (rpc (rd s)) = true -> mutex s = Some Reader;
  sy_wmutex : w_holds (wpc (wr s)) = true -> mutex s = Some Writer;
  sy_owner : match mutex s with
             | Some Reader => r_holds (rpc (rd s)) = true
             | Some Writer => w_holds (wpc (wr s)) = true
             | None => True
             end;
  sy_rfull : rpc (rd s) = R_waitinc \/ rpc (rd s) = R_wait ->
             num_block <= numToWrite (td s);
  sy_rwait : rpc (rd s) = R_waiting ->
             num_block <= numToWrite (td s) \/ wpc (wr s) = W_signal;
  sy_wempty : wpc (wr s) = W_waitinc \/ wpc (wr s) = W_wait ->
              numToWrite (td s) < 1;
  sy_wwait : wpc (wr s) = W_waiting ->
             numToWrite (td s) < 1 \/ rpc (rd s) = R_signal
}.

(** ** The ring and the buffer *)

(** Line 193: the argument of [malloc], [num_block*sizeof(char)*block_size],
    computed in [size_t]. *)
Definition buf_bytes (block_size num_block : Z) : Z :=
  wrap64 (wrap64 (num_block * 1) * block_size).

(** The part of [td->buf] handed to [read] on line 76 and to [write] on line
    117: first offset and length. *)
Definition read_region (block_size : Z) (s : state) : Z * Z :=
  (buf_idx block_size (ridx (rd s)), block_size).
Definition write_region (block_size : Z) (s : state) : Z * Z :=
  (buf_idx block_size (widx (wr s)),
   size (block_at (blocks (td s)) (widx (wr s)))).

(** A region that lies inside an allocation of [len] bytes. *)
Definition inside (len : Z) (r : Z * Z) : Prop :=
  0 <= fst r /\ 0 <= snd r /\ fst r + snd r <= len.

(** Both cursors index the block table, no slot records more than a block,
    and a count about to be recorded is no more than a block. *)
Record bounds_inv (block_size num_block : Z) (s : state) : Prop := mkBounds {
  bi_len : Z.of_nat (length (blocks (td s))) = num_block;
  bi_ridx : 0 <= ridx (rd s) < num_block;
  bi_widx : 0 <= widx (wr s) < num_block;
  bi_size : forall j, 0 <= j < num_block ->
            0 <= size (block_at (blocks (td s)) j) <= block_size;
  bi_ret : rpc (rd s) = R_case0 \/ rpc (rd s) = R_default ->
           0 <= rret (rd s) <= block_size
}.

(** ** Counting the handoffs *)

(** The slots the writer has released on line 124, oldest first. *)
Fixpoint released (l : list event) : list Z :=
  match l with
  | [] => []
  | EvRelease i :: r => released r ++ [i]
  | _ :: r => released r
  end.

(** The length of a list, as an integer. *)
Definition count {A : Type} (l : list A) : Z := Z.of_nat (length l).

(** Program points at which the writer has written the slot under its cursor
    and not yet released it. *)
Definition w_taken (l : wlabel) : Z :=
  match l with
  | W_chkshort | W_chkend | W_lock2 | W_decr | W_done => 1
  | _ => 0
  end.

(** The counter against the history. *)
Record tally_inv (num_block : Z) (s : state) : Prop := mkTally {
  ti_ctl : ctl_inv num_block s;
  ti_num : numToWrite (td s)
           = count (published (log s)) - count (released (log s));
  ti_written : count (written (log s))
               = count (released (log s)) + w_taken (wpc (wr s));
  ti_done : wpc (wr s) = W_done -> 1 <= numToWrite (td s)
}.

(** The destination as it was opened, against the destination now. *)
Record out_frame (fout : out_file) (s : state) : Prop := mkFrame {
  of_cap : out_cap (file_out (td s)) = out_cap fout;
  of_pos : out_pos fout <= out_pos (file_out (td s));
  of_data : forall a, a < out_pos fout \/ out_pos (file_out (td s)) <= a ->
            out_data (file_out (td s)) a = out_data fout a
}.

(** ** A destination that fills up *)

(** The same destination without its limit. *)
Definition unlimited (f : out_file) : out_file :=
  mkOut (out_data f) (out_pos f) None (out_dev f).

(** A run [s'] on a regular file that holds [c] bytes, against the run [s] of
    the same schedule on the same destination without the limit: the two
    differ in the destination, in what [write] returned and in the messages
    printed, and in nothing else. *)
Record sim_cap (c : Z) (s s' : state) : Prop := mkSim {
  sc_blocks : blocks (td s') = blocks (td s);
  sc_buf : buf (td s') = buf (td s);
  sc_num : numToWrite (td s') = numToWrite (td s);
  sc_in : file_in (td s') = file_in (td s);
  sc_read : read (td s') = read (td s);
  sc_wrote : wrote (td s') = wrote (td s);
  sc_fsize : fsize (td s') = fsize (td s);
  sc_rwaits : rwaits (td s') = rwaits (td s);
  sc_wwaits : wwaits (td s') = wwaits (td s);
  sc_mutex : mutex s' = mutex s;
  sc_rd : rd s' = rd s;
  sc_wpc : wpc (wr s') = wpc (wr s);
  sc_widx : widx (wr s') = widx (wr s);
  sc_cap : out_cap (file_out (td s')) = Some c;
  sc_nocap : out_cap (file_out (td s)) = None;
  sc_dev : out_dev (file_out (td s')) = false;
  sc_pos : out_pos (file_out (td s')) = Z.min c (out_pos (file_out (td s)));
  sc_data : forall a, a < out_pos (file_out (td s')) ->
            out_data (file_out (td s')) a = out_data (file_out (td s)) a;
  sc_log : filter quiet_event (log s') = filter quiet_event (log s);
  sc_fit : out_pos (file_out (td s)) <= c ->
           log s' = log s /\ wret (wr s') = wret (wr s);
  sc_over : c < out_pos (file_out (td s)) ->
            In EvShortWrite (log s')
            \/ (wpc (wr s) = W_chkshort /\ wrap64 (wret (wr s')) <> wret (wr s))
}.

(** ** Degenerate sizes *)

(** With [num_block = 0] both threads stay in the first four lines of their
    loop: the counter is 0, nothing is printed or written, and a thread has
    counted its wait once it is past line 71 or 112. *)
Definition r_counted (l : rlabel) : Z :=
  match l with
  | R_wait | R_waiting => 1
  | _ => 0
  end.
Definition w_counted (l : wlabel) : Z :=
  match l with
  | W_wait | W_waiting => 1
  | _ => 0
  end.

Record no_block_inv (fout : out_file) (s : state) : Prop := mkNoBlock {
  nb_ctl : ctl_inv 0 s;
  nb_num : numToWrite (td s) = 0;
  nb_rpc : 14 <= r_rank (rpc (rd s));
  nb_wpc : 14 <= w_rank (wpc (wr s));
  nb_log : log s = [];
  nb_out : file_out (td s) = fout;
  nb_rwaits : rwaits (td s) = r_counted (rpc (rd s));
  nb_wwaits : wwaits (td s) = w_counted (wpc (wr s))
}.

(** A destination on which a [write] of zero bytes succeeds: anything but a
    device that has no room left. *)
Definition accepts_empty (f : out_file) : bool :=
  match out_room f with
  | Some room => negb ((room <=? 0) && out_dev f)
  | None => true
  end.

(** With [block_size = 0] the first [read] asks for nothing and returns 0:
    each thread goes through its loop once.  Program points the reader never
    visits then. *)
Definition r_single (l : rlabel) : bool :=
  match l with
  | R_waitinc | R_wait | R_waiting | R_woken
  | R_perror | R_err_end | R_err_size | R_acc => false
  | _ => true
  end.

Record no_size_inv (num_block : Z) (fout : out_file) (s : state) : Prop := mkNoSize {
  ns_ctl : ctl_inv num_block s;
  ns_len : Z.of_nat (length (blocks (td s))) = num_block;
  ns_ridx : ridx (rd s) = 0;
  ns_widx : widx (wr s) = 0;
  ns_rpc : r_single (rpc (rd s)) = true;
  ns_wpc : w_live (wpc (wr s)) = false;
  ns_bad : in_bad (file_in (td s)) = None;
  ns_num : numToWrite (td s) = r_pub (rpc (rd s));
  ns_ret : rpc (rd s) = R_case0 \/ rpc (rd s) = R_default -> rret (rd s) = 0;
  ns_end : rpc (rd s) = R_default -> end_ (block_at (blocks (td s)) 0) = true;
  ns_slot : r_meta (rpc (rd s)) = 1 ->
            block_at (blocks (td s)) 0 = mkBlock 0 true;
  ns_wret : wpc (wr s) = W_chkshort -> wret (wr s) = 0;
  ns_pub : published (log s)
           = if r_pub (rpc (rd s)) =? 1 then [(0, mkBlock 0 true)] else [];
  ns_written : written (log s) = if w_wr (wpc (wr s)) =? 1 then [(0, 0)] else [];
  ns_quiet : forallb quiet_event (log s) = true;
  ns_read : read (td s) = 0;
  ns_cap : out_cap (file_out (td s)) = out_cap fout;
  ns_pos : out_pos (file_out (td s)) = out_pos fout;
  ns_data : forall a, out_data (file_out (td s)) a = out_data fout a;
  ns_dev : out_dev (file_out (td s)) = out_dev fout
}.

(** ** The wait counters *)


(** ** The progress counters *)

(** What the copy invariant leaves open about [td->wrote]: it never exceeds
    the bytes of the slots the writer has finished with, and between lines
    124 and 127 the slot under the writer's cursor still records its size
    unless the reader has gone once around the ring since. *)
Record progress_inv (block_size num_block L rk wk : Z) (s : state) : Prop :=
  mkProgress {
  pg_wrote : 0 <= wrote (td s) <= fpos block_size L wk;
  pg_slot : w_rel (wpc (wr s)) = 1 ->
            rk + r_meta (rpc (rd s)) <= wk + num_block ->
            size (block_at (blocks (td s)) (wk mod num_block))
            = sz block_size L wk
}.

(** ** The bytes before a failed read *)

(** The readable part of a source that cannot be read from offset [N] on. *)
Definition readable_part (f : in_file) (N : Z) : in_file :=
  mkIn N (in_data f) None (in_pos f).

(** Program points of the reader once a [read] has failed. *)
Definition r_failed (l : rlabel) : bool :=
  match l with
  | R_perror | R_err_end | R_err_size | R_done => true
  | _ => false
  end.

(** A run [s'] on a source that cannot be read from offset [N] on, against
    a run [s] on the readable part alone.  Until a [read] fails the two
    differ in the descriptor of the source only; from then on the reader of
    [s] stands still in front of its [read], and the block tables agree
    except in the slot under the reader's cursor. *)
Record sim_bad (N : Z) (s s' : state) : Prop := mkSimBad {
  sb_buf : buf (td s') = buf (td s);
  sb_num : numToWrite (td s') = numToWrite (td s);
  sb_out : file_out (td s') = file_out (td s);
  sb_mutex : mutex s' = mutex s;
  sb_wr : wr s' = wr s;
  sb_data : in_data (file_in (td s')) = in_data (file_in (td s));
  sb_ipos : in_pos (file_in (td s')) = in_pos (file_in (td s));
  sb_bad : in_bad (file_in (td s')) = Some N;
  sb_inside : N <= in_len (file_in (td s'));
  sb_good : in_bad (file_in (td s)) = None;
  sb_len : in_len (file_in (td s)) = N;
  sb_blen : length (blocks (td s')) = length (blocks (td s));
  sb_ridx : ridx (rd s') = ridx (rd s);
  sb_early : r_failed (rpc (rd s')) = false ->
             rd s' = rd s /\ blocks (td s') = blocks (td s);
  sb_late : r_failed (rpc (rd s')) = true ->
            rpc (rd s) = R_read
            /\ N <= in_pos (file_in (td s))
            /\ forall j, 0 <= j -> j <> ridx (rd s) ->
                 block_at (blocks (td s')) j = block_at (blocks (td s)) j;
  sb_log : filter quiet_event (log s') = filter quiet_event (log s)
}.

(** ** The copy when the offsets of the slots do not fit *)

(** The copy invariant without what it says about the bytes in the buffer
    and in the destination: what is left holds in every configuration. *)
Record flow_inv (block_size num_block L : Z) (data : Z -> byte) (rk wk : Z)
    (s : state) : Prop := mkFlow {
  fl_ctl : ctl_inv num_block s;
  fl_rk : 0 <= rk /\ (rk - 1) * block_size < L;
  fl_wk : 0 <= wk /\ (wk - 1) * block_size < L;
  fl_in : file_in (td s) = mkIn L data None (fpos block_size L (rk + r_data (rpc (rd s))));
  fl_ridx : ridx (rd s) = rk mod num_block;
  fl_widx : widx (wr s) = wk mod num_block;
  fl_noerr : r_error (rpc (rd s)) = false;
  fl_num : numToWrite (td s) = (rk + r_pub (rpc (rd s))) - (wk + w_rel (wpc (wr s)));
  fl_len : Z.of_nat (length (blocks (td s))) = num_block;
  fl_ret : rpc (rd s) = R_case0 \/ rpc (rd s) = R_default -> rret (rd s) = sz block_size L rk;
  fl_rcase0 : rpc (rd s) = R_case0 -> L <= rk * block_size;
  fl_racc : rpc (rd s) = R_acc -> rk * block_size < L;
  fl_rdone : rpc (rd s) = R_done -> L <= rk * block_size;
  fl_wlive : w_live (wpc (wr s)) = true -> wk * block_size < L;
  fl_wdone : wpc (wr s) = W_done -> L <= wk * block_size;
  fl_size : forall k, wk + w_rel (wpc (wr s)) <= k < rk + r_meta (rpc (rd s)) ->
            size (block_at (blocks (td s)) (k mod num_block)) = sz block_size L k;
  fl_rsize : r_meta (rpc (rd s)) = 1 ->
             size (block_at (blocks (td s)) (rk mod num_block)) = sz block_size L rk;
  fl_end : forall j, 0 <= j < num_block ->
           end_ (block_at (blocks (td s)) j)
           = r_endable (rpc (rd s)) && isend block_size L rk && (j =? rk mod num_block);
  fl_cap : out_cap (file_out (td s)) = None;
  fl_opos : out_pos (file_out (td s)) = fpos block_size L (wk + w_wr (wpc (wr s)));
  fl_wret : wpc (wr s) = W_chkshort -> wret (wr s) = sz block_size L wk;
  fl_read : read (td s) = wrap64 (fpos block_size L rk);
  fl_fsize : fsize (td s) = L;
  fl_pub : published (log s) = slots block_size num_block L (rk + r_pub (rpc (rd s)));
  fl_cons : consumed (log s) = slots block_size num_block L (wk + w_cons (wpc (wr s)));
  fl_quiet : forallb quiet_event (log s) = true;
  fl_written : written (log s)
               = map (fun p => (fst p, size (snd p)))
                     (slots block_size num_block L (wk + w_wr (wpc (wr s))))
}.

(** ** More concrete runs *)

(** A destination that holds two bytes only. *)
Definition dst_two : out_file := mkOut (fun _ => "255"%byte) 0 (Some 2) false.

(** Each thread runs through its four first lines. *)
Definition sched_no_block : list tid := turns [(Reader, 4); (Writer, 4)]%nat.

(** The reader goes through one round and meets the end; the writer follows. *)
Definition sched_one_slot : list tid := turns [(Reader, 11); (Writer, 6)]%nat.


(** The reader fills two slots before the writer starts. *)
Definition sched_two_slots : list tid := turns [(Reader, 22); (Writer, 17)]%nat.

(** The writer comes first and finds nothing to write. *)
Definition sched_writer_waits : list tid := turns [(Writer, 4)]%nat.

(** A set-up that succeeds, without options. *)
Definition setup_plain : setup :=
  mkSetup true None None (Some src_abc) (Some dst_new) true (Some mem_new).


(** * Proofs *)

(** ** Machine integers *)

Lemma wrap32_small (z : Z) : 0 <= z < 2 ^ 32 -> wrap32 z = z.
Proof. intros H. unfold wrap32. now apply Z.mod_small. Qed.

Lemma wrap64_small (z : Z) : 0 <= z < 2 ^ 64 -> wrap64 z = z.
Proof. intros H. unfold wrap64. now apply Z.mod_small. Qed.

Lemma to_int_small (z : Z) : - 2 ^ 31 <= z < 2 ^ 31 -> to_int z = z.
Proof.
  intros H. unfold to_int.
  rewrite Z.mod_small by lia. lia.
Qed.

(** ** Moves and runs *)

Lemma spurious_reader_some (s s' : state) :
  spurious Reader s = Some s' ->
  rpc (rd s) = R_waiting /\ s' = set_rpc R_woken s.
Proof.
  unfold spurious. destruct (rpc (rd s)); intros H; inversion H; auto.
Qed.

Lemma spurious_writer_some (s s' : state) :
  spurious Writer s = Some s' ->
  wpc (wr s) = W_waiting /\ s' = set_wpc W_woken s.
Proof.
  unfold spurious. destruct (wpc (wr s)); intros H; inversion H; auto.
Qed.

(** A property kept by every statement of either thread and by a spurious
    return of either thread holds in every reachable state. *)
Lemma reachable_inv (P : state -> Prop) (bs n : Z) (s0 : state) :
  P s0 ->
  (forall s s', P s -> step_reader bs n s = Some s' -> P s') ->
  (forall s s', P s -> step_writer bs n s = Some s' -> P s') ->
  (forall s, P s -> rpc (rd s) = R_waiting -> P (set_rpc R_woken s)) ->
  (forall s, P s -> wpc (wr s) = W_waiting -> P (set_wpc W_woken s)) ->
  forall s, reachable bs n s0 s -> P s.
Proof.
  intros H0 Hr Hw Hsr Hsw s Hreach.
  induction Hreach as [|s s' _ IH [[[|]|[|]] Hst]]; auto; cbn in Hst.
  - eapply Hr; eauto.
  - eapply Hw; eauto.
  - destruct (spurious_reader_some _ _ Hst) as [E ->]. auto.
  - destruct (spurious_writer_some _ _ Hst) as [E ->]. auto.
Qed.

(** A run without spurious returns is a schedule of thread steps. *)
Lemma exec_moves_signalled (bs n : Z) (ms : list move) (s : state) :
  signalled ms = true ->
  exec_moves bs n ms s = exec bs n (map thread_of ms) s.
Proof.
  revert s. induction ms as [|mv r IH]; intros s Hsig; [reflexivity|].
  cbn [signalled forallb] in Hsig. apply andb_true_iff in Hsig as [Hmv Hr].
  destruct mv as [t|t]; [|discriminate].
  cbn [exec_moves step_move map thread_of exec].
  destruct (step_thread bs n t s); [now apply IH | reflexivity].
Qed.

Lemma exec_moves_runs (bs n : Z) (sched : list tid) (s : state) :
  exec_moves bs n (runs sched) s = exec bs n sched s.
Proof.
  revert s. induction sched as [|t r IH]; intros s; [reflexivity|].
  cbn [runs map exec_moves step_move exec].
  destruct (step_thread bs n t s); [apply IH | reflexivity].
Qed.

Lemma signalled_runs (sched : list tid) : signalled (runs sched) = true.
Proof. induction sched; cbn; auto. Qed.

Lemma length_threads (ms : list move) : length (map thread_of ms) = length ms.
Proof. apply length_map. Qed.

(** ** Mutual exclusion and the bound on the counter *)

Ltac ctl_start :=
  intros [t m [rl ri rr] [wl wi wr0] lg] s'
    [Hb Hrm Hwm Hrg Hwg Hws Hrs Hown Hrf Hrw Hwe Hww];
  cbn [td mutex rd wr log rpc ridx rret wpc widx wret] in *.

Ltac use_hyps :=
  repeat match goal with
  | H : ?x = ?x -> _ |- _ => specialize (H eq_refl)
  | H : false = true -> _ |- _ => clear H
  | H : ?a = true -> _, H' : ?a = true |- _ => specialize (H H')
  | H : ?a = ?b -> _, H' : ?a = ?b |- _ => specialize (H H')
  | H : (_ <=? _) = true |- _ => apply Z.leb_le in H
  | H : (_ <=? _) = false |- _ => apply Z.leb_gt in H
  | H : (_ <? _) = true |- _ => apply Z.ltb_lt in H
  | H : (_ <? _) = false |- _ => apply Z.ltb_ge in H
  | H : _ \/ _ -> _ |- _ =>
      first [ specialize (H (or_introl eq_refl)) | specialize (H (or_intror eq_refl)) ]
  end.

Ltac split_ifs :=
  repeat match goal with
  | H : context [if ?c then _ else _] |- _ => destruct c eqn:?
  | |- context [if ?c then _ else _] => destruct c eqn:?
  end.

Ltac ctl_fin :=
  intros; use_hyps; subst;
  try rewrite wrap32_small by lia;
  first [ discriminate | congruence | lia | exact I
        | left; first [ congruence | lia ] | right; first [ congruence | lia ]
        | match goal with H : _ \/ _ |- _ =>
            destruct H; first [ discriminate | congruence | lia ] end ].

Ltac ctl_cbn :=
  cbn [td mutex rd wr log rpc ridx rret wpc widx wret
       set_rpc set_wpc set_rd set_wr set_mutex with_td emit
       numToWrite set_numToWrite set_rwaits set_wwaits set_blocks set_buf
       set_file_in set_file_out set_read set_wrote
       r_holds w_holds r_granted w_granted] in *.

Ltac ctl_solve other :=
  constructor; ctl_cbn;
  first [ ctl_fin | destruct other; ctl_cbn; ctl_fin ].

Ltac st_cbn :=
  cbn [td mutex rd wr log rpc ridx rret wpc widx wret
       set_rpc set_wpc set_rd set_wr set_mutex with_td emit
       blocks buf numToWrite file_in file_out read wrote fsize rwaits wwaits
       set_numToWrite set_rwaits set_wwaits set_blocks set_buf
       set_file_in set_file_out set_read set_wrote
       in_len in_data in_bad in_pos out_data out_pos out_cap out_dev
       r_pub r_meta r_data r_endable r_error w_rel w_wr w_cons w_live
       r_rank w_rank published consumed written forallb quiet_event andb] in *.

Ltac feed H :=
  repeat match type of H with
         | ?P -> _ =>
             match type of P with
             | Prop => specialize (H ltac:(assumption))
             end
         end.

Section Control.

Variables block_size num_block : Z.
Hypothesis num_block_range : 0 <= num_block < 2 ^ 32.

Lemma acquire_some (t : tid) (s s1 : state) :
  acquire t s = Some s1 -> mutex s = None /\ s1 = set_mutex (Some t) s.
Proof.
  unfold acquire. destruct (mutex s); intros H; inversion H; auto.
Qed.

Lemma ctl_inv_reader (s s' : state) :
  ctl_inv num_block s -> step_reader block_size num_block s = Some s' ->
  ctl_inv num_block s'.
Proof.
  revert s s'. ctl_start. unfold step_reader.
  cbn [td mutex rd wr log rpc ridx rret wpc widx wret].
  destruct rl; intros Hstep;
    try discriminate;
    try (destruct (acquire Reader _) eqn:Ha; [|discriminate];
         destruct (acquire_some _ _ _ Ha) as [Hm ->]);
    try (destruct (sys_read _ _ _ _) as [[n1 m1] f1]);
    cbn in Hstep; unfold wake_writer in *; cbn in Hstep;
    split_ifs; try discriminate; injection Hstep as <-.
  all: ctl_solve wl.
Qed.

Lemma ctl_inv_writer (s s' : state) :
  ctl_inv num_block s -> step_writer block_size num_block s = Some s' ->
  ctl_inv num_block s'.
Proof.
  revert s s'. ctl_start. unfold step_writer.
  cbn [td mutex rd wr log rpc ridx rret wpc widx wret].
  destruct wl; intros Hstep;
    try discriminate;
    try (destruct (acquire Writer _) eqn:Ha; [|discriminate];
         destruct (acquire_some _ _ _ Ha) as [Hm ->]);
    try (destruct (sys_write _ _ _ _) as [n1 f1]);
    cbn in Hstep; unfold wake_reader in *; cbn in Hstep;
    split_ifs; try discriminate; injection Hstep as <-.
  all: ctl_solve rl.
Qed.

Lemma ctl_inv_init (fin : in_file) (fout : out_file) (m : mem) :
  ctl_inv num_block (init_state num_block fin fout m).
Proof.
  constructor; cbn; intros;
    first [ discriminate | lia | exact I | intuition discriminate ].
Qed.



End Control.

(** ** The block table and the history *)
Lemma nth_upd_nth (f : block -> block) (bl : list block) (i j : nat) :
  nth j (upd_nth i f bl) default_block
  = if (Nat.eqb j i && Nat.ltb i (length bl))%bool
    then f (nth i bl default_block) else nth j bl default_block.
Proof.
  revert i j. induction bl as [|b r IH]; intros i j.
  - destruct i, j; cbn; rewrite ?andb_false_r; reflexivity.
  - destruct i as [|i], j as [|j]; cbn [upd_nth nth length]; try reflexivity.
    rewrite IH. reflexivity.
Qed.

Lemma length_upd_nth (f : block -> block) (bl : list block) (i : nat) :
  length (upd_nth i f bl) = length bl.
Proof.
  revert i. induction bl as [|b r IH]; intros [|i]; cbn; auto.
Qed.

Lemma block_at_upd (f : block -> block) (bl : list block) (i j : Z) :
  0 <= i < Z.of_nat (length bl) -> 0 <= j ->
  block_at (upd_nth (Z.to_nat i) f bl) j
  = if j =? i then f (block_at bl i) else block_at bl j.
Proof.
  intros Hi Hj. unfold block_at. rewrite nth_upd_nth.
  replace (Nat.ltb (Z.to_nat i) (length bl)) with true
    by (symmetry; apply Nat.ltb_lt; lia).
  rewrite andb_true_r.
  destruct (Z.eqb_spec j i) as [->|Hne].
  - now rewrite Nat.eqb_refl.
  - replace (Nat.eqb (Z.to_nat j) (Z.to_nat i)) with false; auto.
    symmetry. apply Nat.eqb_neq. lia.
Qed.

Lemma block_at_set_size (bl : list block) (i j v : Z) :
  0 <= i < Z.of_nat (length bl) -> 0 <= j ->
  block_at (set_block_size i v bl) j
  = if j =? i then mkBlock v (end_ (block_at bl i)) else block_at bl j.
Proof. intros. unfold set_block_size. now rewrite block_at_upd. Qed.

Lemma block_at_set_end (bl : list block) (i j : Z) (v : bool) :
  0 <= i < Z.of_nat (length bl) -> 0 <= j ->
  block_at (set_block_end i v bl) j
  = if j =? i then mkBlock (size (block_at bl i)) v else block_at bl j.
Proof. intros. unfold set_block_end. now rewrite block_at_upd. Qed.

Lemma block_at_repeat (n : nat) (j : Z) :
  block_at (repeat default_block n) j = default_block.
Proof.
  unfold block_at. generalize (Z.to_nat j) as k.
  induction n as [|n IH]; intros [|k]; cbn; auto.
Qed.

Lemma published_app (l1 l2 : list event) :
  published (l1 ++ l2) = published l2 ++ published l1.
Proof.
  induction l1 as [|e l1 IH]; cbn.
  - now rewrite app_nil_r.
  - destruct e; rewrite ?IH, ?app_assoc; reflexivity.
Qed.

Lemma mod_window (n k1 k2 : Z) :
  0 < n -> k1 < k2 < k1 + n -> k1 mod n <> k2 mod n.
Proof.
  intros Hn Hk E.
  pose proof (Z.div_mod k1 n ltac:(lia)).
  pose proof (Z.div_mod k2 n ltac:(lia)).
  assert (k2 - k1 = n * (k2 / n - k1 / n)) by lia.
  assert (0 < k2 / n - k1 / n) by nia.
  nia.
Qed.

Lemma length_set_end (bl : list block) (i : Z) (v : bool) :
  length (set_block_end i v bl) = length bl.
Proof. apply length_upd_nth. Qed.

Lemma length_set_size (bl : list block) (i v : Z) :
  length (set_block_size i v bl) = length bl.
Proof. apply length_upd_nth. Qed.

Lemma size_set_end (bl : list block) (i j : Z) (v : bool) :
  size (block_at (set_block_end i v bl) j) = size (block_at bl j).
Proof.
  unfold set_block_end, block_at. rewrite nth_upd_nth.
  destruct (Nat.eqb_spec (Z.to_nat j) (Z.to_nat i)) as [->|]; cbn [andb]; auto.
  now destruct (Nat.ltb _ _).
Qed.

Lemma end_set_size (bl : list block) (i j v : Z) :
  end_ (block_at (set_block_size i v bl) j) = end_ (block_at bl j).
Proof.
  unfold set_block_size, block_at. rewrite nth_upd_nth.
  destruct (Nat.eqb_spec (Z.to_nat j) (Z.to_nat i)) as [->|]; cbn [andb]; auto.
  now destruct (Nat.ltb _ _).
Qed.

Lemma block_eta (b : block) : b = mkBlock (size b) (end_ b).
Proof. now destruct b. Qed.


(** ** A write that finds room *)

Lemma sys_write_ok (f : out_file) (m : mem) (off count : Z) :
  out_cap f = None -> 0 <= count <= RW_MAX ->
  sys_write f m off count
  = (count,
     mkOut (fun a => if in_range (out_pos f) count a
                     then m (off + (a - out_pos f)) else out_data f a)
           (out_pos f + count) None (out_dev f)).
Proof.
  intros Hc Hcnt. unfold sys_write, out_room. rewrite Hc.
  replace (Z.max 0 (Z.min count RW_MAX)) with count by lia.
  reflexivity.
Qed.

(** ** The copy invariant *)

Section CopyProofs.

Variables bs n L : Z.
Variable data : Z -> byte.
Hypothesis Hbs : 1 <= bs < 2 ^ 32.
Hypothesis Hn : 1 <= n < 2 ^ 32.
Hypothesis HL : 0 <= L.
Hypothesis Hint : Z.min bs L < 2 ^ 31.
Hypothesis Hcall : Z.min bs L <= RW_MAX.
Hypothesis Hidx : forall i, 0 <= i < n -> (i - 1) * bs < L -> i * bs < 2 ^ 32.

Lemma mul_bs_le (a b : Z) : a <= b -> a * bs <= b * bs.
Proof. intros. apply Z.mul_le_mono_nonneg_r; lia. Qed.

Lemma mul_bs_lt (a b : Z) : a * bs < b * bs -> a < b.
Proof. intros. apply Z.mul_lt_mono_pos_r with bs; lia. Qed.

Lemma sz_range (k : Z) :
  0 <= k -> 0 <= sz bs L k <= bs /\ sz bs L k < 2 ^ 31 /\ sz bs L k <= RW_MAX.
Proof.
  intros Hk. assert (0 <= k * bs) by nia.
  unfold sz, fpos. lia.
Qed.

Lemma sz_zero (k : Z) : sz bs L k = 0 <-> L <= k * bs.
Proof. unfold sz, fpos. lia. Qed.

Lemma round_le (k : Z) : 0 <= k -> (k - 1) * bs < L -> k <= L.
Proof. intros. nia. Qed.

Lemma ring_idx (k : Z) : 0 <= k mod n < n.
Proof. apply Z.mod_pos_bound. lia. Qed.

Lemma next_idx (k : Z) : next_block_idx n (k mod n) = (k + 1) mod n.
Proof.
  unfold next_block_idx. pose proof (ring_idx k).
  rewrite wrap32_small by lia.
  rewrite Zplus_mod_idemp_l. reflexivity.
Qed.

Lemma buf_idx_ok (k : Z) :
  0 <= k -> (k - 1) * bs < L -> buf_idx bs (k mod n) = (k mod n) * bs.
Proof.
  intros Hk Hlt. unfold buf_idx. pose proof (ring_idx k) as Hr.
  apply wrap32_small. split; [nia|].
  apply Hidx; [lia|].
  assert (k mod n <= k) by (apply Z.mod_le; lia).
  pose proof (mul_bs_le (k mod n - 1) (k - 1) ltac:(lia)). lia.
Qed.

Lemma slots_succ (p : Z) :
  0 <= p -> slots bs n L (p + 1) = slots bs n L p ++ [slot bs n L p].
Proof.
  intros Hp. unfold slots.
  replace (Z.to_nat (p + 1)) with (S (Z.to_nat p)) by lia.
  rewrite seq_S, map_app. cbn [map Nat.add].
  now rewrite Z2Nat.id by lia.
Qed.


Lemma sys_read_ok (k : Z) (m : mem) (off : Z) :
  0 <= k ->
  sys_read (mkIn L data None (fpos bs L k)) m off bs
  = (sz bs L k,
     (fun a => if in_range off (sz bs L k) a
               then data (fpos bs L k + (a - off)) else m a),
     mkIn L data None (fpos bs L (k + 1))).
Proof.
  intros Hk. assert (0 <= k * bs) by nia.
  unfold sys_read, in_fails, in_limit. cbn.
  replace (Z.max 0 (Z.min (Z.min bs RW_MAX) (L - fpos bs L k))) with (sz bs L k)
    by (unfold sz, fpos; lia).
  replace (fpos bs L k + sz bs L k) with (fpos bs L (k + 1)) by (unfold sz; lia).
  reflexivity.
Qed.

Lemma region_other (i1 i2 a c : Z) :
  i1 <> i2 -> 0 <= a < bs -> c <= bs ->
  in_range (i2 * bs) c (i1 * bs + a) = false.
Proof.
  intros Hne Ha Hc. unfold in_range. apply andb_false_iff.
  rewrite Z.leb_gt, Z.ltb_ge.
  destruct (Z_lt_ge_dec i1 i2).
  - left. pose proof (mul_bs_le (i1 + 1) i2 ltac:(lia)). lia.
  - right. pose proof (mul_bs_le (i2 + 1) i1 ltac:(lia)). lia.
Qed.

Lemma region_same (i a c : Z) :
  0 <= a < c -> in_range (i * bs) c (i * bs + a) = true.
Proof.
  intros Ha. unfold in_range. apply andb_true_iff.
  rewrite Z.leb_le, Z.ltb_lt. lia.
Qed.

Lemma isend_true (k : Z) : L <= k * bs -> isend bs L k = true.
Proof. intros. unfold isend. now apply Z.leb_le. Qed.

Lemma isend_false (k : Z) : k * bs < L -> isend bs L k = false.
Proof. intros. unfold isend. now apply Z.leb_gt. Qed.

(** The buffer after the read of round [rk]. *)
Lemma buf_after_read (m : mem) (rk c : Z) :
  0 <= c -> 0 <= rk -> (rk - 1) * bs < L -> rk - c < n ->
  (forall k a, c <= k < rk -> 0 <= a < sz bs L k ->
               m (k mod n * bs + a) = data (k * bs + a)) ->
  forall k a, c <= k < rk + 1 -> 0 <= a < sz bs L k ->
    (if in_range (buf_idx bs (rk mod n)) (sz bs L rk) (k mod n * bs + a)
     then data (fpos bs L rk + (k mod n * bs + a - buf_idx bs (rk mod n)))
     else m (k mod n * bs + a)) = data (k * bs + a).
Proof.
  intros Hc Hrk Hlt Hwin Hm k a Hk Ha.
  rewrite buf_idx_ok by lia.
  pose proof (sz_range k ltac:(lia)) as Hsk.
  pose proof (sz_range rk ltac:(lia)) as Hsr.
  destruct (Z.eq_dec k rk) as [->|Hne].
  - rewrite region_same by lia. f_equal.
    assert (rk * bs < L) by (destruct (Z_lt_ge_dec (rk * bs) L); auto;
      assert (sz bs L rk = 0) by (apply sz_zero; lia); lia).
    unfold fpos. lia.
  - rewrite region_other; try lia.
    + apply Hm; lia.
    + apply mod_window; lia.
Qed.

Ltac ci_easy :=
  first [ assumption | discriminate | reflexivity | lia
        | intros; first [ assumption | discriminate | congruence | lia ]
        | intros;
          match goal with
          | H : forall k, _ -> size _ = _ |- size _ = _ => apply H; lia
          | H : forall j, _ -> end_ _ = _ |- end_ _ = _ => rewrite H by lia; reflexivity
          | H : forall k a, _ -> _ -> buf _ _ = _ |- _ = data _ => apply H; lia
          | H : forall k a, _ -> _ -> _ = data _ |- _ = data _ => apply H; lia
          | H : forall a, _ -> _ = data _ |- _ = data _ => apply H; lia
          end
        | intros [?|?]; first [ discriminate | congruence | lia ]
        | intros;
          match goal with
          | H : _ \/ _ -> ?G |- ?G =>
              apply H; first [ left; reflexivity | right; reflexivity ]
          end ].


Ltac ci_step k :=
  exists k; st_cbn; rewrite ?Z.add_0_r in *; (split; [constructor|]);
  st_cbn; rewrite ?Z.add_0_r; try ci_easy.

Lemma copy_inv_reader (rk wk : Z) (s s' : state) :
  copy_inv bs n L data rk wk s -> step_reader bs n s = Some s' ->
  exists rk', copy_inv bs n L data rk' wk s'
              /\ fuel_left L rk' wk s' < fuel_left L rk wk s.
Proof.
  intros Hinv Hstep.
  assert (Hn' : 0 <= n < 2 ^ 32) by lia.
  pose proof (ctl_inv_reader bs n Hn' _ _ (ci_ctl _ _ _ _ _ _ _ Hinv) Hstep) as Hctl'.
  revert Hctl'. destruct Hinv as
    [Hctl Hrk Hwk Hin Hri Hwi Hne Hnum Hlen Hret Hc0 Hacc Hrd Hwl Hwd
     Hsize Hrsize Hend Hbuf Hcap Hop Hout Hwret Hread Hfs Hpub Hcons Hq Hwrt].
  destruct Hctl as [Hb Hrm Hwm Hrg Hwg Hws Hrs Hown Hrf Hrw Hwe Hww].
  revert Hstep.
  destruct s as [t m [rl ri rr] [wl wi wr0] lg]. unfold step_reader, fuel_left.
  st_cbn.
  assert (Hwrel : 0 <= w_rel wl <= 1) by (destruct wl; cbn; lia).
  pose proof (ring_idx rk) as Hring.
  destruct rl; intros Hstep Hctl'; try discriminate.
  all: try (destruct (acquire Reader _) eqn:Ha; [|discriminate];
            destruct (acquire_some _ _ _ Ha) as [Hm ->]).
  all: st_cbn; rewrite ?Z.add_0_r in *.
  - (* R_lock *) injection Hstep as <-. ci_step rk.
  - (* R_check *)
    injection Hstep as <-.
    destruct (n <=? numToWrite t); ci_step rk.
  - (* R_waitinc *) injection Hstep as <-. ci_step rk.
  - (* R_wait *) injection Hstep as <-. ci_step rk.
  - (* R_woken *) injection Hstep as <-. ci_step rk.
  - (* R_unlock *) injection Hstep as <-. ci_step rk.
  - (* R_read *)
    rewrite Hin, sys_read_ok in Hstep by lia.
    pose proof (sz_range rk ltac:(lia)) as Hsz.
    rewrite (to_int_small (sz bs L rk)) in Hstep by lia.
    replace (sz bs L rk =? -1) with false in Hstep by (symmetry; apply Z.eqb_neq; lia).
    specialize (Hrg eq_refl).
    assert (Hbuf' := buf_after_read (buf t) rk (wk + w_rel wl)
                       ltac:(lia) ltac:(lia) ltac:(lia) ltac:(lia) Hbuf).
    rewrite <- Hri in Hbuf'.
    destruct (Z.eqb_spec (sz bs L rk) 0) as [E|E]; injection Hstep as <-; ci_step rk.
    + intros _. now apply sz_zero.
    + intros j Hj. rewrite Hend by lia.
      rewrite isend_false; auto.
      destruct (Z_lt_ge_dec (rk * bs) L); auto.
      exfalso. apply E. apply sz_zero. lia.
  - (* R_case0 *)
    injection Hstep as <-. specialize (Hrg eq_refl). specialize (Hc0 eq_refl).
    ci_step rk.
    + now rewrite length_set_end.
    + intros k Hk. rewrite size_set_end. apply Hsize; lia.
    + intros j Hj. rewrite block_at_set_end by lia.
      rewrite isend_true by auto. subst ri.
      destruct (j =? rk mod n); cbn; auto.
  - (* R_default *)
    injection Hstep as <-. specialize (Hrg eq_refl).
    specialize (Hret (or_intror eq_refl)).
    pose proof (sz_range rk ltac:(lia)) as Hsz.
    assert (Hw : wrap64 rr = sz bs L rk) by (subst rr; apply wrap64_small; lia).
    rewrite Hw.
    ci_step rk.
    + now rewrite length_set_size.
    + intros k Hk. pose proof (ring_idx k).
      rewrite block_at_set_size by lia. subst ri.
      destruct (Z.eqb_spec (k mod n) (rk mod n)) as [E|E]; cbn.
      * destruct (Z.eq_dec k rk) as [->|]; auto.
        exfalso. revert E. apply mod_window; lia.
      * destruct (Z.eq_dec k rk) as [->|]; [congruence | apply Hsize; lia].
    + intros _. rewrite block_at_set_size by lia. subst ri.
      now rewrite Z.eqb_refl.
    + intros j Hj. rewrite end_set_size. apply Hend; lia.
  - (* R_lock2 *) injection Hstep as <-. ci_step rk.
  - (* R_incr *)
    injection Hstep as <-. specialize (Hrg eq_refl).
    rewrite wrap32_small in * by lia.
    ci_step rk.
    rewrite Hpub, slots_succ by lia. f_equal. unfold slot. subst ri.
    rewrite (block_eta (block_at _ _)), Hrsize, Hend by (auto; lia).
    now rewrite Z.eqb_refl, andb_true_r.
  - (* R_signal *)
    injection Hstep as <-. unfold wake_writer in *. st_cbn.
    destruct wl; ci_step rk.
  - (* R_unlock2 *) injection Hstep as <-. ci_step rk.
  - (* R_chkend *)
    assert (He : end_ (block_at (blocks t) ri) = isend bs L rk)
      by (rewrite Hri, Hend by lia; now rewrite Z.eqb_refl, andb_true_r).
    rewrite He in *. injection Hstep as <-.
    destruct (Z_le_gt_dec L (rk * bs));
      [ rewrite (isend_true rk) in * by lia
      | rewrite (isend_false rk) in * by lia ]; ci_step rk.
    all: intros j Hj; rewrite ?isend_true, ?isend_false by lia; now apply Hend.
  - (* R_acc *)
    replace (n =? 0) with false in Hstep by (symmetry; apply Z.eqb_neq; lia).
    injection Hstep as <-. specialize (Hacc eq_refl).
    ci_step (rk + 1).
    + subst ri. apply next_idx.
    + intros j Hj. rewrite Hend by lia. now rewrite isend_false.
    + rewrite Hri, Hrsize, Hread by reflexivity.
      unfold wrap64. rewrite Zplus_mod_idemp_l. f_equal. unfold sz. lia.
Qed.


Lemma r_pub_facts (l : rlabel) :
  0 <= r_pub l <= r_meta l /\ r_meta l <= r_data l /\ r_data l <= 1.
Proof. destruct l; cbn; lia. Qed.

Lemma r_pub_endable (l : rlabel) : r_pub l = 1 -> r_endable l = true.
Proof. destruct l; cbn; intros; (reflexivity || lia). Qed.

Lemma r_endable_granted (l : rlabel) :
  r_endable l = true -> r_pub l = 0 -> r_granted l = true.
Proof. destruct l; cbn; intros; (reflexivity || discriminate || lia). Qed.

(** The output after the write of round [wk]. *)
Lemma out_after_write (m : mem) (od : Z -> byte) (wk : Z) :
  0 <= wk -> (wk - 1) * bs < L ->
  (forall a, 0 <= a < sz bs L wk -> m (wk mod n * bs + a) = data (wk * bs + a)) ->
  (forall a, 0 <= a < fpos bs L wk -> od a = data a) ->
  forall a, 0 <= a < fpos bs L (wk + 1) ->
    (if in_range (fpos bs L wk) (sz bs L wk) a
     then m (buf_idx bs (wk mod n) + (a - fpos bs L wk)) else od a) = data a.
Proof.
  intros Hwk Hlt Hm Hod a Ha.
  rewrite buf_idx_ok by lia. unfold in_range.
  destruct (Z.leb_spec (fpos bs L wk) a); cbn [andb].
  - replace (a <? fpos bs L wk + sz bs L wk) with true
      by (symmetry; apply Z.ltb_lt; unfold sz; lia).
    rewrite Hm by (unfold sz; lia). f_equal.
    assert (wk * bs < L) by (unfold fpos in *; lia).
    unfold fpos. lia.
  - apply Hod. lia.
Qed.

Lemma copy_inv_writer (rk wk : Z) (s s' : state) :
  copy_inv bs n L data rk wk s -> step_writer bs n s = Some s' ->
  exists wk', copy_inv bs n L data rk wk' s'
              /\ fuel_left L rk wk' s' < fuel_left L rk wk s.
Proof.
  intros Hinv Hstep.
  assert (Hn' : 0 <= n < 2 ^ 32) by lia.
  pose proof (ctl_inv_writer bs n Hn' _ _ (ci_ctl _ _ _ _ _ _ _ Hinv) Hstep) as Hctl'.
  revert Hctl'. destruct Hinv as
    [Hctl Hrk Hwk Hin Hri Hwi Hne Hnum Hlen Hret Hc0 Hacc Hrd Hwl Hwd
     Hsize Hrsize Hend Hbuf Hcap Hop Hout Hwret Hread Hfs Hpub Hcons Hq Hwrt].
  destruct Hctl as [Hb Hrm Hwm Hrg Hwg Hws Hrs Hown Hrf Hrw Hwe Hww].
  revert Hstep.
  destruct s as [t m [rl ri rr] [wl wi wr0] lg]. unfold step_writer, fuel_left.
  st_cbn.
  pose proof (r_pub_facts rl) as Hpf.
  pose proof (ring_idx wk) as Hring.
  destruct wl; intros Hstep Hctl'; try discriminate.
  all: try (destruct (acquire Writer _) eqn:Ha; [|discriminate];
            destruct (acquire_some _ _ _ Ha) as [Hm ->]).
  all: st_cbn; rewrite ?Z.add_0_r in *.
  - (* W_lock *) injection Hstep as <-. ci_step wk.
  - (* W_check *)
    injection Hstep as <-.
    destruct (numToWrite t <? 1); ci_step wk.
  - (* W_waitinc *) injection Hstep as <-. ci_step wk.
  - (* W_wait *) injection Hstep as <-. ci_step wk.
  - (* W_woken *) injection Hstep as <-. ci_step wk.
  - (* W_unlock *) injection Hstep as <-. ci_step wk.
  - (* W_write *)
    specialize (Hwg eq_refl).
    pose proof (sz_range wk ltac:(lia)) as Hsz.
    rewrite Hwi, Hsize in * by lia.
    rewrite sys_write_ok in * by (auto; lia).
    rewrite (to_int_small (sz bs L wk)) in * by lia.
    replace (sz bs L wk =? -1) with false in * by (symmetry; apply Z.eqb_neq; lia).
    injection Hstep as <-.
    assert (Hout' := out_after_write (buf t) (out_data (file_out t)) wk
                       ltac:(lia) ltac:(lia)).
    rewrite <- Hop in Hout'.
    ci_step wk.
    + rewrite Hop. unfold sz. lia.
    + intros a Ha. apply Hout'; auto.
      * intros a' Ha'. apply Hbuf; lia.
      * rewrite Hop in Ha. unfold sz in Ha. lia.
    + rewrite Hwrt, slots_succ, map_app by lia. reflexivity.
  - (* W_chkshort *)
    specialize (Hwg eq_refl). specialize (Hwret eq_refl).
    pose proof (sz_range wk ltac:(lia)) as Hsz.
    rewrite Hwi, Hsize, Hwret in * by lia.
    rewrite wrap64_small, Z.eqb_refl in * by lia.
    injection Hstep as <-. ci_step wk.
  - (* W_chkend *)
    specialize (Hwg eq_refl).
    assert (Hblk : block_at (blocks t) wi = mkBlock (sz bs L wk) (isend bs L wk)).
    { rewrite (block_eta (block_at _ _)), Hwi, Hsize, Hend by lia. f_equal.
      destruct (Z.eq_dec wk rk) as [->|Hne'].
      - rewrite r_pub_endable by lia. now rewrite Z.eqb_refl, andb_true_r.
      - assert (wk <= rk - 1) by lia.
        pose proof (mul_bs_le wk (rk - 1) ltac:(lia)).
        rewrite (isend_false wk) by lia.
        destruct (r_endable rl) eqn:Een; cbn [andb]; auto.
        destruct (isend bs L rk); cbn [andb]; auto.
        apply Z.eqb_neq. apply mod_window; try lia.
        destruct (Z.eq_dec (r_pub rl) 0) as [E0|E0]; [|lia].
        pose proof (Hrg (r_endable_granted _ Een E0)). lia. }
    rewrite Hblk in *. cbn [end_] in *.
    injection Hstep as <-.
    destruct (Z_le_gt_dec L (wk * bs));
      [ rewrite (isend_true wk) in * by lia
      | rewrite (isend_false wk) in * by lia ]; ci_step wk.
    all: rewrite Hcons, slots_succ by lia; unfold slot;
      rewrite ?isend_true, ?isend_false by lia; now subst wi.
  - (* W_lock2 *) injection Hstep as <-. ci_step wk.
  - (* W_decr *)
    injection Hstep as <-. specialize (Hwg eq_refl).
    rewrite wrap32_small in * by lia.
    ci_step wk.
  - (* W_signal *)
    injection Hstep as <-. unfold wake_reader in *. st_cbn.
    destruct rl; ci_step wk.
  - (* W_unlock2 *) injection Hstep as <-. ci_step wk.
  - (* W_acc *)
    replace (n =? 0) with false in * by (symmetry; apply Z.eqb_neq; lia).
    injection Hstep as <-. specialize (Hwl eq_refl).
    ci_step (wk + 1).
    subst wi. apply next_idx.
Qed.

Lemma copy_inv_init (fin : in_file) (fout : out_file) (m : mem) :
  in_len fin = L -> in_data fin = data -> in_bad fin = None ->
  out_cap fout = None -> out_pos fout = 0 ->
  copy_inv bs n L data 0 0 (init_state n fin fout m).
Proof.
  intros Hl Hd Hb Hc Hp.
  assert (Hf0 : fpos bs L 0 = 0) by (unfold fpos; lia).
  constructor; cbn -[Z.mul Z.add Z.sub Z.modulo slots fpos sz isend];
    rewrite ?Hl, ?Hd, ?Hb, ?Hc, ?Hp, ?Z.add_0_r, ?Hf0;
    try first [ reflexivity | discriminate | lia | intros; lia
              | intros [?|?]; discriminate ].
  - apply ctl_inv_init; lia.
  - rewrite repeat_length. lia.
  - intros j Hj. fold (block_at (repeat default_block (Z.to_nat n)) j).
    now rewrite block_at_repeat.
Qed.

Lemma copy_inv_step (rk wk : Z) (t : tid) (s s' : state) :
  copy_inv bs n L data rk wk s -> step_thread bs n t s = Some s' ->
  exists rk' wk', copy_inv bs n L data rk' wk' s'
                  /\ fuel_left L rk' wk' s' < fuel_left L rk wk s.
Proof.
  intros Hinv Hst. destruct t; cbn in Hst.
  - destruct (copy_inv_reader _ _ _ _ Hinv Hst) as [rk' H]. eauto.
  - destruct (copy_inv_writer _ _ _ _ Hinv Hst) as [wk' H]. eauto.
Qed.

Lemma fuel_left_nonneg (rk wk : Z) (s : state) :
  copy_inv bs n L data rk wk s -> 0 <= fuel_left L rk wk s.
Proof.
  intros Hinv. unfold fuel_left.
  destruct (ci_rk _ _ _ _ _ _ _ Hinv) as [H1 H2].
  destruct (ci_wk _ _ _ _ _ _ _ Hinv) as [H3 H4].
  pose proof (round_le rk H1 H2). pose proof (round_le wk H3 H4).
  assert (0 <= r_rank (rpc (rd s))) by (destruct (rpc (rd s)); cbn; lia).
  assert (0 <= w_rank (wpc (wr s))) by (destruct (wpc (wr s)); cbn; lia).
  lia.
Qed.

(** Every run from a state that satisfies the invariant ends in such a
    state, and is no longer than the fuel the first state has left. *)
Lemma copy_inv_exec (sched : list tid) (rk wk : Z) (s s' : state) :
  copy_inv bs n L data rk wk s -> exec bs n sched s = Some s' ->
  exists rk' wk', copy_inv bs n L data rk' wk' s'
                  /\ fuel_left L rk' wk' s' + Z.of_nat (length sched)
                     <= fuel_left L rk wk s.
Proof.
  revert rk wk s. induction sched as [|t r IH]; intros rk wk s Hinv Hex.
  - cbn in Hex. injection Hex as <-. exists rk, wk. split; auto. cbn. lia.
  - cbn [exec] in Hex. destruct (step_thread bs n t s) as [s1|] eqn:Hst; [|discriminate].
    destruct (copy_inv_step _ _ _ _ _ Hinv Hst) as (rk1 & wk1 & Hinv1 & Hlt).
    destruct (IH _ _ _ Hinv1 Hex) as (rk2 & wk2 & Hinv2 & Hle).
    exists rk2, wk2. split; auto. cbn [length]. lia.
Qed.

Ltac go_reader :=
  exists Reader; cbn;
  try (destruct (sys_read _ _ _ _) as [[? ?] ?]);
  try (replace (n =? 0) with false by (symmetry; apply Z.eqb_neq; lia));
  eexists; reflexivity.

Ltac go_writer :=
  exists Writer; cbn;
  try (destruct (sys_write _ _ _ _) as [? ?]);
  try (replace (n =? 0) with false by (symmetry; apply Z.eqb_neq; lia));
  eexists; reflexivity.

(** No deadlock: while a thread is still running, some thread can move. *)
Lemma copy_inv_progress (rk wk : Z) (s : state) :
  copy_inv bs n L data rk wk s -> terminated s = false ->
  exists t s', step_thread bs n t s = Some s'.
Proof.
  intros Hinv.
  destruct Hinv as
    [Hctl Hrk Hwk _ _ _ _ Hnum _ _ _ _ Hrd _ Hwd _ _ _ _ _ _ _ _ _ _ _ _ _ _].
  destruct Hctl as [Hb _ _ _ _ _ _ Hown _ Hrw _ Hww].
  destruct s as [t m [rl ri rr] [wl wi wr0] lg].
  unfold terminated, step_thread, step_reader, step_writer, acquire in *.
  cbn [td mutex rd wr log rpc ridx rret wpc widx wret] in *.
  intros Hterm.
  destruct rl; try go_reader.
  all: destruct m as [[|]|]; try discriminate; try go_reader.
  all: destruct wl; try discriminate; try go_writer.
  all: exfalso; cbn in Hnum;
    try (destruct (Hrw eq_refl) as [Hf|Hf]; [|discriminate]);
    try (destruct (Hww eq_refl) as [He|He]; [|discriminate]);
    try specialize (Hrd eq_refl); try specialize (Hwd eq_refl).
  - lia.
  - pose proof (mul_bs_le wk (rk - 1) ltac:(lia)). lia.
  - pose proof (mul_bs_le rk (wk - 1) ltac:(lia)). lia.
Qed.

(** The number of rounds the reader makes before it meets the end. *)
Lemma round_count (k : Z) :
  0 <= k -> (k - 1) * bs < L -> L <= k * bs -> k = (L + bs - 1) / bs.
Proof.
  intros Hk Hlt Hle. apply Z.div_unique with (r := L + bs - 1 - k * bs); lia.
Qed.

(** What a terminated run leaves behind. *)
Lemma copy_inv_final (rk wk : Z) (s : state) :
  copy_inv bs n L data rk wk s -> terminated s = true ->
  out_pos (file_out (td s)) = L
  /\ (forall a, 0 <= a < L -> out_data (file_out (td s)) a = data a)
  /\ published (log s) = slots bs n L ((L + bs - 1) / bs + 1)
  /\ consumed (log s) = slots bs n L ((L + bs - 1) / bs + 1)
  /\ read (td s) = wrap64 L
  /\ forallb quiet_event (log s) = true
  /\ written (log s)
     = map (fun p => (fst p, size (snd p)))
           (slots bs n L ((L + bs - 1) / bs + 1)).
Proof.
  intros Hinv Hterm. unfold terminated in Hterm.
  destruct (rpc (rd s)) eqn:Er; try discriminate.
  destruct (wpc (wr s)) eqn:Ew; try discriminate.
  pose proof (ci_rdone _ _ _ _ _ _ _ Hinv Er) as Hrd.
  pose proof (ci_wdone _ _ _ _ _ _ _ Hinv Ew) as Hwd.
  destruct (ci_rk _ _ _ _ _ _ _ Hinv) as [Hr0 Hr1].
  destruct (ci_wk _ _ _ _ _ _ _ Hinv) as [Hw0 Hw1].
  pose proof (round_count rk Hr0 Hr1 Hrd) as Hrc.
  pose proof (round_count wk Hw0 Hw1 Hwd) as Hwc.
  pose proof (ci_opos _ _ _ _ _ _ _ Hinv) as Hop.
  pose proof (ci_out _ _ _ _ _ _ _ Hinv) as Hout.
  pose proof (ci_pub _ _ _ _ _ _ _ Hinv) as Hpub.
  pose proof (ci_cons _ _ _ _ _ _ _ Hinv) as Hcons.
  pose proof (ci_read _ _ _ _ _ _ _ Hinv) as Hread.
  pose proof (ci_written _ _ _ _ _ _ _ Hinv) as Hwrt.
  rewrite Er in Hpub. rewrite Ew in Hop, Hcons, Hwrt. cbn [r_pub w_wr w_cons] in *.
  assert (Hpos : out_pos (file_out (td s)) = L) by (rewrite Hop; unfold fpos; lia).
  repeat split.
  - exact Hpos.
  - intros a Ha. apply Hout. lia.
  - now rewrite Hpub, Hrc.
  - now rewrite Hcons, Hwc.
  - rewrite Hread. f_equal. unfold fpos. lia.
  - exact (ci_quiet _ _ _ _ _ _ _ Hinv).
  - now rewrite Hwrt, Hwc.
Qed.

End CopyProofs.


(** ** The end marker *)

Lemma end_only_last_snoc (l : list (Z * block)) (p : Z * block) :
  forallb nonend l = true -> end_only_last (l ++ [p]) = true.
Proof.
  induction l as [|q r IH]; [reflexivity|].
  cbn [forallb]. intros H. apply andb_true_iff in H as [Hq Hr].
  change ((q :: r) ++ [p]) with (q :: (r ++ [p])). cbn [end_only_last].
  destruct (r ++ [p]) eqn:E.
  - reflexivity.
  - rewrite Hq. cbn [andb]. auto.
Qed.

Lemma end_only_last_all (l : list (Z * block)) :
  forallb nonend l = true -> end_only_last l = true.
Proof.
  induction l as [|q r IH]; cbn [forallb end_only_last]; auto.
  intros H. apply andb_true_iff in H as [Hq Hr].
  destruct r; auto. rewrite Hq. cbn [andb]. auto.
Qed.

Lemma forallb_nonend_snoc (l : list (Z * block)) (i : Z) (b : block) :
  forallb nonend l = true -> end_ b = false ->
  forallb nonend (l ++ [(i, b)]) = true.
Proof.
  intros Hl Hb. rewrite forallb_app, Hl. cbn. unfold nonend. cbn. now rewrite Hb.
Qed.

Section EndMarker.

Variables block_size num_block : Z.
Hypothesis num_block_range : 1 <= num_block < 2 ^ 32.

Lemma next_block_idx_range (i : Z) : 0 <= next_block_idx num_block i < num_block.
Proof. unfold next_block_idx. apply Z.mod_pos_bound. lia. Qed.

Lemma end_inv_init (fin : in_file) (fout : out_file) (m : mem) :
  end_inv num_block (init_state num_block fin fout m).
Proof.
  constructor; cbn -[Z.to_nat]; auto.
  - rewrite repeat_length. lia.
  - lia.
  - intros j _ _. fold (block_at (repeat default_block (Z.to_nat num_block)) j).
    now rewrite block_at_repeat.
  - intros _. fold (block_at (repeat default_block (Z.to_nat num_block)) 0).
    now rewrite block_at_repeat.
Qed.


Ltac ei_easy :=
  first [ assumption | reflexivity | lia | discriminate
        | intros; first [ assumption | discriminate | lia | solve [auto] ] ].

Lemma end_inv_reader (s s' : state) :
  end_inv num_block s -> step_reader block_size num_block s = Some s' ->
  end_inv num_block s'.
Proof.
  intros [Hlen Hidx Hoth Hcl Hpub Hcons].
  destruct s as [t m [rl ri rr] [wl wi wr0] lg]. unfold step_reader.
  st_cbn. cbn [r_clean] in *.
  destruct rl; intros Hstep; try discriminate.
  all: try (destruct (acquire Reader _) eqn:Ha; [|discriminate];
            destruct (acquire_some _ _ _ Ha) as [Hm ->]).
  all: try (destruct (sys_read _ _ _ _) as [[n1 m1] f1]).
  all: st_cbn.
  all: try (injection Hstep as <-; constructor; st_cbn; cbn [r_clean]; ei_easy; fail).
  - (* R_check *)
    injection Hstep as <-.
    destruct (num_block <=? numToWrite t); constructor; st_cbn; ei_easy.
  - (* R_read *)
    injection Hstep as <-.
    destruct (to_int n1 =? -1); [|destruct (to_int n1 =? 0)];
      constructor; st_cbn; ei_easy.
  - (* R_err_end *)
    injection Hstep as <-. constructor; st_cbn; cbn [r_clean]; try ei_easy.
    + now rewrite length_set_end.
    + intros j Hj Hne. rewrite block_at_set_end by lia.
      replace (j =? ri) with false by (symmetry; apply Z.eqb_neq; lia). auto.
  - (* R_err_size *)
    injection Hstep as <-. constructor; st_cbn; cbn [r_clean]; try ei_easy.
    + now rewrite length_set_size.
    + intros j Hj Hne. rewrite end_set_size. auto.
    + now apply end_only_last_all.
  - (* R_case0 *)
    injection Hstep as <-. constructor; st_cbn; cbn [r_clean]; try ei_easy.
    + now rewrite length_set_end.
    + intros j Hj Hne. rewrite block_at_set_end by lia.
      replace (j =? ri) with false by (symmetry; apply Z.eqb_neq; lia). auto.
  - (* R_default *)
    injection Hstep as <-. constructor; st_cbn; cbn [r_clean]; try ei_easy.
    + now rewrite length_set_size.
    + intros j Hj Hne. rewrite end_set_size. auto.
  - (* R_incr *)
    injection Hstep as <-. constructor; st_cbn; cbn [r_clean]; try ei_easy.
    eexists; split; [reflexivity | assumption].
  - (* R_signal *)
    injection Hstep as <-. unfold wake_writer. st_cbn.
    destruct wl; constructor; st_cbn; cbn [r_clean]; ei_easy.
  - (* R_chkend *)
    injection Hstep as <-. destruct Hpub as (older & Hp & Hold).
    destruct (end_ (block_at (blocks t) ri)) eqn:E;
      constructor; st_cbn; cbn [r_clean]; try ei_easy.
    + rewrite Hp. now apply end_only_last_snoc.
    + rewrite Hp. now apply forallb_nonend_snoc.
  - (* R_acc *)
    replace (num_block =? 0) with false in Hstep by (symmetry; apply Z.eqb_neq; lia).
    injection Hstep as <-. specialize (Hcl eq_refl).
    constructor; st_cbn; cbn [r_clean]; try ei_easy.
    + apply next_block_idx_range.
    + intros j Hj Hne. destruct (Z.eq_dec j ri) as [->|]; auto.
    + intros _. destruct (Z.eq_dec (next_block_idx num_block ri) ri) as [->|]; auto.
      apply Hoth; auto. apply next_block_idx_range.
Qed.

Lemma end_inv_writer (s s' : state) :
  end_inv num_block s -> step_writer block_size num_block s = Some s' ->
  end_inv num_block s'.
Proof.
  intros [Hlen Hidx Hoth Hcl Hpub Hcons].
  destruct s as [t m [rl ri rr] [wl wi wr0] lg]. unfold step_writer.
  st_cbn. cbn [r_clean] in *.
  destruct wl; intros Hstep; try discriminate.
  all: try (destruct (acquire Writer _) eqn:Ha; [|discriminate];
            destruct (acquire_some _ _ _ Ha) as [Hm ->]).
  all: try (destruct (sys_write _ _ _ _) as [n1 f1]).
  all: st_cbn.
  all: try (injection Hstep as <-; constructor; st_cbn; cbn [r_clean]; ei_easy; fail).
  - (* W_check *)
    injection Hstep as <-.
    destruct (numToWrite t <? 1); constructor; st_cbn; ei_easy.
  - (* W_write *)
    injection Hstep as <-.
    destruct (to_int n1 =? -1); constructor; st_cbn; ei_easy.
  - (* W_chkshort *)
    injection Hstep as <-.
    destruct (wrap64 wr0 =? size (block_at (blocks t) wi));
      constructor; st_cbn; ei_easy.
  - (* W_chkend *)
    injection Hstep as <-.
    destruct (end_ (block_at (blocks t) wi)) eqn:E;
      constructor; st_cbn; try ei_easy.
    + now apply end_only_last_snoc.
    + now apply forallb_nonend_snoc.
  - (* W_signal *)
    injection Hstep as <-. unfold wake_reader. st_cbn.
    destruct rl; constructor; st_cbn; cbn [r_clean]; ei_easy.
  - (* W_acc *)
    replace (num_block =? 0) with false in Hstep by (symmetry; apply Z.eqb_neq; lia).
    injection Hstep as <-. constructor; st_cbn; ei_easy.
Qed.

Lemma end_inv_reachable (s0 s : state) :
  end_inv num_block s0 -> reachable block_size num_block s0 s ->
  end_inv num_block s.
Proof.
  intros H0. apply reachable_inv; auto.
  - apply end_inv_reader.
  - apply end_inv_writer.
  - intros s1 [Hlen Hidx Hoth Hcl Hpub Hcons] E. rewrite E in *.
    constructor; st_cbn; cbn [r_clean] in *; auto.
  - intros s1 [Hlen Hidx Hoth Hcl Hpub Hcons] E. rewrite E in *.
    constructor; st_cbn; auto.
Qed.

End EndMarker.


(** ** What a step of one thread leaves untouched *)

Section Frames.

Variables block_size num_block : Z.

Lemma writer_frame (s s' : state) :
  step_writer block_size num_block s = Some s' ->
  blocks (td s') = blocks (td s)
  /\ file_in (td s') = file_in (td s)
  /\ ridx (rd s') = ridx (rd s)
  /\ (rpc (rd s') = rpc (rd s)
      \/ (rpc (rd s) = R_waiting /\ rpc (rd s') = R_woken))
  /\ exists evs, log s' = evs ++ log s /\ forallb reader_silent evs = true.
Proof.
  destruct s as [t m [rl ri rr] [wl wi wr0] lg]. unfold step_writer.
  st_cbn.
  destruct wl; intros Hstep; try discriminate.
  all: try (destruct (acquire Writer _) eqn:Ha; [|discriminate];
            destruct (acquire_some _ _ _ Ha) as [Hm ->]).
  all: try (destruct (sys_write _ _ _ _) as [n1 f1]).
  all: try (destruct (num_block =? 0); [discriminate|]).
  all: st_cbn; unfold wake_reader in *; st_cbn.
  all: split_ifs; injection Hstep as <-; st_cbn.
  all: try (destruct rl; st_cbn).
  all: repeat split; auto.
  all: try (exists []; split; reflexivity).
  all: try (eexists [_]; split; reflexivity).
  all: try (eexists [_; _]; split; reflexivity).
  all: try (right; split; reflexivity).
Qed.


(** *** A failed read *)

Lemma fail_path_reader (s0 s s' : state) :
  0 <= ridx (rd s0) < Z.of_nat (length (blocks (td s0))) ->
  fail_path s0 s -> step_reader block_size num_block s = Some s' ->
  fail_path s0 s'.
Proof.
  intros Hi0 [Hpc Hidx Hlen Hrd Hend Hsz (evs & Hlog & Hsil & Herr)].
  destruct s as [t m [rl ri rr] [wl wi wr0] lg]. unfold step_reader.
  st_cbn. cbn [r_failing] in *. subst ri.
  destruct rl; try discriminate; intros Hstep.
  - (* R_read *)
    unfold sys_read in Hstep. rewrite (Hrd eq_refl) in Hstep.
    cbn in Hstep. injection Hstep as <-.
    constructor; st_cbn; cbn [r_failing]; auto; try discriminate.
    + intros [?|?]; discriminate.
    + exists evs. auto.
  - (* R_perror *)
    injection Hstep as <-.
    constructor; st_cbn; cbn [r_failing]; auto; try discriminate.
    + intros [?|?]; discriminate.
    + exists (EvReadError :: evs). rewrite Hlog. cbn. intuition.
  - (* R_err_end *)
    injection Hstep as <-.
    constructor; st_cbn; cbn [r_failing]; auto; try discriminate.
    + now rewrite length_set_end.
    + intros _. rewrite block_at_set_end by lia. now rewrite Z.eqb_refl.
    + exists evs. destruct Herr as [?|[?|?]]; try discriminate. auto.
  - (* R_err_size *)
    injection Hstep as <-.
    constructor; st_cbn; cbn [r_failing]; auto; try discriminate.
    + now rewrite length_set_size.
    + intros _. rewrite end_set_size. auto.
    + intros _. rewrite block_at_set_size by lia. now rewrite Z.eqb_refl.
    + exists evs. destruct Herr as [?|[?|?]]; try discriminate. auto.
Qed.

Lemma fail_path_writer (s0 s s' : state) :
  fail_path s0 s -> step_writer block_size num_block s = Some s' ->
  fail_path s0 s'.
Proof.
  intros [Hpc Hidx Hlen Hrd Hend Hsz (evs & Hlog & Hsil & Herr)] Hstep.
  destruct (writer_frame _ _ Hstep) as (Hb & Hf & Hi & Hp & evs' & Hl & Hs).
  assert (Hpc' : rpc (rd s') = rpc (rd s)).
  { destruct Hp as [?|[Hw _]]; auto. rewrite Hw in Hpc. discriminate. }
  constructor; rewrite ?Hb, ?Hf, ?Hi, ?Hpc'; auto.
  exists (evs' ++ evs). rewrite Hl, Hlog, app_assoc, forallb_app, Hs, Hsil.
  repeat split; auto. rewrite in_app_iff. tauto.
Qed.

Lemma fail_path_reachable (s0 s : state) :
  0 <= ridx (rd s0) < Z.of_nat (length (blocks (td s0))) ->
  rpc (rd s0) = R_read -> in_fails (file_in (td s0)) = true ->
  reachable block_size num_block s0 s -> fail_path s0 s.
Proof.
  intros Hi Hpc Hf. apply reachable_inv.
  - constructor; rewrite ?Hpc; auto; try discriminate.
    + intros [?|?]; discriminate.
    + exists []. auto.
  - intros s1 s2 H1 H2. eapply fail_path_reader; eauto.
  - intros s1 s2 H1 H2. eapply fail_path_writer; eauto.
  - intros s1 [Hp _ _ _ _ _ _] E. rewrite E in Hp. discriminate.
  - intros s1 [Hp Hidx Hlen Hrd Hend Hsz Hlog] E.
    constructor; st_cbn; auto.
Qed.

(** *** A consumed slot *)






End Frames.


(** ** Runs and reachable states *)

Lemma exec_reachable (bs n : Z) (sched : list tid) (s0 s : state) :
  exec bs n sched s0 = Some s -> reachable bs n s0 s.
Proof.
  intros H. assert (G : forall s1, reachable bs n s0 s1 ->
                                   exec bs n sched s1 = Some s -> reachable bs n s0 s).
  { clear H. induction sched as [|t r IH]; intros s1 Hr He.
    - cbn in He. injection He as <-. exact Hr.
    - cbn in He. destruct (step_thread bs n t s1) as [s2|] eqn:Hst; [|discriminate].
      apply (IH s2); auto. eapply reach_step; eauto. now exists (Run t). }
  apply (G s0); auto. constructor.
Qed.


Lemma is_run_moves_exec (bs n : Z) (ms : list move) (s : state) :
  is_run_moves bs n ms s = true ->
  exec_moves bs n ms s = Some (run_moves bs n ms s).
Proof.
  unfold is_run_moves, run_moves.
  destruct (exec_moves bs n ms s); [reflexivity|discriminate].
Qed.


Lemma exec_app (bs n : Z) (l1 l2 : list tid) (s s1 s2 : state) :
  exec bs n l1 s = Some s1 -> exec bs n l2 s1 = Some s2 ->
  exec bs n (l1 ++ l2) s = Some s2.
Proof.
  revert s. induction l1 as [|t r IH]; intros s H1 H2.
  - cbn in H1. injection H1 as <-. exact H2.
  - cbn in *. destruct (step_thread bs n t s); [|discriminate]. eauto.
Qed.

Lemma exec_moves_app (bs n : Z) (l1 l2 : list move) (s s1 s2 : state) :
  exec_moves bs n l1 s = Some s1 -> exec_moves bs n l2 s1 = Some s2 ->
  exec_moves bs n (l1 ++ l2) s = Some s2.
Proof.
  revert s. induction l1 as [|t r IH]; intros s H1 H2.
  - cbn in H1. injection H1 as <-. exact H2.
  - cbn [exec_moves app] in *. destruct (step_move bs n t s); [|discriminate]. eauto.
Qed.

(** The reachable states are the states that runs of moves lead to. *)
Lemma reachable_exec_moves (bs n : Z) (s0 s : state) :
  reachable bs n s0 s -> exists ms, exec_moves bs n ms s0 = Some s.
Proof.
  induction 1 as [|s s' _ [ms IH] [mv Hst]].
  - now exists [].
  - exists (ms ++ [mv]). eapply exec_moves_app; eauto. cbn. now rewrite Hst.
Qed.

Lemma is_run_exec (bs n : Z) (sched : list tid) (s : state) :
  is_run bs n sched s = true -> exec bs n sched s = Some (run bs n sched s).
Proof.
  unfold is_run, run. destruct (exec bs n sched s); [reflexivity|discriminate].
Qed.

Lemma run_reachable (bs n : Z) (sched : list tid) (s : state) :
  reachable bs n s (run bs n sched s).
Proof.
  unfold run. destruct (exec bs n sched s) eqn:E.
  - eapply exec_reachable; eauto.
  - constructor.
Qed.

(** A schedule of thread steps, seen as a run of moves. *)
Lemma is_run_runs (bs n : Z) (sched : list tid) (s : state) :
  is_run bs n sched s = true ->
  exec_moves bs n (runs sched) s = Some (run bs n sched s).
Proof.
  intros H. rewrite exec_moves_runs. now apply is_run_exec.
Qed.


(** ** The copy without errors *)

Lemma fits_small (bs n L : Z) :
  1 <= bs <= RW_MAX -> (n - 1) * bs < 2 ^ 32 -> fits bs n L.
Proof.
  intros Hbs Hn. split; [lia|].
  intros i Hi _.
  assert (i * bs <= (n - 1) * bs) by (apply Z.mul_le_mono_nonneg_r; lia). lia.
Qed.

Lemma fits_empty (bs n : Z) : 1 <= bs -> fits bs n 0.
Proof.
  intros Hbs. split; [unfold RW_MAX; lia|].
  intros i Hi Hlt. assert (i = 0) by nia. subst. lia.
Qed.

(** Without read or write errors and without spurious returns, in a
    configuration that [fits], every run is finite, is never deadlocked, and
    ends with the destination equal to the source, the expected slots
    published and consumed, [td->read] equal to the length, no error
    message, and exit status 0 unless the source is empty. *)
Theorem copy_faithful (bs n : Z) (fin : in_file) (fout : out_file) (m : mem)
    (sched : list tid) (s : state) :
  1 <= bs < 2 ^ 32 -> 1 <= n < 2 ^ 32 -> 0 <= in_len fin ->
  in_bad fin = None -> out_cap fout = None -> out_pos fout = 0 ->
  fits bs n (in_len fin) ->
  exec bs n sched (init_state n fin fout m) = Some s ->
  Z.of_nat (length sched) <= 40 * in_len fin + 76
  /\ (terminated s = false -> exists t s', step_thread bs n t s = Some s')
  /\ (terminated s = true ->
      out_pos (file_out (td s)) = in_len fin
      /\ (forall a, 0 <= a < in_len fin ->
                    out_data (file_out (td s)) a = in_data fin a)
      /\ published (log s)
         = slots bs n (in_len fin) ((in_len fin + bs - 1) / bs + 1)
      /\ consumed (log s)
         = slots bs n (in_len fin) ((in_len fin + bs - 1) / bs + 1)
      /\ written (log s)
         = map (fun p => (fst p, size (snd p)))
               (slots bs n (in_len fin) ((in_len fin + bs - 1) / bs + 1))
      /\ read (td s) = wrap64 (in_len fin)
      /\ forallb quiet_event (log s) = true
      /\ main_exit s = if in_len fin =? 0 then None else Some 0).
Proof.
  intros Hbs Hn HL Hbad Hcap Hpos [Hcall Hidx] Hex.
  assert (Hint : Z.min bs (in_len fin) < 2 ^ 31) by (unfold RW_MAX in Hcall; lia).
  assert (H0 : copy_inv bs n (in_len fin) (in_data fin) 0 0 (init_state n fin fout m))
    by (apply copy_inv_init; auto).
  pose proof (copy_inv_exec bs n (in_len fin) (in_data fin)) as Hx. feed Hx.
  destruct (Hx sched 0 0 _ _ H0 Hex) as (rk & wk & Hinv & Hfuel).
  pose proof (fuel_left_nonneg bs n (in_len fin) (in_data fin)) as Hge. feed Hge.
  specialize (Hge _ _ _ Hinv).
  pose proof (copy_inv_progress bs n (in_len fin) (in_data fin)) as Hpr. feed Hpr.
  pose proof (copy_inv_final bs n (in_len fin) (in_data fin)) as Hfi. feed Hfi.
  split; [|split].
  - unfold fuel_left in Hfuel at 2. cbn in Hfuel. lia.
  - apply (Hpr _ _ _ Hinv).
  - intros Hterm.
    destruct (Hfi _ _ _ Hinv Hterm) as (A & B & C & D & E & F & G).
    repeat split; auto. unfold main_exit, statusWriter.
    rewrite (ci_fsize _ _ _ _ _ _ _ Hinv), Hterm.
    now destruct (in_len fin =? 0).
Qed.


(** ** Runs in which a read fails *)

Section Hang.

Variables bs n N : Z.
Hypothesis Hbs : 1 <= bs < 2 ^ 32.
Hypothesis Hn : 1 <= n < 2 ^ 32.

Ltac hi_cbn :=
  st_cbn; cbn [r_pub_err r_fed r_reported] in *; rewrite ?Z.add_0_r in *.

Ltac hi_easy :=
  first [ assumption | discriminate | reflexivity | lia
        | intros; first [ assumption | discriminate | congruence | lia ]
        | intros; right; assumption
        | intros; left; reflexivity
        | intros; right; solve [auto]
        | intros; cbn [In]; solve [intuition]
        | intros j Hj Hej;
          match goal with
          | H : forall j, _ -> end_ _ = true -> _ |- _ =>
              destruct (H j Hj Hej) as [? [?|?]]; first [ discriminate | congruence ]
          end ].

Ltac hi_step k :=
  exists k; hi_cbn; (split; [constructor|]); hi_cbn; try hi_easy.

Lemma to_int_nonzero (k : Z) : 1 <= k < 2 ^ 32 -> to_int k <> 0.
Proof.
  intros Hk. unfold to_int.
  destruct (Z_lt_ge_dec k (2 ^ 31)).
  - rewrite Z.mod_small by lia. lia.
  - replace (k + 2 ^ 31) with (k - 2 ^ 31 + 1 * 2 ^ 32) by lia.
    rewrite Z_mod_plus_full, Z.mod_small by lia. lia.
Qed.

Lemma hang_inv_reader (rk wk : Z) (s s' : state) :
  hang_inv n N rk wk s -> step_reader bs n s = Some s' ->
  exists rk', hang_inv n N rk' wk s'
              /\ fuel_err N rk' wk s' < fuel_err N rk wk s.
Proof.
  intros Hinv Hstep.
  assert (Hn' : 0 <= n < 2 ^ 32) by lia.
  pose proof (ctl_inv_reader bs n Hn' _ _ (hi_ctl _ _ _ _ _ Hinv) Hstep) as Hctl'.
  revert Hctl'. destruct Hinv as
    [Hctl Hrk Hwk Hri Hwi Hlen Hnum Hbad Hins Hpos Hfed Hnc Hflag Hrd Hwr Herr].
  destruct Hctl as [Hb Hrm Hwm Hrg Hwg Hws Hrs Hown Hrf Hrw Hwe Hww].
  revert Hstep.
  destruct s as [t m [rl ri rr] [wl wi wr0] lg]. unfold step_reader, fuel_err.
  hi_cbn.
  pose proof (Z.mod_pos_bound rk n ltac:(lia)) as Hring.
  destruct rl; intros Hstep Hctl'; try discriminate; try congruence.
  all: try (destruct (acquire Reader _) eqn:Ha; [|discriminate];
            destruct (acquire_some _ _ _ Ha) as [Hm ->]).
  all: hi_cbn.
  - (* R_lock *) injection Hstep as <-. hi_step rk.
  - (* R_check *)
    injection Hstep as <-. destruct (n <=? numToWrite t); hi_step rk.
  - (* R_waitinc *) injection Hstep as <-. hi_step rk.
  - (* R_wait *) injection Hstep as <-. hi_step rk.
  - (* R_woken *) injection Hstep as <-. hi_step rk.
  - (* R_unlock *) injection Hstep as <-. hi_step rk.
  - (* R_read *)
    destruct (file_in t) as [fl fd fb fp] eqn:Ef. cbn in Hbad, Hins, Hpos. subst fb.
    unfold sys_read, in_fails, in_limit in Hstep. cbn in Hstep.
    destruct (Z.leb_spec N fp) as [Hge|Hlt].
    + (* the medium fails *)
      cbn in Hstep. injection Hstep as <-. hi_step rk; rewrite ?Ef; cbn; hi_easy.
    + (* data arrives *)
      set (k := Z.max 0 (Z.min (Z.min bs RW_MAX) (Z.min N fl - fp))) in *.
      assert (Hk : 1 <= k < 2 ^ 32) by (unfold k, RW_MAX; lia).
      assert (Hk' : fp + k <= N) by (unfold k; lia).
      pose proof (to_int_nonzero k Hk) as Hnz.
      destruct (to_int k =? -1) eqn:E1;
        [|replace (to_int k =? 0) with false in Hstep
            by (symmetry; apply Z.eqb_neq; exact Hnz)];
        injection Hstep as <-; hi_step rk.
      all: rewrite ?Ef; cbn; hi_easy.
  - (* R_perror *) injection Hstep as <-. hi_step rk.
  - (* R_err_end *)
    injection Hstep as <-. specialize (Hrg eq_refl). hi_step rk.
    + now rewrite length_set_end.
    + intros j Hj. rewrite block_at_set_end by lia.
      destruct (Z.eqb_spec j ri) as [->|Hne]; [auto|].
      intros Hej. destruct (Hflag j Hj Hej) as [? [?|?]]; discriminate.
  - (* R_err_size *)
    injection Hstep as <-. specialize (Hrg eq_refl). hi_step rk.
    + now rewrite length_set_size.
    + intros j Hj. rewrite end_set_size. intros Hej.
      destruct (Hflag j Hj Hej) as [? _]. auto.
  - (* R_default *)
    injection Hstep as <-. hi_step rk.
    + now rewrite length_set_size.
    + intros j Hj. rewrite end_set_size. intros Hej.
      destruct (Hflag j Hj Hej) as [? [?|?]]; discriminate.
  - (* R_lock2 *) injection Hstep as <-. hi_step rk.
  - (* R_incr *)
    injection Hstep as <-. specialize (Hrg eq_refl).
    rewrite wrap32_small in * by lia. hi_step rk.
  - (* R_signal *)
    injection Hstep as <-. unfold wake_writer in *. hi_cbn.
    destruct wl; hi_step rk.
  - (* R_unlock2 *) injection Hstep as <-. hi_step rk.
  - (* R_chkend *)
    assert (He : end_ (block_at (blocks t) ri) = false).
    { destruct (end_ (block_at (blocks t) ri)) eqn:E; auto.
      destruct (Hflag ri ltac:(lia) E) as [_ [?|?]]; discriminate. }
    rewrite He in *. injection Hstep as <-. hi_step rk.
  - (* R_acc *)
    replace (n =? 0) with false in * by (symmetry; apply Z.eqb_neq; lia).
    injection Hstep as <-. specialize (Hfed eq_refl).
    hi_step (rk + 1).
    subst ri. unfold next_block_idx. rewrite wrap32_small by lia.
    now rewrite Zplus_mod_idemp_l.
Qed.

Lemma hang_inv_writer (rk wk : Z) (s s' : state) :
  hang_inv n N rk wk s -> step_writer bs n s = Some s' ->
  exists wk', hang_inv n N rk wk' s'
              /\ fuel_err N rk wk' s' < fuel_err N rk wk s.
Proof.
  intros Hinv Hstep.
  assert (Hn' : 0 <= n < 2 ^ 32) by lia.
  pose proof (ctl_inv_writer bs n Hn' _ _ (hi_ctl _ _ _ _ _ Hinv) Hstep) as Hctl'.
  revert Hctl'. destruct Hinv as
    [Hctl Hrk Hwk Hri Hwi Hlen Hnum Hbad Hins Hpos Hfed Hnc Hflag Hrd Hwr Herr].
  destruct Hctl as [Hb Hrm Hwm Hrg Hwg Hws Hrs Hown Hrf Hrw Hwe Hww].
  revert Hstep.
  destruct s as [t m [rl ri rr] [wl wi wr0] lg]. unfold step_writer, fuel_err.
  hi_cbn.
  pose proof (Z.mod_pos_bound wk n ltac:(lia)) as Hring.
  destruct wl; intros Hstep Hctl'; try discriminate; try congruence.
  all: try (destruct (acquire Writer _) eqn:Ha; [|discriminate];
            destruct (acquire_some _ _ _ Ha) as [Hm ->]).
  all: try (destruct (sys_write _ _ _ _) as [n1 f1]).
  all: hi_cbn.
  - (* W_lock *) injection Hstep as <-. hi_step wk.
  - (* W_check *)
    injection Hstep as <-. destruct (numToWrite t <? 1); hi_step wk.
  - (* W_waitinc *) injection Hstep as <-. hi_step wk.
  - (* W_wait *) injection Hstep as <-. hi_step wk.
  - (* W_woken *) injection Hstep as <-. hi_step wk.
  - (* W_unlock *) injection Hstep as <-. hi_step wk.
  - (* W_write *)
    injection Hstep as <-. destruct (to_int n1 =? -1); hi_step wk.
  - (* W_chkshort *)
    injection Hstep as <-.
    destruct (wrap64 wr0 =? size (block_at (blocks t) wi)); hi_step wk.
  - (* W_chkend *)
    specialize (Hwg eq_refl).
    assert (He : end_ (block_at (blocks t) wi) = false).
    { destruct (end_ (block_at (blocks t) wi)) eqn:E; auto. exfalso.
      destruct (Hflag wi ltac:(lia) E) as [Hsame Hpc].
      assert (Hlt : numToWrite t < n)
        by (destruct Hpc as [Hpc|Hpc]; rewrite Hpc in *; auto).
      assert (Hp0 : r_pub_err rl = 0) by (destruct Hpc as [->| ->]; reflexivity).
      rewrite Hp0 in Hnum.
      apply (mod_window n wk rk); lia. }
    rewrite He in *. injection Hstep as <-. hi_step wk.
  - (* W_lock2 *) injection Hstep as <-. hi_step wk.
  - (* W_decr *)
    injection Hstep as <-. specialize (Hwg eq_refl).
    rewrite wrap32_small in * by lia. hi_step wk.
  - (* W_signal *)
    injection Hstep as <-. unfold wake_reader in *. hi_cbn.
    destruct rl; hi_step wk.
  - (* W_unlock2 *) injection Hstep as <-. hi_step wk.
  - (* W_acc *)
    replace (n =? 0) with false in * by (symmetry; apply Z.eqb_neq; lia).
    injection Hstep as <-. hi_step (wk + 1).
    subst wi. unfold next_block_idx. rewrite wrap32_small by lia.
    now rewrite Zplus_mod_idemp_l.
Qed.

Lemma hang_inv_init (fin : in_file) (fout : out_file) (m : mem) :
  in_bad fin = Some N -> 0 <= N <= in_len fin ->
  hang_inv n N 0 0 (init_state n fin fout m).
Proof.
  intros Hb HN.
  constructor; cbn -[Z.mul Z.add Z.sub Z.modulo Z.to_nat];
    rewrite ?Hb, ?Zmod_0_l;
    try first [ reflexivity | discriminate | lia | intros; discriminate ].
  - apply ctl_inv_init; lia.
  - rewrite repeat_length. lia.
  - intros j Hj.
    fold (block_at (repeat default_block (Z.to_nat n)) j).
    rewrite block_at_repeat. discriminate.
Qed.

Lemma hang_inv_exec (sched : list tid) (rk wk : Z) (s s' : state) :
  hang_inv n N rk wk s -> exec bs n sched s = Some s' ->
  exists rk' wk', hang_inv n N rk' wk' s'
                  /\ fuel_err N rk' wk' s' + Z.of_nat (length sched)
                     <= fuel_err N rk wk s.
Proof.
  revert rk wk s. induction sched as [|t r IH]; intros rk wk s Hinv Hex.
  - cbn in Hex. injection Hex as <-. exists rk, wk. split; auto. cbn. lia.
  - cbn [exec] in Hex.
    destruct (step_thread bs n t s) as [s1|] eqn:Hst; [|discriminate].
    assert (exists rk1 wk1, hang_inv n N rk1 wk1 s1
                            /\ fuel_err N rk1 wk1 s1 < fuel_err N rk wk s)
      as (rk1 & wk1 & Hinv1 & Hlt).
    { destruct t; cbn in Hst.
      - destruct (hang_inv_reader _ _ _ _ Hinv Hst) as (rk1 & H). eauto.
      - destruct (hang_inv_writer _ _ _ _ Hinv Hst) as (wk1 & H). eauto. }
    destruct (IH _ _ _ Hinv1 Hex) as (rk2 & wk2 & Hinv2 & Hle).
    exists rk2, wk2. split; auto. cbn [length]. lia.
Qed.

Lemma fuel_err_nonneg (rk wk : Z) (s : state) :
  hang_inv n N rk wk s -> 0 <= fuel_err N rk wk s.
Proof.
  intros Hinv. unfold fuel_err.
  pose proof (hi_pos _ _ _ _ _ Hinv). pose proof (hi_num _ _ _ _ _ Hinv) as Hnum.
  pose proof (ctl_bound _ _ (hi_ctl _ _ _ _ _ Hinv)).
  assert (0 <= r_rank (rpc (rd s))) by (destruct (rpc (rd s)); cbn; lia).
  assert (0 <= w_rank (wpc (wr s))) by (destruct (wpc (wr s)); cbn; lia).
  assert (r_pub_err (rpc (rd s)) <= 1) by (destruct (rpc (rd s)); cbn; lia).
  assert (0 <= w_rel (wpc (wr s))) by (destruct (wpc (wr s)); cbn; lia).
  lia.
Qed.

(** The only state of such a run in which nothing can move: the reader has
    exited and the writer waits for a signal. *)
Lemma hang_inv_stuck (rk wk : Z) (s : state) :
  hang_inv n N rk wk s -> stuck bs n s = true ->
  rpc (rd s) = R_done /\ wpc (wr s) = W_waiting.
Proof.
  intros Hinv.
  destruct Hinv as [Hctl _ _ _ _ _ _ _ _ _ _ _ _ _ Hwr _].
  destruct Hctl as [Hb _ _ _ _ _ _ Hown _ Hrw _ Hww].
  destruct s as [t m [rl ri rr] [wl wi wr0] lg].
  unfold stuck, step_reader, step_writer, acquire.
  cbn [td mutex rd wr log rpc ridx rret wpc widx wret] in *.
  replace (n =? 0) with false by (symmetry; apply Z.eqb_neq; lia).
  destruct rl; try (destruct (sys_read _ _ _ _) as [[? ?] ?]);
    try discriminate.
  all: destruct m as [[|]|]; try discriminate; cbn.
  all: destruct wl; try (destruct (sys_write _ _ _ _) as [? ?]);
    try discriminate; try congruence; cbn; try discriminate; auto.
  intros _. exfalso.
  destruct (Hrw eq_refl) as [?|?]; [|discriminate].
  destruct (Hww eq_refl) as [?|?]; [|discriminate]. lia.
Qed.

End Hang.


(** ** What the writer leaves alone in the destination *)

Section Frame.

Variables block_size num_block : Z.

Lemma sys_write_frame (f : out_file) (m : mem) (off c : Z) :
  out_cap (snd (sys_write f m off c)) = out_cap f
  /\ out_dev (snd (sys_write f m off c)) = out_dev f
  /\ out_pos f <= out_pos (snd (sys_write f m off c))
  /\ forall a, a < out_pos f \/ out_pos (snd (sys_write f m off c)) <= a ->
               out_data (snd (sys_write f m off c)) a = out_data f a.
Proof.
  unfold sys_write.
  match goal with |- context [if ?c then _ else _] => destruct c end;
    cbn [snd out_cap out_dev out_pos out_data].
  - repeat split; auto. lia.
  - repeat split; [lia|]. intros a Ha. unfold in_range.
    match goal with |- context [Z.max 0 ?x] => set (k := Z.max 0 x) in * end.
    assert (0 <= k) by (unfold k; lia).
    destruct (Z.leb_spec (out_pos f) a); destruct (Z.ltb_spec a (out_pos f + k));
      cbn [andb]; auto; lia.
Qed.

Lemma out_frame_writer (fout : out_file) (s s' : state) :
  out_frame fout s -> step_writer block_size num_block s = Some s' ->
  out_frame fout s'.
Proof.
  intros [Hcap Hpos Hdata].
  destruct s as [t m [rl ri rr] [wl wi wr0] lg]. unfold step_writer.
  st_cbn.
  destruct wl; intros Hstep; try discriminate.
  all: try (destruct (acquire Writer _) eqn:Ha; [|discriminate];
            destruct (acquire_some _ _ _ Ha) as [Hm ->]).
  all: try (pose proof (sys_write_frame (file_out t) (buf t)
                          (buf_idx block_size wi)
                          (size (block_at (blocks t) wi))) as Hw;
            destruct (sys_write _ _ _ _) as [n1 f1]; cbn [snd] in Hw).
  all: try (destruct (num_block =? 0); [discriminate|]).
  all: st_cbn; unfold wake_reader in *.
  all: split_ifs; injection Hstep as <-.
  all: try match goal with
           | |- context [match ?r with R_waiting => _ | _ => _ end] => destruct r
           end.
  all: constructor; st_cbn; auto.
  all: destruct Hw as (Hw1 & _ & Hw2 & Hw3); try congruence; try lia.
  all: intros a Ha; rewrite Hw3 by lia; apply Hdata; lia.
Qed.

Lemma out_frame_reader (fout : out_file) (s s' : state) :
  out_frame fout s -> step_reader block_size num_block s = Some s' ->
  out_frame fout s'.
Proof.
  intros [Hcap Hpos Hdata].
  destruct s as [t m [rl ri rr] [wl wi wr0] lg]. unfold step_reader.
  st_cbn.
  destruct rl; intros Hstep; try discriminate.
  all: try (destruct (acquire Reader _) eqn:Ha; [|discriminate];
            destruct (acquire_some _ _ _ Ha) as [Hm ->]).
  all: try (destruct (sys_read _ _ _ _) as [[n1 m1] f1]).
  all: try (destruct (num_block =? 0); [discriminate|]).
  all: st_cbn; unfold wake_writer in *.
  all: split_ifs; injection Hstep as <-.
  all: try match goal with
           | |- context [match ?w with W_waiting => _ | _ => _ end] => destruct w
           end.
  all: constructor; st_cbn; auto.
Qed.

Lemma out_frame_reachable (fout : out_file) (s0 s : state) :
  out_frame fout s0 -> reachable block_size num_block s0 s -> out_frame fout s.
Proof.
  intros H0. apply reachable_inv; auto.
  - intros s1 s2 H1 H2. eapply out_frame_reader; eauto.
  - intros s1 s2 H1 H2. eapply out_frame_writer; eauto.
  - intros s1 [Hcap Hpos Hdata] _. constructor; st_cbn; auto.
  - intros s1 [Hcap Hpos Hdata] _. constructor; st_cbn; auto.
Qed.

Lemma out_frame_init (n : Z) (fin : in_file) (fout : out_file) (m : mem) :
  out_frame fout (init_state n fin fout m).
Proof. constructor; cbn; auto. lia. Qed.

End Frame.

(** ** The source length seen by the status line *)

Lemma fsize_reader (bs n : Z) (s s' : state) :
  step_reader bs n s = Some s' -> fsize (td s') = fsize (td s).
Proof.
  destruct s as [t m [rl ri rr] [wl wi wr0] lg].
  unfold step_reader. st_cbn.
  destruct rl; intros Hstep; try discriminate.
  all: try (destruct (acquire Reader _) eqn:Ha; [|discriminate];
            destruct (acquire_some _ _ _ Ha) as [Hm ->]).
  all: try (destruct (sys_read _ _ _ _) as [[n1 m1] f1]).
  all: try (destruct (n =? 0); [discriminate|]).
  all: st_cbn; unfold wake_writer in *; st_cbn.
  all: split_ifs; injection Hstep as <-; st_cbn.
  all: try (destruct wl; st_cbn); reflexivity.
Qed.

Lemma fsize_writer (bs n : Z) (s s' : state) :
  step_writer bs n s = Some s' -> fsize (td s') = fsize (td s).
Proof.
  destruct s as [t m [rl ri rr] [wl wi wr0] lg].
  unfold step_writer. st_cbn.
  destruct wl; intros Hstep; try discriminate.
  all: try (destruct (acquire Writer _) eqn:Ha; [|discriminate];
            destruct (acquire_some _ _ _ Ha) as [Hm ->]).
  all: try (destruct (sys_write _ _ _ _) as [n1 f1]).
  all: try (destruct (n =? 0); [discriminate|]).
  all: st_cbn; unfold wake_reader in *; st_cbn.
  all: split_ifs; injection Hstep as <-; st_cbn.
  all: try (destruct rl; st_cbn); reflexivity.
Qed.

Lemma fsize_reachable (bs n : Z) (s0 s : state) :
  reachable bs n s0 s -> fsize (td s) = fsize (td s0).
Proof.
  apply (reachable_inv (fun s => fsize (td s) = fsize (td s0))); auto.
  - intros s1 s2 H1 H2. rewrite <- H1. now apply (fsize_reader bs n).
  - intros s1 s2 H1 H2. rewrite <- H1. now apply (fsize_writer bs n).
Qed.

(** * The claims *)

(** ** The counter of unconsumed slots *)




(** ** The status line *)

(** C10. The percentages of the status line are quotients by [td->fsize],
    which [main] sets to the source length and nobody changes: a round of
    [statusWriter] has a defined result exactly when the source length is
    not zero, and for the empty source the very first round, on the initial
    state, already divides by zero. *)
Theorem status_division_needs_nonempty_source (block_size num_block : Z)
    (fin : in_file) (fout : out_file) (m : mem) (s : state) :
  reachable block_size num_block (init_state num_block fin fout m) s ->
  (statusWriter (td s) = None <-> in_len fin = 0)
  /\ (in_len fin = 0 ->
      statusWriter (td (init_state num_block fin fout m)) = None).
Proof.
  intros Hr. pose proof (fsize_reachable _ _ _ _ Hr) as Hf. cbn in Hf.
  split.
  - unfold statusWriter. rewrite Hf.
    destruct (Z.eqb_spec (in_len fin) 0); split; intros; congruence.
  - intros H0. unfold statusWriter. cbn. now rewrite H0.
Qed.

Lemma status_division_needs_nonempty_source_witness :
  reachable 7 3 (init_state 3 src_empty dst_new mem_new)
    (run 7 3 sched_first_publish (init_state 3 src_empty dst_new mem_new))
  /\ (statusWriter
        (td (run 7 3 sched_first_publish (init_state 3 src_empty dst_new mem_new)))
      = None <-> in_len src_empty = 0).
Proof.
  pose proof (run_reachable 7 3 sched_first_publish
                (init_state 3 src_empty dst_new mem_new)) as H1.
  destruct (status_division_needs_nonempty_source 7 3 src_empty dst_new mem_new _ H1)
    as (A & _).
  split; [exact H1|exact A].
Defined.

(** ** The end marker *)

(** C9. In every execution, from a block table whose [end] flags all start
    false: at most one entry of the table has its [end] flag set; among the
    slots the reader has published, only the newest can carry the flag, so
    an end-marked slot is the last one it publishes; and among the slots the
    writer has taken through line 121, only the newest can carry it, so an
    end-marked slot is the last one it consumes. *)
Theorem end_marker_unique_and_last (block_size num_block : Z)
    (fin : in_file) (fout : out_file) (m : mem) (s : state) :
  1 <= num_block < 2 ^ 32 ->
  reachable block_size num_block (init_state num_block fin fout m) s ->
  (forall j, end_ (block_at (blocks (td (init_state num_block fin fout m))) j) = false)
  /\ (forall j1 j2, 0 <= j1 < num_block -> 0 <= j2 < num_block ->
        end_ (block_at (blocks (td s)) j1) = true ->
        end_ (block_at (blocks (td s)) j2) = true -> j1 = j2)
  /\ end_only_last (published (log s)) = true
  /\ end_only_last (consumed (log s)) = true.
Proof.
  intros Hn Hr.
  assert (H : end_inv num_block s).
  { eapply end_inv_reachable; eauto. now apply end_inv_init. }
  destruct H as [Hlen Hidx Hoth Hcl Hpub Hcons].
  split; [|split; [|split]].
  - intros j. cbn [init_state td init_td blocks]. now rewrite block_at_repeat.
  - intros j1 j2 H1 H2 E1 E2.
    destruct (Z.eq_dec j1 (ridx (rd s))) as [->|N1];
      [|rewrite Hoth in E1 by auto; discriminate].
    destruct (Z.eq_dec j2 (ridx (rd s))) as [->|N2];
      [|rewrite Hoth in E2 by auto; discriminate].
    reflexivity.
  - destruct (rpc (rd s)); try (now apply end_only_last_all); auto;
      destruct Hpub as (older & -> & Hold); now apply end_only_last_snoc.
  - destruct (wpc (wr s)); try (now apply end_only_last_all); auto.
Qed.

Lemma end_marker_unique_and_last_witness :
  1 <= 1 < 2 ^ 32
  /\ reachable 2 1 (init_state 1 src_abc dst_new mem_new)
       (run 2 1 sched_abc (init_state 1 src_abc dst_new mem_new))
  /\ end_only_last
       (published (log (run 2 1 sched_abc (init_state 1 src_abc dst_new mem_new))))
     = true.
Proof.
  assert (H1 : 1 <= 1 < 2 ^ 32) by lia.
  pose proof (run_reachable 2 1 sched_abc
                (init_state 1 src_abc dst_new mem_new)) as H2.
  destruct (end_marker_unique_and_last 2 1 src_abc dst_new mem_new _ H1 H2)
    as (_ & _ & A & _).
  split; [exact H1|]. split; [exact H2|exact A].
Defined.

(** ** A failed read *)

(** C6. When [read] returns an error, the reader writes [end = true] and
    [size = 0] into the slot under its cursor and terminates; however the
    writer's steps are interleaved, from the failed [read] on the reader
    stays on lines 76-82, is never blocked there, counts no slot into
    [numToWrite] and does not signal [ready_to_write_cv]; it reports the
    error before it exits. *)
Theorem failed_read_exits_unpublished (block_size num_block : Z) (s s' : state) :
  rpc (rd s) = R_read ->
  in_fails (file_in (td s)) = true ->
  0 <= ridx (rd s) < Z.of_nat (length (blocks (td s))) ->
  reachable block_size num_block s s' ->
  r_failing (rpc (rd s')) = true
  /\ (exists evs, log s' = evs ++ log s
        /\ forallb reader_silent evs = true
        /\ (rpc (rd s') = R_done -> In EvReadError evs))
  /\ (rpc (rd s') = R_done ->
      block_at (blocks (td s')) (ridx (rd s)) = mkBlock 0 true)
  /\ (rpc (rd s') <> R_done ->
      exists s'', step_reader block_size num_block s' = Some s'').
Proof.
  intros Hpc Hf Hi Hr.
  destruct (fail_path_reachable _ _ _ _ Hi Hpc Hf Hr)
    as [Hp Hidx Hlen Hrd Hend Hsz (evs & Hlog & Hsil & Herr)].
  split; [exact Hp|]. split; [|split].
  - exists evs. repeat split; auto.
    intros E. rewrite E in Herr. destruct Herr as [?|[?|?]]; auto; discriminate.
  - intros E. rewrite <- Hidx.
    rewrite (block_eta (block_at _ _)), Hend, Hsz; auto.
  - intros Hnd. unfold step_reader.
    destruct (rpc (rd s')); try discriminate; try congruence; try (eexists; reflexivity).
    destruct (sys_read _ _ _ _) as [[? ?] ?]. eexists; reflexivity.
Qed.

Lemma failed_read_exits_unpublished_witness :
  rpc (rd (run 2 2 sched_to_failed_read (init_state 2 src_abc_bad dst_new mem_new)))
  = R_read
  /\ block_at
       (blocks (td (run 2 2 sched_past_failed_read
                      (run 2 2 sched_to_failed_read
                         (init_state 2 src_abc_bad dst_new mem_new)))))
       (ridx (rd (run 2 2 sched_to_failed_read
                    (init_state 2 src_abc_bad dst_new mem_new))))
     = mkBlock 0 true.
Proof.
  assert (H1 : rpc (rd (run 2 2 sched_to_failed_read
                          (init_state 2 src_abc_bad dst_new mem_new))) = R_read)
    by (vm_compute; reflexivity).
  assert (H2 : in_fails (file_in (td (run 2 2 sched_to_failed_read
                  (init_state 2 src_abc_bad dst_new mem_new)))) = true)
    by (vm_compute; reflexivity).
  assert (H3 : 0 <= ridx (rd (run 2 2 sched_to_failed_read
                                (init_state 2 src_abc_bad dst_new mem_new)))
               < Z.of_nat (length (blocks (td (run 2 2 sched_to_failed_read
                                (init_state 2 src_abc_bad dst_new mem_new))))))
    by (vm_compute; split; [discriminate|reflexivity]).
  pose proof (run_reachable 2 2 sched_past_failed_read
                (run 2 2 sched_to_failed_read
                   (init_state 2 src_abc_bad dst_new mem_new))) as H4.
  destruct (failed_read_exits_unpublished 2 2 _ _ H1 H2 H3 H4) as (_ & _ & A & _).
  split; [exact H1|]. apply A. vm_compute; reflexivity.
Defined.

(** ** A consumed slot *)








(** ** A read failure in the middle of the copy *)

(** C4. On a source that becomes unreadable at an offset [N] inside it,
    whatever the configuration and the schedule of thread steps (the runs in
    which [pthread_cond_wait] returns only on a signal): the writer never
    terminates, so [main] never gets past [pthread_join] and there is no
    exit status; every run is finite; and the only state in which no thread
    can move has the reader gone after reporting the error and the writer
    blocked on [ready_to_write_cv]. *)
Theorem read_failure_always_hangs (block_size num_block N : Z)
    (fin : in_file) (fout : out_file) (m : mem) (sched : list tid) (s : state) :
  1 <= block_size < 2 ^ 32 -> 1 <= num_block < 2 ^ 32 ->
  in_bad fin = Some N -> 0 <= N <= in_len fin ->
  exec block_size num_block sched (init_state num_block fin fout m) = Some s ->
  wpc (wr s) <> W_done
  /\ main_exit s = None
  /\ Z.of_nat (length sched) <= 40 * N + 96
  /\ (stuck block_size num_block s = true ->
      rpc (rd s) = R_done /\ wpc (wr s) = W_waiting /\ In EvReadError (log s)).
Proof.
  intros Hbs Hn Hbad HN Hex.
  assert (H0 : hang_inv num_block N 0 0 (init_state num_block fin fout m))
    by (apply hang_inv_init; auto).
  pose proof (hang_inv_exec block_size num_block N) as Hx. feed Hx.
  destruct (Hx sched 0 0 _ _ H0 Hex) as (rk & wk & Hinv & Hfuel).
  pose proof (fuel_err_nonneg num_block N _ _ _ Hinv) as Hge.
  pose proof (hi_wrun _ _ _ _ _ Hinv) as Hw.
  split; [exact Hw|]. split; [|split].
  - unfold main_exit, terminated. destruct (statusWriter (td s)); auto.
    destruct (rpc (rd s)); auto. destruct (wpc (wr s)); auto. congruence.
  - unfold fuel_err in Hfuel at 2. cbn in Hfuel. lia.
  - intros Hst.
    pose proof (hang_inv_stuck block_size num_block N) as Hs. feed Hs.
    destruct (Hs _ _ _ Hinv Hst) as [Hr Hwt].
    repeat split; auto. apply (hi_err _ _ _ _ _ Hinv). now rewrite Hr.
Qed.


Lemma read_failure_always_hangs_witness :
  exec 2 2 sched_abc_bad (init_state 2 src_abc_bad dst_new mem_new)
  = Some (run 2 2 sched_abc_bad (init_state 2 src_abc_bad dst_new mem_new))
  /\ stuck 2 2 (run 2 2 sched_abc_bad (init_state 2 src_abc_bad dst_new mem_new))
     = true
  /\ rpc (rd (run 2 2 sched_abc_bad (init_state 2 src_abc_bad dst_new mem_new)))
     = R_done
  /\ wpc (wr (run 2 2 sched_abc_bad (init_state 2 src_abc_bad dst_new mem_new)))
     = W_waiting
  /\ In EvReadError
       (log (run 2 2 sched_abc_bad (init_state 2 src_abc_bad dst_new mem_new)))
  /\ main_exit (run 2 2 sched_abc_bad (init_state 2 src_abc_bad dst_new mem_new))
     = None.
Proof.
  assert (H1 : 1 <= 2 < 2 ^ 32) by lia.
  assert (H2 : in_bad src_abc_bad = Some 2) by reflexivity.
  assert (H3 : 0 <= 2 <= in_len src_abc_bad) by (cbn; lia).
  assert (H4 : exec 2 2 sched_abc_bad (init_state 2 src_abc_bad dst_new mem_new)
               = Some (run 2 2 sched_abc_bad
                         (init_state 2 src_abc_bad dst_new mem_new)))
    by (apply is_run_exec; vm_compute; reflexivity).
  assert (H5 : stuck 2 2 (run 2 2 sched_abc_bad
                            (init_state 2 src_abc_bad dst_new mem_new)) = true)
    by (vm_compute; reflexivity).
  destruct (read_failure_always_hangs 2 2 2 src_abc_bad dst_new mem_new _ _
              H1 H1 H2 H3 H4) as (_ & A & _ & B).
  destruct (B H5) as (B1 & B2 & B3).
  split; [exact H4|]. split; [exact H5|]. split; [exact B1|].
  split; [exact B2|]. split; [exact B3|exact A].
Defined.

(** ** Runs of the program on concrete inputs *)

(** C2, at three source bytes with [block_size = 2] and [num_block = 1],
    the reader moving whenever it can: both threads terminate, all three
    bytes are in the destination and [td->read] is 3, but [td->wrote] is 1,
    because line 127 reads [blocks[idx].size] after line 124 has given the
    slot back and the reader has already stored the next size in it. *)
Theorem wrote_counter_misses_bytes :
  is_run 2 1 sched_abc (init_state 1 src_abc dst_new mem_new) = true
  /\ terminated (run 2 1 sched_abc (init_state 1 src_abc dst_new mem_new)) = true
  /\ in_len src_abc = 3
  /\ out_pos (file_out (td (run 2 1 sched_abc
                              (init_state 1 src_abc dst_new mem_new)))) = 3
  /\ read (td (run 2 1 sched_abc (init_state 1 src_abc dst_new mem_new))) = 3
  /\ wrote (td (run 2 1 sched_abc (init_state 1 src_abc dst_new mem_new))) = 1.
Proof. vm_compute. repeat split; reflexivity. Qed.

(** C1, at [block_size = 2^30], [num_block = 5] and a source of
    [2^32 + 2^29] bytes, the reader filling all five slots before the writer
    starts: [buf_idx (4)] is [4 * 2^30] reduced modulo [2^32], that is 0, so
    slot 4 is read into the memory of slot 0. Both threads terminate and the
    destination has the length of the source, but its first byte is the
    source byte at offset [2^32], not the one at offset 0. *)
Theorem wide_buffer_overwrites_slot :
  buf_idx (2 ^ 30) 4 = buf_idx (2 ^ 30) 0
  /\ is_run (2 ^ 30) 5 sched_wide
       (init_state 5 (src_wide (2 ^ 32 + 2 ^ 29)) dst_new mem_new) = true
  /\ terminated (run (2 ^ 30) 5 sched_wide
                   (init_state 5 (src_wide (2 ^ 32 + 2 ^ 29)) dst_new mem_new)) = true
  /\ out_pos (file_out (td (run (2 ^ 30) 5 sched_wide
                (init_state 5 (src_wide (2 ^ 32 + 2 ^ 29)) dst_new mem_new))))
     = in_len (src_wide (2 ^ 32 + 2 ^ 29))
  /\ in_data (src_wide (2 ^ 32 + 2 ^ 29)) 0 = "000"%byte
  /\ out_data (file_out (td (run (2 ^ 30) 5 sched_wide
                 (init_state 5 (src_wide (2 ^ 32 + 2 ^ 29)) dst_new mem_new)))) 0
     = "001"%byte.
Proof. vm_compute. repeat split; reflexivity. Qed.

(** C8, at [block_size = 2^30], [num_block = 5] and a source whose length
    is the exact multiple [5 * 2^30], same schedule: slot 4 again lands on
    slot 0 and the first destination byte differs from the first source
    byte. *)
Theorem wide_buffer_breaks_exact_multiple :
  in_len (src_wide (5 * 2 ^ 30)) mod 2 ^ 30 = 0
  /\ is_run (2 ^ 30) 5 sched_wide
       (init_state 5 (src_wide (5 * 2 ^ 30)) dst_new mem_new) = true
  /\ terminated (run (2 ^ 30) 5 sched_wide
                   (init_state 5 (src_wide (5 * 2 ^ 30)) dst_new mem_new)) = true
  /\ out_pos (file_out (td (run (2 ^ 30) 5 sched_wide
                (init_state 5 (src_wide (5 * 2 ^ 30)) dst_new mem_new))))
     = in_len (src_wide (5 * 2 ^ 30))
  /\ in_data (src_wide (5 * 2 ^ 30)) 0 = "000"%byte
  /\ out_data (file_out (td (run (2 ^ 30) 5 sched_wide
                 (init_state 5 (src_wide (5 * 2 ^ 30)) dst_new mem_new)))) 0
     = "001"%byte.
Proof. vm_compute. repeat split; reflexivity. Qed.

(** ** The scenario of 3,500,000 bytes *)

(** C5 as stated fails: on a source of 3,500,000 bytes with
    [block_size = 1000000] and [num_block = 2] the terminated run has not
    published the four slots 1000000 / 1000000 / 1000000 / 500000 with the
    flag on the last; the slot of 500,000 bytes is published with a clear
    flag, and a fifth slot follows. *)
Lemma scenario_is_not_four_slots :
  is_run 1000000 2 sched_3500000 (init_state 2 src_3500000 dst_new mem_new) = true
  /\ terminated (run 1000000 2 sched_3500000
                   (init_state 2 src_3500000 dst_new mem_new)) = true
  /\ map snd (published (log (run 1000000 2 sched_3500000
                                (init_state 2 src_3500000 dst_new mem_new))))
     <> [mkBlock 1000000 false; mkBlock 1000000 false; mkBlock 1000000 false;
         mkBlock 500000 true]
  /\ nth 3 (map snd (published (log (run 1000000 2 sched_3500000
                                       (init_state 2 src_3500000 dst_new mem_new)))))
       default_block
     = mkBlock 500000 false
  /\ length (published (log (run 1000000 2 sched_3500000
                               (init_state 2 src_3500000 dst_new mem_new))))
     = 5%nat.
Proof. vm_compute. repeat split; try reflexivity. discriminate. Qed.

(** C5, amended.  For every source of exactly 3,500,000 bytes, with
    [block_size = 1000000] and [num_block = 2], no read or write error, and
    [pthread_cond_wait] returning only on a signal: every run is finite and
    never deadlocked, and once both threads have terminated the reader has
    published exactly five slots, of sizes 1000000 / 1000000 / 1000000 /
    500000 / 0, only the last (empty) one carrying the [end] flag; the file
    offset of the destination is 3,500,000, its bytes below that offset are
    the bytes of the source in order, and every byte from that offset on is
    what it was when the destination was opened (line 182 does not truncate
    an older file); [main] exits with status 0. *)
Theorem scenario_3500000 (fin : in_file) (fout : out_file) (m : mem)
    (ms : list move) (s : state) :
  in_len fin = 3500000 -> in_bad fin = None ->
  out_cap fout = None -> out_pos fout = 0 ->
  signalled ms = true ->
  exec_moves 1000000 2 ms (init_state 2 fin fout m) = Some s ->
  Z.of_nat (length ms) <= 140000076
  /\ (terminated s = false -> exists t s', step_thread 1000000 2 t s = Some s')
  /\ (terminated s = true ->
      published (log s)
      = [(0, mkBlock 1000000 false); (1, mkBlock 1000000 false);
         (0, mkBlock 1000000 false); (1, mkBlock 500000 false);
         (0, mkBlock 0 true)]
      /\ out_pos (file_out (td s)) = 3500000
      /\ (forall a, 0 <= a < 3500000 ->
                    out_data (file_out (td s)) a = in_data fin a)
      /\ (forall a, 3500000 <= a ->
                    out_data (file_out (td s)) a = out_data fout a)
      /\ main_exit s = Some 0).
Proof.
  intros Hl Hb Hc Hp Hsig Hex. rewrite exec_moves_signalled in Hex by assumption.
  destruct (copy_faithful 1000000 2 fin fout m (map thread_of ms) s)
    as (A & B & C); auto; try lia.
  { apply fits_small; unfold RW_MAX; lia. }
  rewrite Hl, length_threads in *. split; [lia|]. split; [exact B|].
  intros Ht. destruct (C Ht) as (C1 & C2 & C3 & _ & _ & _ & _ & C7).
  split; [rewrite C3; vm_compute; reflexivity|].
  split; [exact C1|]. split; [exact C2|]. split; [|exact C7].
  intros a Ha.
  destruct (out_frame_reachable 1000000 2 fout _ _
              (out_frame_init 2 fin fout m) (exec_reachable _ _ _ _ _ Hex))
    as [_ _ Hd].
  apply Hd. lia.
Qed.

Lemma scenario_3500000_witness :
  signalled (runs sched_3500000) = true
  /\ exec_moves 1000000 2 (runs sched_3500000)
       (init_state 2 src_3500000 dst_new mem_new)
     = Some (run 1000000 2 sched_3500000 (init_state 2 src_3500000 dst_new mem_new))
  /\ Z.of_nat (length (runs sched_3500000)) <= 140000076.
Proof.
  assert (H1 : in_len src_3500000 = 3500000) by reflexivity.
  assert (H2 : in_bad src_3500000 = None) by reflexivity.
  assert (H3 : out_cap dst_new = None) by reflexivity.
  assert (H4 : out_pos dst_new = 0) by reflexivity.
  assert (H5 : signalled (runs sched_3500000) = true) by (vm_compute; reflexivity).
  assert (H6 : exec_moves 1000000 2 (runs sched_3500000)
                 (init_state 2 src_3500000 dst_new mem_new)
               = Some (run 1000000 2 sched_3500000
                         (init_state 2 src_3500000 dst_new mem_new)))
    by (apply is_run_runs; vm_compute; reflexivity).
  destruct (scenario_3500000 src_3500000 dst_new mem_new _ _ H1 H2 H3 H4 H5 H6)
    as (A & _).
  split; [exact H5|]. split; [exact H6|exact A].
Defined.


(** * More of the program *)

Section Sync.

Variables block_size num_block : Z.

Ltac sy_start :=
  intros [t m [rl ri rr] [wl wi wr0] lg] s'
    [Hrm Hwm Hown Hrf Hrw Hwe Hww];
  cbn [td mutex rd wr log rpc ridx rret wpc widx wret] in *.

Lemma sync_inv_reader (s s' : state) :
  sync_inv num_block s -> step_reader block_size num_block s = Some s' ->
  sync_inv num_block s'.
Proof.
  revert s s'. sy_start. unfold step_reader.
  cbn [td mutex rd wr log rpc ridx rret wpc widx wret].
  destruct rl; intros Hstep;
    try discriminate;
    try (destruct (acquire Reader _) eqn:Ha; [|discriminate];
         destruct (acquire_some _ _ _ Ha) as [Hm ->]);
    try (destruct (sys_read _ _ _ _) as [[n1 m1] f1]);
    cbn in Hstep; unfold wake_writer in *; cbn in Hstep;
    split_ifs; try discriminate; injection Hstep as <-.
  all: ctl_solve wl.
Qed.

Lemma sync_inv_writer (s s' : state) :
  sync_inv num_block s -> step_writer block_size num_block s = Some s' ->
  sync_inv num_block s'.
Proof.
  revert s s'. sy_start. unfold step_writer.
  cbn [td mutex rd wr log rpc ridx rret wpc widx wret].
  destruct wl; intros Hstep;
    try discriminate;
    try (destruct (acquire Writer _) eqn:Ha; [|discriminate];
         destruct (acquire_some _ _ _ Ha) as [Hm ->]);
    try (destruct (sys_write _ _ _ _) as [n1 f1]);
    cbn in Hstep; unfold wake_reader in *; cbn in Hstep;
    split_ifs; try discriminate; injection Hstep as <-.
  all: ctl_solve rl.
Qed.

Lemma sync_inv_init (fin : in_file) (fout : out_file) (m : mem) :
  sync_inv num_block (init_state num_block fin fout m).
Proof.
  constructor; cbn; intros;
    first [ discriminate | lia | exact I | intuition discriminate ].
Qed.

(** The invariant survives a spurious return as well. *)
Lemma sync_inv_reachable (s0 s : state) :
  sync_inv num_block s0 -> reachable block_size num_block s0 s ->
  sync_inv num_block s.
Proof.
  intros H0. apply reachable_inv; auto.
  - apply sync_inv_reader.
  - apply sync_inv_writer.
  - intros [t m [rl ri rr] [wl wi wr0] lg] [Hrm Hwm Hown Hrf Hrw Hwe Hww] E.
    cbn [td mutex rd wr log rpc ridx rret wpc widx wret] in *. subst rl.
    ctl_solve wl.
  - intros [t m [rl ri rr] [wl wi wr0] lg] [Hrm Hwm Hown Hrf Hrw Hwe Hww] E.
    cbn [td mutex rd wr log rpc ridx rret wpc widx wret] in *. subst wl.
    ctl_solve rl.
Qed.

End Sync.

(** ** Locks and signals *)

(** X4. Mutual exclusion.  In every reachable state (spurious returns of
    [pthread_cond_wait] included), for every source, destination and
    configuration: a thread stands between a
    [pthread_mutex_lock] and the matching unlock (or the wait that releases
    the mutex) exactly when it owns [rw_mutex]; the two threads are never
    both there; a thread that is blocked in [pthread_cond_wait] or has
    terminated does not own the mutex; and when both have terminated the
    mutex is free. *)
Theorem mutual_exclusion (block_size num_block : Z)
    (fin : in_file) (fout : out_file) (m : mem) (s : state) :
  0 <= num_block < 2 ^ 32 ->
  reachable block_size num_block (init_state num_block fin fout m) s ->
  (r_holds (rpc (rd s)) = true <-> mutex s = Some Reader)
  /\ (w_holds (wpc (wr s)) = true <-> mutex s = Some Writer)
  /\ (r_holds (rpc (rd s)) = true -> w_holds (wpc (wr s)) = false)
  /\ (r_parked (rpc (rd s)) = true -> mutex s <> Some Reader)
  /\ (w_parked (wpc (wr s)) = true -> mutex s <> Some Writer)
  /\ (terminated s = true -> mutex s = None).
Proof.
  intros Hn Hr.
  assert (H : sync_inv num_block s).
  { eapply sync_inv_reachable; eauto. apply sync_inv_init. }
  destruct H as [Hrm Hwm Hown _ _ _ _].
  assert (A : r_holds (rpc (rd s)) = true <-> mutex s = Some Reader).
  { split; [exact Hrm|]. intros E. now rewrite E in Hown. }
  assert (B : w_holds (wpc (wr s)) = true <-> mutex s = Some Writer).
  { split; [exact Hwm|]. intros E. now rewrite E in Hown. }
  split; [exact A|]. split; [exact B|]. split; [|split; [|split]].
  - intros Hh. destruct (w_holds (wpc (wr s))) eqn:E; [|reflexivity].
    apply Hrm in Hh. specialize (Hwm eq_refl). congruence.
  - intros Hp E. apply A in E. destruct (rpc (rd s)); discriminate.
  - intros Hp E. apply B in E. destruct (wpc (wr s)); discriminate.
  - unfold terminated. intros Ht.
    destruct (rpc (rd s)) eqn:Er; try discriminate.
    destruct (wpc (wr s)) eqn:Ew; try discriminate.
    destruct (mutex s) as [[|]|]; [discriminate Hown..|reflexivity].
Qed.

Lemma mutual_exclusion_witness :
  reachable 2 1 (init_state 1 src_abc dst_new mem_new)
    (run 2 1 sched_first_publish (init_state 1 src_abc dst_new mem_new))
  /\ (r_holds (rpc (rd (run 2 1 sched_first_publish
                          (init_state 1 src_abc dst_new mem_new)))) = true
      <-> mutex (run 2 1 sched_first_publish
                   (init_state 1 src_abc dst_new mem_new)) = Some Reader).
Proof.
  assert (H1 : 0 <= 1 < 2 ^ 32) by lia.
  pose proof (run_reachable 2 1 sched_first_publish
                (init_state 1 src_abc dst_new mem_new)) as H2.
  destruct (mutual_exclusion 2 1 src_abc dst_new mem_new _ H1 H2) as (A & _).
  split; [exact H2|exact A].
Defined.

(** X5. No signal is missed.  In every reachable state (spurious returns
    included), for every source, destination and configuration: a reader
    blocked on [ready_to_read_cv]
    finds the ring still full or the writer on line 125, about to signal; a
    writer blocked on [ready_to_write_cv] finds the ring still empty or the
    reader on line 94, about to signal; and with at least one block the two
    threads are never blocked in [pthread_cond_wait] at the same time. *)
Theorem no_signal_is_missed (block_size num_block : Z)
    (fin : in_file) (fout : out_file) (m : mem) (s : state) :
  0 <= num_block < 2 ^ 32 ->
  reachable block_size num_block (init_state num_block fin fout m) s ->
  (rpc (rd s) = R_waiting ->
   num_block <= numToWrite (td s) \/ wpc (wr s) = W_signal)
  /\ (wpc (wr s) = W_waiting ->
      numToWrite (td s) < 1 \/ rpc (rd s) = R_signal)
  /\ (0 < num_block -> rpc (rd s) = R_waiting -> wpc (wr s) = W_waiting -> False).
Proof.
  intros Hn Hr.
  assert (H : sync_inv num_block s).
  { eapply sync_inv_reachable; eauto. apply sync_inv_init. }
  destruct H as [_ _ _ _ Hrw _ Hww].
  split; [exact Hrw|]. split; [exact Hww|].
  intros Hpos Er Ew.
  destruct (Hrw Er) as [?|?]; [|congruence].
  destruct (Hww Ew) as [?|?]; [lia|congruence].
Qed.

Lemma no_signal_is_missed_witness :
  reachable 2 1 (init_state 1 src_abc dst_new mem_new)
    (run 2 1 sched_writer_waits (init_state 1 src_abc dst_new mem_new))
  /\ (wpc (wr (run 2 1 sched_writer_waits
                 (init_state 1 src_abc dst_new mem_new))) = W_waiting ->
      numToWrite (td (run 2 1 sched_writer_waits
                        (init_state 1 src_abc dst_new mem_new))) < 1
      \/ rpc (rd (run 2 1 sched_writer_waits
                    (init_state 1 src_abc dst_new mem_new))) = R_signal).
Proof.
  assert (H1 : 0 <= 1 < 2 ^ 32) by lia.
  pose proof (run_reachable 2 1 sched_writer_waits
                (init_state 1 src_abc dst_new mem_new)) as H2.
  destruct (no_signal_is_missed 2 1 src_abc dst_new mem_new _ H1 H2)
    as (_ & A & _).
  split; [exact H2|exact A].
Defined.


(** ** Cursors and buffer regions *)

Lemma sys_read_count (f : in_file) (m : mem) (off count : Z) :
  0 <= count ->
  fst (fst (sys_read f m off count)) = -1
  \/ 0 <= fst (fst (sys_read f m off count)) <= count.
Proof.
  intros Hc. unfold sys_read, RW_MAX.
  destruct (in_fails f); cbn; [now left|right; lia].
Qed.

Section Bounds.

Variables block_size num_block : Z.
Hypothesis block_size_range : 0 <= block_size < 2 ^ 31.
Hypothesis num_block_range : 1 <= num_block < 2 ^ 32.

Lemma bounds_inv_init (fin : in_file) (fout : out_file) (m : mem) :
  bounds_inv block_size num_block (init_state num_block fin fout m).
Proof.
  constructor; cbn -[Z.to_nat]; try lia.
  - rewrite repeat_length. lia.
  - intros j _. fold (block_at (repeat default_block (Z.to_nat num_block)) j).
    rewrite block_at_repeat. cbn. lia.
Qed.

Ltac bi_easy :=
  first [ assumption | lia | discriminate
        | intros [?|?]; discriminate
        | intros; first [ assumption | discriminate | lia | solve [auto] ] ].

Lemma bounds_inv_reader (s s' : state) :
  bounds_inv block_size num_block s ->
  step_reader block_size num_block s = Some s' ->
  bounds_inv block_size num_block s'.
Proof.
  intros [Hlen Hr Hw Hsz Hret].
  destruct s as [t m [rl ri rr] [wl wi wr0] lg]. unfold step_reader.
  st_cbn.
  destruct rl; intros Hstep; try discriminate.
  all: try (destruct (acquire Reader _) eqn:Ha; [|discriminate];
            destruct (acquire_some _ _ _ Ha) as [Hm ->]).
  all: try (pose proof (sys_read_count (file_in t) (buf t)
                          (buf_idx block_size ri) block_size ltac:(lia)) as Hcnt;
            destruct (sys_read _ _ _ _) as [[n1 m1] f1]; cbn [fst] in Hcnt).
  all: try (replace (num_block =? 0) with false in Hstep
             by (symmetry; apply Z.eqb_neq; lia)).
  all: st_cbn; unfold wake_writer in *.
  all: try (injection Hstep as <-; constructor; st_cbn; bi_easy; fail).
  - (* R_check *)
    injection Hstep as <-.
    destruct (num_block <=? numToWrite t); constructor; st_cbn; bi_easy.
  - (* R_read *)
    injection Hstep as <-.
    assert (Hn1 : to_int n1 = n1) by (apply to_int_small; lia).
    rewrite Hn1.
    destruct (Z.eqb_spec n1 (-1)); [|destruct (Z.eqb_spec n1 0)];
      constructor; st_cbn; try bi_easy.
    all: intros _; lia.
  - (* R_err_end *)
    injection Hstep as <-. constructor; st_cbn; try bi_easy.
    + now rewrite length_set_end.
    + intros j Hj. rewrite size_set_end. auto.
  - (* R_err_size *)
    injection Hstep as <-. constructor; st_cbn; try bi_easy.
    + now rewrite length_set_size.
    + intros j Hj. rewrite block_at_set_size by lia.
      destruct (j =? ri); cbn [size]; [lia|auto].
  - (* R_case0 *)
    injection Hstep as <-. constructor; st_cbn; try bi_easy.
    + now rewrite length_set_end.
    + intros j Hj. rewrite size_set_end. auto.
  - (* R_default *)
    injection Hstep as <-.
    assert (Hrr : 0 <= rr <= block_size) by (apply Hret; now right).
    constructor; st_cbn; try bi_easy.
    + now rewrite length_set_size.
    + intros j Hj. rewrite block_at_set_size by lia.
      destruct (j =? ri); cbn [size]; [|auto].
      rewrite wrap64_small by lia. lia.
  - (* R_signal *)
    injection Hstep as <-. destruct wl; constructor; st_cbn; bi_easy.
  - (* R_chkend *)
    injection Hstep as <-.
    destruct (end_ (block_at (blocks t) ri)); constructor; st_cbn; bi_easy.
  - (* R_acc *)
    injection Hstep as <-. constructor; st_cbn; try bi_easy.
    apply next_block_idx_range. lia.
Qed.

Lemma bounds_inv_writer (s s' : state) :
  bounds_inv block_size num_block s ->
  step_writer block_size num_block s = Some s' ->
  bounds_inv block_size num_block s'.
Proof.
  intros [Hlen Hr Hw Hsz Hret].
  destruct s as [t m [rl ri rr] [wl wi wr0] lg]. unfold step_writer.
  st_cbn.
  destruct wl; intros Hstep; try discriminate.
  all: try (destruct (acquire Writer _) eqn:Ha; [|discriminate];
            destruct (acquire_some _ _ _ Ha) as [Hm ->]).
  all: try (destruct (sys_write _ _ _ _) as [n1 f1]).
  all: try (replace (num_block =? 0) with false in Hstep
             by (symmetry; apply Z.eqb_neq; lia)).
  all: st_cbn; unfold wake_reader in *.
  all: split_ifs; injection Hstep as <-.
  all: try match goal with
           | |- context [match ?r with R_waiting => _ | _ => _ end] => destruct r
           end.
  all: constructor; st_cbn; try bi_easy.
  all: apply next_block_idx_range; lia.
Qed.

Lemma bounds_inv_reachable (s0 s : state) :
  bounds_inv block_size num_block s0 ->
  reachable block_size num_block s0 s ->
  bounds_inv block_size num_block s.
Proof.
  intros H0. apply reachable_inv; auto.
  - apply bounds_inv_reader.
  - apply bounds_inv_writer.
  - intros s1 [Hlen Hr Hw Hsz Hret] E. rewrite E in *.
    constructor; st_cbn; auto. intros [?|?]; discriminate.
  - intros s1 [Hlen Hr Hw Hsz Hret] E. constructor; st_cbn; auto.
Qed.

Lemma buf_idx_inside (i len : Z) :
  0 <= i < num_block -> 0 <= len <= block_size ->
  inside (buf_bytes block_size num_block) (buf_idx block_size i, len).
Proof.
  intros Hi Hl. unfold inside, buf_bytes, buf_idx, wrap32. cbn [fst snd].
  rewrite Z.mul_1_r, (wrap64_small num_block) by lia.
  assert (0 <= i * block_size) by nia.
  assert ((i + 1) * block_size <= num_block * block_size)
    by (apply Z.mul_le_mono_nonneg_r; lia).
  assert (num_block * block_size < 2 ^ 32 * 2 ^ 31) by nia.
  rewrite wrap64_small by lia.
  pose proof (Z.mod_pos_bound (i * block_size) (2 ^ 32) ltac:(lia)).
  pose proof (Z.mod_le (i * block_size) (2 ^ 32) ltac:(lia) ltac:(lia)).
  lia.
Qed.

End Bounds.

(** X6. Memory safety of the ring.  For [block_size < 2^31] and at least
    one block, whatever the source and the destination do (failed reads and
    short writes included), in every reachable state (spurious returns
    included) both cursors index the
    block table, and the bytes handed to [read] on line 76 and to [write] on
    line 117 lie inside the [num_block * block_size] bytes allocated on line
    193. *)
Theorem ring_accesses_in_bounds (block_size num_block : Z)
    (fin : in_file) (fout : out_file) (m : mem) (s : state) :
  0 <= block_size < 2 ^ 31 -> 1 <= num_block < 2 ^ 32 ->
  reachable block_size num_block (init_state num_block fin fout m) s ->
  0 <= ridx (rd s) < Z.of_nat (length (blocks (td s)))
  /\ 0 <= widx (wr s) < Z.of_nat (length (blocks (td s)))
  /\ inside (buf_bytes block_size num_block) (read_region block_size s)
  /\ inside (buf_bytes block_size num_block) (write_region block_size s).
Proof.
  intros Hbs Hn Hr.
  assert (H : bounds_inv block_size num_block s).
  { eapply bounds_inv_reachable; eauto. now apply bounds_inv_init. }
  destruct H as [Hlen Hri Hwi Hsz _]. rewrite Hlen.
  split; [exact Hri|]. split; [exact Hwi|].
  split; apply buf_idx_inside; auto. lia.
Qed.

Lemma ring_accesses_in_bounds_witness :
  reachable 2 1 (init_state 1 src_abc dst_new mem_new)
    (run 2 1 sched_to_write (init_state 1 src_abc dst_new mem_new))
  /\ inside (buf_bytes 2 1)
       (write_region 2 (run 2 1 sched_to_write
                          (init_state 1 src_abc dst_new mem_new))).
Proof.
  assert (H1 : 0 <= 2 < 2 ^ 31) by lia.
  assert (H2 : 1 <= 1 < 2 ^ 32) by lia.
  pose proof (run_reachable 2 1 sched_to_write
                (init_state 1 src_abc dst_new mem_new)) as H3.
  destruct (ring_accesses_in_bounds 2 1 src_abc dst_new mem_new _ H1 H2 H3)
    as (_ & _ & _ & A).
  split; [exact H3|exact A].
Defined.


(** ** What the writer leaves alone *)

(** X8. The writer only appends.  In every reachable state (spurious
    returns included), for every configuration: the limit of the
    destination is unchanged, its file offset has not moved backwards, and
    every byte outside the stretch between the offset at [open] and the
    current offset is what it was: nothing is truncated, nothing before or
    beyond is touched. *)
Theorem destination_changes_only_behind_the_offset (block_size num_block : Z)
    (fin : in_file) (fout : out_file) (m : mem) (s : state) :
  reachable block_size num_block (init_state num_block fin fout m) s ->
  out_cap (file_out (td s)) = out_cap fout
  /\ out_pos fout <= out_pos (file_out (td s))
  /\ forall a, a < out_pos fout \/ out_pos (file_out (td s)) <= a ->
               out_data (file_out (td s)) a = out_data fout a.
Proof.
  intros Hr.
  assert (H : out_frame fout s).
  { eapply out_frame_reachable; eauto. apply out_frame_init. }
  destruct H as [H1 H2 H3]. auto.
Qed.

Lemma destination_changes_only_behind_the_offset_witness :
  reachable 2 1 (init_state 1 src_abc dst_new mem_new)
    (run 2 1 sched_abc (init_state 1 src_abc dst_new mem_new))
  /\ out_pos dst_new
     <= out_pos (file_out (td (run 2 1 sched_abc
                                 (init_state 1 src_abc dst_new mem_new)))).
Proof.
  pose proof (run_reachable 2 1 sched_abc
                (init_state 1 src_abc dst_new mem_new)) as H1.
  destruct (destination_changes_only_behind_the_offset 2 1 src_abc dst_new
              mem_new _ H1) as (_ & A & _).
  split; [exact H1|exact A].
Defined.


(** ** Counting the handoffs *)

Lemma count_snoc {A : Type} (l : list A) (x : A) : count (l ++ [x]) = count l + 1.
Proof. unfold count. rewrite length_app. cbn. lia. Qed.

Section Tally.

Variables block_size num_block : Z.
Hypothesis num_block_range : 0 <= num_block < 2 ^ 32.

Lemma tally_inv_init (fin : in_file) (fout : out_file) (m : mem) :
  tally_inv num_block (init_state num_block fin fout m).
Proof.
  constructor; cbn; try reflexivity; try discriminate.
  apply ctl_inv_init; lia.
Qed.

Ltac ti_fin :=
  st_cbn; cbn [released w_taken r_granted w_granted] in *; rewrite ?count_snoc;
  first [ assumption | lia | discriminate
        | intros; use_hyps; first [ discriminate | lia ] ].

Lemma tally_inv_reader (s s' : state) :
  tally_inv num_block s -> step_reader block_size num_block s = Some s' ->
  tally_inv num_block s'.
Proof.
  intros [Hctl Hnum Hwr Hdone] Hstep.
  pose proof (ctl_inv_reader block_size num_block num_block_range _ _ Hctl Hstep)
    as Hctl'.
  destruct Hctl as [Hb _ _ Hrg _ _ _ _ _ _ _ _].
  revert Hstep Hctl'.
  destruct s as [t m [rl ri rr] [wl wi wr0] lg]. unfold step_reader.
  st_cbn. cbn [r_granted] in *.
  destruct rl; intros Hstep; try discriminate.
  all: try (destruct (acquire Reader _) eqn:Ha; [|discriminate];
            destruct (acquire_some _ _ _ Ha) as [Hm ->]).
  all: try (destruct (sys_read _ _ _ _) as [[n1 m1] f1]).
  all: try (destruct (num_block =? 0); [discriminate|]).
  all: st_cbn; unfold wake_writer in *.
  all: split_ifs; injection Hstep as <-; intros Hctl'.
  all: try match goal with
           | |- context [match ?w with W_waiting => _ | _ => _ end] => destruct w
           end.
  all: constructor; try exact Hctl'.
  all: st_cbn; try (rewrite wrap32_small by (specialize (Hrg eq_refl); lia)).
  all: ti_fin.
Qed.

Lemma tally_inv_writer (s s' : state) :
  tally_inv num_block s -> step_writer block_size num_block s = Some s' ->
  tally_inv num_block s'.
Proof.
  intros [Hctl Hnum Hwr Hdone] Hstep.
  pose proof (ctl_inv_writer block_size num_block num_block_range _ _ Hctl Hstep)
    as Hctl'.
  destruct Hctl as [Hb _ _ _ Hwg _ _ _ _ _ _ _].
  revert Hstep Hctl'.
  destruct s as [t m [rl ri rr] [wl wi wr0] lg]. unfold step_writer.
  st_cbn. cbn [w_granted] in *.
  destruct wl; intros Hstep; try discriminate.
  all: try (destruct (acquire Writer _) eqn:Ha; [|discriminate];
            destruct (acquire_some _ _ _ Ha) as [Hm ->]).
  all: try (destruct (sys_write _ _ _ _) as [n1 f1]).
  all: try (destruct (num_block =? 0); [discriminate|]).
  all: st_cbn; unfold wake_reader in *.
  all: split_ifs; injection Hstep as <-; intros Hctl'.
  all: try match goal with
           | |- context [match ?r with R_waiting => _ | _ => _ end] => destruct r
           end.
  all: constructor; try exact Hctl'.
  all: st_cbn; try (rewrite wrap32_small by (specialize (Hwg eq_refl); lia)).
  all: ti_fin.
Qed.

Lemma tally_inv_exec (sched : list tid) (s0 s : state) :
  tally_inv num_block s0 -> exec block_size num_block sched s0 = Some s ->
  tally_inv num_block s.
Proof.
  revert s0. induction sched as [|t r IH]; intros s0 H0 Hex; cbn [exec] in Hex.
  - now injection Hex as <-.
  - destruct (step_thread block_size num_block t s0) as [s1|] eqn:Hst;
      [|discriminate].
    eapply IH; [|exact Hex]. destruct t; cbn [step_thread] in Hst.
    + eapply tally_inv_reader; eauto.
    + eapply tally_inv_writer; eauto.
Qed.

End Tally.

(** X7. The counter against the history.  In every state of a run in which
    [pthread_cond_wait] returns only on a signal, for every source,
    destination and configuration: [numToWrite] is the number of slots
    published minus the number released; the writer has written every slot
    it released and at most one more; it has never written more slots than
    were published; and the reader is never more than [num_block] slots
    ahead of the releases. *)
Theorem handoff_accounting (block_size num_block : Z)
    (fin : in_file) (fout : out_file) (m : mem) (ms : list move) (s : state) :
  0 <= num_block < 2 ^ 32 ->
  signalled ms = true ->
  exec_moves block_size num_block ms (init_state num_block fin fout m) = Some s ->
  numToWrite (td s) = count (published (log s)) - count (released (log s))
  /\ count (released (log s)) <= count (written (log s))
     <= count (released (log s)) + 1
  /\ count (written (log s)) <= count (published (log s))
  /\ count (published (log s)) <= count (released (log s)) + num_block.
Proof.
  intros Hn Hsig Hex. rewrite exec_moves_signalled in Hex by assumption.
  assert (H : tally_inv num_block s).
  { eapply tally_inv_exec; eauto. now apply tally_inv_init. }
  destruct H as [[Hb _ _ _ Hwg _ _ _ _ _ _ _] Hnum Hwr Hdone].
  assert (Ht : w_taken (wpc (wr s)) = 0
               \/ (w_taken (wpc (wr s)) = 1 /\ 1 <= numToWrite (td s))).
  { destruct (wpc (wr s)); cbn in *; auto; right; split; auto. }
  lia.
Qed.

Lemma handoff_accounting_witness :
  signalled (runs sched_to_write) = true
  /\ exec_moves 2 1 (runs sched_to_write) (init_state 1 src_abc dst_new mem_new)
     = Some (run 2 1 sched_to_write (init_state 1 src_abc dst_new mem_new))
  /\ count (written (log (run 2 1 sched_to_write
                           (init_state 1 src_abc dst_new mem_new))))
     <= count (published (log (run 2 1 sched_to_write
                                 (init_state 1 src_abc dst_new mem_new)))).
Proof.
  assert (H1 : 0 <= 1 < 2 ^ 32) by lia.
  assert (H2 : signalled (runs sched_to_write) = true) by (vm_compute; reflexivity).
  assert (H3 : exec_moves 2 1 (runs sched_to_write)
                 (init_state 1 src_abc dst_new mem_new)
               = Some (run 2 1 sched_to_write (init_state 1 src_abc dst_new mem_new)))
    by (apply is_run_runs; vm_compute; reflexivity).
  destruct (handoff_accounting 2 1 src_abc dst_new mem_new _ _ H1 H2 H3)
    as (_ & _ & A & _).
  split; [exact H2|]. split; [exact H3|exact A].
Defined.


(** ** The copy without errors *)



(** X2. The empty source, for every [block_size] and [num_block] of at
    least 1, with [pthread_cond_wait] returning only on a signal: every run
    of the reader and the writer is finite and free of deadlock, and when
    both have terminated the reader has published exactly one slot, slot 0
    with size 0 and the [end] flag, the writer has made exactly one
    [write], of zero bytes out of slot 0, and has taken that slot through
    line 121, and nothing was written to the destination.  The process
    nevertheless never exits with a status: with [td->fsize = 0] the
    division of the status line traps. *)
Theorem empty_source_single_end_slot (block_size num_block : Z)
    (fin : in_file) (fout : out_file) (m : mem) (ms : list move) (s : state) :
  1 <= block_size < 2 ^ 32 -> 1 <= num_block < 2 ^ 32 ->
  in_len fin = 0 -> in_bad fin = None ->
  out_cap fout = None -> out_pos fout = 0 ->
  signalled ms = true ->
  exec_moves block_size num_block ms (init_state num_block fin fout m) = Some s ->
  Z.of_nat (length ms) <= 76
  /\ (terminated s = false ->
      exists t s', step_thread block_size num_block t s = Some s')
  /\ (terminated s = true ->
      published (log s) = [(0, mkBlock 0 true)]
      /\ written (log s) = [(0, 0)]
      /\ consumed (log s) = [(0, mkBlock 0 true)]
      /\ out_pos (file_out (td s)) = 0)
  /\ statusWriter (td s) = None
  /\ main_exit s = None.
Proof.
  intros Hbs Hn HL Hbad Hcap Hpos Hsig Hex.
  rewrite exec_moves_signalled in Hex by assumption.
  destruct (copy_faithful block_size num_block fin fout m (map thread_of ms) s)
    as (A & B & C); auto; try lia.
  { rewrite HL. apply fits_empty. lia. }
  assert (Hst : statusWriter (td s) = None).
  { unfold statusWriter.
    rewrite (fsize_reachable _ _ _ _ (exec_reachable _ _ _ _ _ Hex)). cbn.
    now rewrite HL. }
  rewrite HL, length_threads in *. split; [lia|]. split; [exact B|].
  split; [|split; [exact Hst|unfold main_exit; now rewrite Hst]].
  intros Ht. destruct (C Ht) as (C1 & _ & C3 & C4 & C5 & _).
  assert (E : slots block_size num_block 0 ((0 + block_size - 1) / block_size + 1)
              = [(0, mkBlock 0 true)]).
  { rewrite Z.div_small by lia.
    change (slots block_size num_block 0 (0 + 1)) with [slot block_size num_block 0 0].
    unfold slot, sz, fpos, isend.
    rewrite Zmod_0_l, Z.mul_0_l, Z.min_id, Z.sub_0_r, Z.leb_refl.
    replace (Z.min ((0 + 1) * block_size) 0) with 0 by lia.
    reflexivity. }
  rewrite E in *. repeat split; auto.
Qed.

Lemma empty_source_single_end_slot_witness :
  signalled (runs sched_one_slot) = true
  /\ exec_moves 7 3 (runs sched_one_slot) (init_state 3 src_empty dst_new mem_new)
     = Some (run 7 3 sched_one_slot (init_state 3 src_empty dst_new mem_new))
  /\ Z.of_nat (length (runs sched_one_slot)) <= 76
  /\ main_exit (run 7 3 sched_one_slot (init_state 3 src_empty dst_new mem_new))
     = None.
Proof.
  assert (H1 : 1 <= 7 < 2 ^ 32) by lia.
  assert (H2 : 1 <= 3 < 2 ^ 32) by lia.
  assert (H3 : in_len src_empty = 0) by reflexivity.
  assert (H4 : in_bad src_empty = None) by reflexivity.
  assert (H5 : out_cap dst_new = None) by reflexivity.
  assert (H6 : out_pos dst_new = 0) by reflexivity.
  assert (H7 : signalled (runs sched_one_slot) = true) by (vm_compute; reflexivity).
  assert (H8 : exec_moves 7 3 (runs sched_one_slot)
                 (init_state 3 src_empty dst_new mem_new)
               = Some (run 7 3 sched_one_slot
                         (init_state 3 src_empty dst_new mem_new)))
    by (apply is_run_runs; vm_compute; reflexivity).
  destruct (empty_source_single_end_slot 7 3 src_empty dst_new mem_new _ _
              H1 H2 H3 H4 H5 H6 H7 H8) as (A & _ & _ & _ & B).
  split; [exact H7|]. split; [exact H8|]. split; [exact A|exact B].
Defined.

(** ** A destination that fills up *)

Section Capacity.

Variables bs n c : Z.
Hypothesis Hc : 0 <= c.

Ltac sim_open :=
  intros [Hbl Hbf Hnum Hin Hrd Hwrt Hfs Hrw Hww Hmx Hrdl Hwpc Hwidx
          Hcap Hnocap Hdev Hpos Hdata Hlog Hfit Hover];
  st_cbn; subst.

Ltac sim_fin :=
  st_cbn; cbn [filter quiet_event] in *;
  first [ assumption | reflexivity | congruence
        | intros a0 Ha0; auto; fail
        | let H := fresh in intros H;
          match goal with F : _ <= _ -> _ /\ _ |- _ =>
            destruct (F H) as [-> ->]; split; reflexivity end
        | let H := fresh in intros H;
          match goal with F : _ < _ -> _ \/ _ |- _ =>
            destruct (F H) as [?|[? ?]];
            first [ left; cbn [In]; tauto | discriminate | right; split; [reflexivity || assumption | assumption] ] end ].

Ltac sim_close :=
  st_cbn; cbn [filter quiet_event] in *;
  try sim_fin; try lia;
  try (intros; exfalso; lia);
  try (intros _; split; reflexivity);
  try (intros _; left; cbn [In]; tauto).

Lemma sim_cap_reader (s s' s1' : state) :
  sim_cap c s s' -> step_reader bs n s' = Some s1' ->
  exists s1, step_reader bs n s = Some s1 /\ sim_cap c s1 s1'.
Proof.
  destruct s as [[bl bf num fi fo rdc wrc fs rw ww] mx [rl ri rr] [wl wi wr0] lg].
  destruct s' as [[bl' bf' num' fi' fo' rdc' wrc' fs' rw' ww'] mx' [rl' ri' rr']
                    [wl' wi' wr0'] lg'].
  sim_open. injection Hrdl as -> -> ->.
  unfold step_reader, acquire. st_cbn.
  destruct rl; intros Hstep; try discriminate.
  all: try (destruct mx; [discriminate|]).
  all: try (destruct (sys_read _ _ _ _) as [[n1 m1] f1]).
  all: try (destruct (n =? 0); [discriminate|]).
  all: cbn [option_map] in *; unfold wake_writer in *; st_cbn.
  all: split_ifs; injection Hstep as <-.
  all: eexists; (split; [reflexivity|]).
  all: try match goal with
           | |- context [match ?w with W_waiting => _ | _ => _ end] => destruct w
           end.
  all: constructor; sim_fin.
Qed.


(** The two [write] calls side by side. *)
Lemma sys_write_cap (f f' : out_file) (m : mem) (off count : Z) :
  out_cap f = None -> out_cap f' = Some c -> out_dev f' = false ->
  out_pos f' = Z.min c (out_pos f) ->
  (forall a, a < out_pos f' -> out_data f' a = out_data f a) ->
  0 <= count <= RW_MAX ->
  let r := sys_write f m off count in
  let r' := sys_write f' m off count in
  fst r = count
  /\ out_cap (snd r) = None /\ out_cap (snd r') = Some c
  /\ out_dev (snd r') = false
  /\ out_pos (snd r) = out_pos f + count
  /\ out_pos (snd r') = Z.min c (out_pos (snd r))
  /\ (forall a, a < out_pos (snd r') -> out_data (snd r') a = out_data (snd r) a)
  /\ (out_pos (snd r) <= c -> fst r' = count)
  /\ (out_pos f <= c < out_pos (snd r) -> fst r' = -1 \/ 0 <= fst r' < count).
Proof.
  intros Hn Hc' Hdv Hp Hd H0. unfold sys_write, out_room.
  rewrite Hn, Hc', Hdv, Hp, orb_false_r.
  cbn zeta. cbn [fst snd out_cap out_pos out_data out_dev].
  rewrite (Z.min_l count RW_MAX), (Z.max_r 0 count) by lia.
  destruct ((c - Z.min c (out_pos f) <=? 0) && (0 <? count)) eqn:E;
    cbn [fst snd out_cap out_pos out_data out_dev].
  - apply andb_true_iff in E as [E2 E1].
    apply Z.ltb_lt in E1. apply Z.leb_le in E2.
    repeat split; auto; try lia.
    intros a Ha. rewrite Hp in Hd. unfold in_range.
    destruct (Z.leb_spec (out_pos f) a); cbn [andb]; [lia|]. apply Hd. lia.
  - assert (E' : count = 0 \/ 0 < c - Z.min c (out_pos f)).
    { apply andb_false_iff in E as [E|E];
        [apply Z.leb_gt in E; lia | apply Z.ltb_ge in E; lia]. }
    repeat split; auto; try lia.
    intros a Ha. rewrite Hp in Hd. unfold in_range.
    destruct (Z.leb_spec (out_pos f) a), (Z.ltb_spec a (out_pos f + count));
      cbn [andb].
    all: destruct (Z.leb_spec (Z.min c (out_pos f)) a),
           (Z.ltb_spec a (Z.min c (out_pos f)
                          + Z.max 0 (Z.min count (c - Z.min c (out_pos f)))));
      cbn [andb]; try lia.
    all: try (f_equal; lia).
    all: apply Hd; lia.
Qed.

Lemma to_int_neg1 : to_int (-1) = -1.
Proof. reflexivity. Qed.

Lemma wrap64_neg1 : wrap64 (-1) = 2 ^ 64 - 1.
Proof. reflexivity. Qed.

Lemma sim_cap_writer (s s' s1' : state) :
  (wpc (wr s) = W_write \/ wpc (wr s) = W_chkshort ->
   0 <= size (block_at (blocks (td s)) (widx (wr s))) <= RW_MAX) ->
  (wpc (wr s) = W_chkshort ->
   wret (wr s) = size (block_at (blocks (td s)) (widx (wr s)))) ->
  sim_cap c s s' -> step_writer bs n s' = Some s1' ->
  exists s1, step_writer bs n s = Some s1 /\ sim_cap c s1 s1'.
Proof.
  destruct s as [[bl bf num fi fo rdc wrc fs rw ww] mx [rl ri rr] [wl wi wr0] lg].
  destruct s' as [[bl' bf' num' fi' fo' rdc' wrc' fs' rw' ww'] mx' [rl' ri' rr']
                    [wl' wi' wr0'] lg'].
  intros Hsz Hret. revert Hsz Hret. st_cbn. intros Hsz Hret.
  sim_open. injection Hrdl as -> -> ->.
  unfold step_writer, acquire. st_cbn.
  destruct wl; intros Hstep; try discriminate.
  all: try (destruct mx; [discriminate|]).
  all: try (destruct (n =? 0); [discriminate|]).
  all: cbn [option_map] in *; unfold wake_reader in *; st_cbn.
  7: { (* W_write *)
    specialize (Hsz (or_introl eq_refl)).
    pose proof (sys_write_cap fo fo' bf (buf_idx bs wi) (size (block_at bl wi))
                  Hnocap Hcap Hdev Hpos Hdata ltac:(lia)) as Hw.
    cbn zeta in Hw.
    destruct (sys_write fo' _ _ _) as [n1' f1'].
    destruct (sys_write fo _ _ _) as [n1 f1].
    cbn [fst snd] in Hw.
    destruct Hw as (-> & W2 & W3 & Wd & W4 & W5 & W6 & W7 & W8).
    unfold RW_MAX in Hsz.
    rewrite (to_int_small (size (block_at bl wi))) by lia.
    replace (size (block_at bl wi) =? -1) with false
      by (symmetry; apply Z.eqb_neq; lia).
    eexists; split; [reflexivity|].
    destruct (Z_le_gt_dec (out_pos f1) c) as [Hle|Hgt].
    - rewrite (W7 Hle) in Hstep. rewrite to_int_small in Hstep by lia.
      replace (size (block_at bl wi) =? -1) with false in Hstep
        by (symmetry; apply Z.eqb_neq; lia).
      injection Hstep as <-.
      destruct (Hfit ltac:(lia)) as [-> _].
      constructor; sim_close.
    - destruct (Z_le_gt_dec (out_pos fo) c) as [Hle0|Hgt0].
      + destruct (Hfit Hle0) as [-> _].
        destruct (W8 ltac:(lia)) as [->|Hr].
        * rewrite to_int_neg1 in Hstep. cbn in Hstep. injection Hstep as <-.
          constructor; sim_close.
          intros _. right. split; auto. rewrite wrap64_neg1. lia.
        * rewrite to_int_small in Hstep by lia.
          replace (n1' =? -1) with false in Hstep
            by (symmetry; apply Z.eqb_neq; lia).
          injection Hstep as <-.
          constructor; sim_close.
          intros _. right. split; auto. rewrite wrap64_small; lia.
      + destruct (Hover ltac:(lia)) as [Hin|[? _]]; [|discriminate].
        destruct (to_int n1' =? -1); injection Hstep as <-.
        all: constructor; sim_close. }
  7: { (* W_chkshort *)
    specialize (Hsz (or_intror eq_refl)). specialize (Hret eq_refl). subst wr0.
    unfold RW_MAX in Hsz.
    rewrite (wrap64_small (size (block_at bl wi))), Z.eqb_refl by lia.
    eexists; split; [reflexivity|].
    destruct (Z_le_gt_dec (out_pos fo) c) as [Hle0|Hgt0].
    - destruct (Hfit Hle0) as [-> ->].
      rewrite (wrap64_small (size (block_at bl wi))), Z.eqb_refl in Hstep by lia.
      injection Hstep as <-.
      constructor; sim_close.
    - destruct (Hover ltac:(lia)) as [Hin|[_ Hne]].
      + destruct (wrap64 wr0' =? _); injection Hstep as <-.
        all: constructor; sim_close.
      + replace (wrap64 wr0' =? size (block_at bl wi)) with false in Hstep
          by (symmetry; apply Z.eqb_neq; lia).
        injection Hstep as <-.
        constructor; sim_close. }
  all: split_ifs; injection Hstep as <-.
  all: eexists; (split; [reflexivity|]).
  all: try match goal with
           | |- context [match ?r with R_waiting => _ | _ => _ end] => destruct r
           end.
  all: constructor; sim_fin.
Qed.


Lemma sim_cap_enabled (t : tid) (s s' s1 : state) :
  sim_cap c s s' -> step_thread bs n t s = Some s1 ->
  exists s1', step_thread bs n t s' = Some s1'.
Proof.
  destruct s as [[bl bf num fi fo rdc wrc fs rw ww] mx [rl ri rr] [wl wi wr0] lg].
  destruct s' as [[bl' bf' num' fi' fo' rdc' wrc' fs' rw' ww'] mx' [rl' ri' rr']
                    [wl' wi' wr0'] lg'].
  sim_open. injection Hrdl as -> -> ->.
  destruct t; cbn [step_thread]; unfold step_reader, step_writer, acquire; st_cbn.
  - destruct rl; intros Hstep; try discriminate.
    all: try (destruct mx; [discriminate|]).
    all: try (destruct (sys_read _ _ _ _) as [[n1 m1] f1]).
    all: try (destruct (n =? 0); [discriminate|]).
    all: eexists; reflexivity.
  - destruct wl; intros Hstep; try discriminate.
    all: try (destruct mx; [discriminate|]).
    all: try (destruct (sys_write fo' _ _ _) as [n1' f1']).
    all: try (destruct (n =? 0); [discriminate|]).
    all: eexists; reflexivity.
Qed.

Lemma sim_cap_init (fin : in_file) (fout : out_file) (m : mem) :
  out_cap fout = Some c -> out_dev fout = false -> out_pos fout = 0 ->
  sim_cap c (init_state n fin (unlimited fout) m) (init_state n fin fout m).
Proof.
  intros H1 H2 H3. constructor; cbn; auto; try lia.
Qed.

End Capacity.

Lemma published_quiet (l : list event) :
  published (filter quiet_event l) = published l.
Proof.
  induction l as [|e l IH]; [reflexivity|].
  destruct e; cbn; rewrite ?IH; reflexivity.
Qed.

Lemma consumed_quiet (l : list event) :
  consumed (filter quiet_event l) = consumed l.
Proof.
  induction l as [|e l IH]; [reflexivity|].
  destruct e; cbn; rewrite ?IH; reflexivity.
Qed.

Lemma written_quiet (l : list event) :
  written (filter quiet_event l) = written l.
Proof.
  induction l as [|e l IH]; [reflexivity|].
  destruct e; cbn; rewrite ?IH; reflexivity.
Qed.

Section CapacityRun.

Variables bs n L c : Z.
Variable data : Z -> byte.
Hypothesis Hbs : 1 <= bs < 2 ^ 32.
Hypothesis Hn : 1 <= n < 2 ^ 32.
Hypothesis HL : 0 <= L.
Hypothesis Hint : Z.min bs L < 2 ^ 31.
Hypothesis Hcall : Z.min bs L <= RW_MAX.
Hypothesis Hidx : forall i, 0 <= i < n -> (i - 1) * bs < L -> i * bs < 2 ^ 32.
Hypothesis Hc : 0 <= c.

(** What the copy invariant says about the slot under the writer's cursor
    while the writer is at lines 117 to 119. *)
Lemma copy_inv_cursor (rk wk : Z) (s : state) :
  copy_inv bs n L data rk wk s ->
  (wpc (wr s) = W_write \/ wpc (wr s) = W_chkshort ->
   0 <= size (block_at (blocks (td s)) (widx (wr s))) <= RW_MAX)
  /\ (wpc (wr s) = W_chkshort ->
      wret (wr s) = size (block_at (blocks (td s)) (widx (wr s)))).
Proof.
  intros Hinv.
  pose proof (ci_ctl _ _ _ _ _ _ _ Hinv) as Hctl.
  pose proof (ctl_wgrant _ _ Hctl) as Hwg.
  pose proof (ci_num _ _ _ _ _ _ _ Hinv) as Hnum.
  pose proof (ci_widx _ _ _ _ _ _ _ Hinv) as Hwi.
  pose proof (ci_size _ _ _ _ _ _ _ Hinv wk) as Hsz.
  pose proof (ci_wret _ _ _ _ _ _ _ Hinv) as Hwr.
  destruct (ci_wk _ _ _ _ _ _ _ Hinv) as [Hwk _].
  pose proof (r_pub_facts 0 0 (rpc (rd s))) as Hp.
  pose proof (sz_range bs L) as Hr. feed Hr. specialize (Hr wk Hwk).
  rewrite Hwi.
  assert (G : wpc (wr s) = W_write \/ wpc (wr s) = W_chkshort ->
              size (block_at (blocks (td s)) (wk mod n)) = sz bs L wk).
  { intros E. apply Hsz.
    destruct E as [E|E]; rewrite E in *; cbn [w_rel w_granted] in *;
      specialize (Hwg eq_refl); lia. }
  split.
  - intros E. rewrite (G E). lia.
  - intros E. rewrite (G (or_intror E)). auto.
Qed.

(** Every run on the limited destination is, step by step, a run on the
    unlimited one. *)
Lemma sim_cap_exec (sched : list tid) (rk wk : Z) (s s' s1' : state) :
  copy_inv bs n L data rk wk s -> sim_cap c s s' ->
  exec bs n sched s' = Some s1' ->
  exists s1, exec bs n sched s = Some s1 /\ sim_cap c s1 s1'.
Proof.
  revert rk wk s s'. induction sched as [|t r IH]; intros rk wk s s' Hinv Hsim Hex.
  - cbn in Hex. injection Hex as <-. exists s. split; auto.
  - cbn [exec] in Hex.
    destruct (step_thread bs n t s') as [s2'|] eqn:Hst; [|discriminate].
    assert (Hs : exists s2, step_thread bs n t s = Some s2 /\ sim_cap c s2 s2').
    { destruct t; cbn [step_thread] in *.
      - eapply sim_cap_reader; eauto.
      - destruct (copy_inv_cursor _ _ _ Hinv) as [A B].
        eapply sim_cap_writer; eauto. }
    destruct Hs as (s2 & Hst2 & Hsim2).
    pose proof (copy_inv_step bs n L data) as Hcs. feed Hcs.
    destruct (Hcs _ _ _ _ _ Hinv Hst2) as (rk2 & wk2 & Hinv2 & _).
    destruct (IH _ _ _ _ Hinv2 Hsim2 Hex) as (s1 & Hex1 & Hsim1).
    exists s1. split; auto. cbn [exec]. now rewrite Hst2.
Qed.

End CapacityRun.

(** X9. A destination that fills up.  With a regular file as destination
    that accepts [c] bytes only, and otherwise as in a copy without errors
    (one [read] can deliver a whole block, the slot offsets fit, and
    [pthread_cond_wait] returns only on a signal): every run is still
    finite and free of deadlock, and when both threads have terminated
    [main] still exits with 0 if the source is not empty; the destination
    holds the first [min c L] bytes of the source; the writer has made one
    [write] per published slot and taken every published slot through line
    121; the message of line 119 has been printed when [c < L], and nothing
    has been printed when the source fits. *)
Theorem full_destination_is_not_fatal (block_size num_block c : Z)
    (fin : in_file) (fout : out_file) (m : mem) (ms : list move) (s : state) :
  1 <= block_size <= RW_MAX -> 1 <= num_block < 2 ^ 32 ->
  (num_block - 1) * block_size < 2 ^ 32 ->
  0 <= in_len fin -> in_bad fin = None ->
  0 <= c -> out_cap fout = Some c -> out_dev fout = false -> out_pos fout = 0 ->
  signalled ms = true ->
  exec_moves block_size num_block ms (init_state num_block fin fout m) = Some s ->
  Z.of_nat (length ms) <= 40 * in_len fin + 76
  /\ (terminated s = false ->
      exists t s', step_thread block_size num_block t s = Some s')
  /\ (terminated s = true ->
      out_pos (file_out (td s)) = Z.min c (in_len fin)
      /\ (forall a, 0 <= a < Z.min c (in_len fin) ->
                    out_data (file_out (td s)) a = in_data fin a)
      /\ written (log s)
         = map (fun p => (fst p, size (snd p))) (published (log s))
      /\ consumed (log s) = published (log s)
      /\ (0 < in_len fin -> main_exit s = Some 0)
      /\ (c < in_len fin -> In EvShortWrite (log s))
      /\ (in_len fin <= c -> forallb quiet_event (log s) = true)).
Proof.
  intros Hbs Hn Hfit HL Hbad Hc Hcap Hdev Hpos Hsig Hex.
  rewrite exec_moves_signalled in Hex by assumption.
  set (sched := map thread_of ms) in *.
  assert (Hf : fits block_size num_block (in_len fin)) by (apply fits_small; lia).
  destruct Hf as [Hcall Hidx].
  assert (Hint : Z.min block_size (in_len fin) < 2 ^ 31)
    by (unfold RW_MAX in Hcall; lia).
  assert (H0 : copy_inv block_size num_block (in_len fin) (in_data fin) 0 0
                 (init_state num_block fin (unlimited fout) m))
    by (apply copy_inv_init; auto; unfold RW_MAX in Hbs; lia).
  assert (Hbs' : 1 <= block_size < 2 ^ 32) by (unfold RW_MAX in Hbs; lia).
  pose proof (sim_cap_init num_block c) as Hsim0. feed Hsim0.
  specialize (Hsim0 fin fout m Hcap Hdev Hpos).
  pose proof (sim_cap_exec block_size num_block (in_len fin) c (in_data fin)) as Hx.
  feed Hx.
  destruct (Hx sched 0 0 _ _ _ H0 Hsim0 Hex) as (s1 & Hex1 & Hsim).
  destruct (copy_faithful block_size num_block fin (unlimited fout) m sched s1)
    as (A & B & C); auto; try lia.
  { split; auto. }
  assert (Ht : terminated s = terminated s1).
  { unfold terminated. now rewrite (sc_rd _ _ _ Hsim), (sc_wpc _ _ _ Hsim). }
  unfold sched in A. rewrite length_threads in A.
  split; [exact A|]. split.
  - intros Hnt. rewrite Ht in Hnt. destruct (B Hnt) as (t & s2 & Hst).
    exists t. eapply sim_cap_enabled; eauto.
  - intros Hterm. rewrite Ht in Hterm.
    destruct (C Hterm) as (C1 & C2 & C3 & C4 & C5 & C6 & C7 & C8).
    pose proof (sc_log _ _ _ Hsim) as Hlog.
    assert (P : published (log s) = published (log s1))
      by (rewrite <- published_quiet, Hlog, published_quiet; reflexivity).
    assert (Q : consumed (log s) = consumed (log s1))
      by (rewrite <- consumed_quiet, Hlog, consumed_quiet; reflexivity).
    assert (W : written (log s) = written (log s1))
      by (rewrite <- written_quiet, Hlog, written_quiet; reflexivity).
    rewrite P, Q, W, C3, C4, C5.
    split; [rewrite (sc_pos _ _ _ Hsim), C1; reflexivity|].
    split.
    { intros a Ha. rewrite (sc_data _ _ _ Hsim), C2; auto; try lia.
      rewrite (sc_pos _ _ _ Hsim), C1. lia. }
    split; [reflexivity|]. split; [reflexivity|].
    split.
    { intros Hpos'. unfold main_exit, statusWriter.
      rewrite Ht, Hterm, (sc_fsize _ _ _ Hsim).
      rewrite (fsize_reachable _ _ _ _ (exec_reachable _ _ _ _ _ Hex1)). cbn.
      destruct (Z.eqb_spec (in_len fin) 0); [lia|reflexivity]. }
    split.
    + intros Hlt. destruct (sc_over _ _ _ Hsim ltac:(lia)) as [Hin|[Hpc _]]; auto.
      unfold terminated in Hterm. rewrite Hpc in Hterm.
      destruct (rpc (rd s1)); discriminate.
    + intros Hle. destruct (sc_fit _ _ _ Hsim ltac:(lia)) as [-> _]. exact C7.
Qed.

Lemma full_destination_is_not_fatal_witness :
  signalled (runs sched_abc) = true
  /\ exec_moves 2 1 (runs sched_abc) (init_state 1 src_abc dst_two mem_new)
     = Some (run 2 1 sched_abc (init_state 1 src_abc dst_two mem_new))
  /\ terminated (run 2 1 sched_abc (init_state 1 src_abc dst_two mem_new)) = true
  /\ out_pos (file_out (td (run 2 1 sched_abc
                              (init_state 1 src_abc dst_two mem_new))))
     = Z.min 2 (in_len src_abc)
  /\ In EvShortWrite
       (log (run 2 1 sched_abc (init_state 1 src_abc dst_two mem_new)))
  /\ main_exit (run 2 1 sched_abc (init_state 1 src_abc dst_two mem_new))
     = Some 0.
Proof.
  assert (H1 : 1 <= 2 <= RW_MAX) by (unfold RW_MAX; lia).
  assert (H2 : 1 <= 1 < 2 ^ 32) by lia.
  assert (H3 : (1 - 1) * 2 < 2 ^ 32) by lia.
  assert (H4 : 0 <= in_len src_abc) by (cbn; lia).
  assert (H5 : in_bad src_abc = None) by reflexivity.
  assert (H6 : 0 <= 2) by lia.
  assert (H7 : out_cap dst_two = Some 2) by reflexivity.
  assert (H7' : out_dev dst_two = false) by reflexivity.
  assert (H8 : out_pos dst_two = 0) by reflexivity.
  assert (Hs : signalled (runs sched_abc) = true) by (vm_compute; reflexivity).
  assert (H9 : exec_moves 2 1 (runs sched_abc) (init_state 1 src_abc dst_two mem_new)
               = Some (run 2 1 sched_abc (init_state 1 src_abc dst_two mem_new)))
    by (apply is_run_runs; vm_compute; reflexivity).
  assert (H10 : terminated (run 2 1 sched_abc
                              (init_state 1 src_abc dst_two mem_new)) = true)
    by (vm_compute; reflexivity).
  assert (H11 : 2 < in_len src_abc) by (cbn; lia).
  assert (H12 : 0 < in_len src_abc) by (cbn; lia).
  destruct (full_destination_is_not_fatal 2 1 2 src_abc dst_two mem_new _ _
              H1 H2 H3 H4 H5 H6 H7 H7' H8 Hs H9) as (_ & _ & A).
  destruct (A H10) as (A1 & _ & _ & _ & A5 & A6 & _).
  split; [exact Hs|]. split; [exact H9|]. split; [exact H10|]. split; [exact A1|].
  split; [exact (A6 H11)|exact (A5 H12)].
Defined.

(** ** No blocks *)

Section NoBlock.

Variable block_size : Z.

Lemma no_block_init (fin : in_file) (fout : out_file) (m : mem) :
  no_block_inv fout (init_state 0 fin fout m).
Proof. constructor; cbn; auto; try lia. apply ctl_inv_init. lia. Qed.

Lemma no_block_step (fout : out_file) (t : tid) (s s' : state) :
  no_block_inv fout s -> step_thread block_size 0 t s = Some s' ->
  no_block_inv fout s'
  /\ r_rank (rpc (rd s')) + w_rank (wpc (wr s'))
     < r_rank (rpc (rd s)) + w_rank (wpc (wr s)).
Proof.
  intros [Hctl Hnum Hr Hw Hlog Hout Hrw Hww] Hstep.
  assert (Hctl' : ctl_inv 0 s').
  { destruct t; cbn [step_thread] in Hstep.
    - eapply ctl_inv_reader; eauto. lia.
    - eapply ctl_inv_writer; eauto. lia. }
  clear Hctl. revert Hstep Hctl'.
  destruct s as [tt m [rl ri rr] [wl wi wr0] lg].
  destruct t; cbn [step_thread]; unfold step_reader, step_writer; st_cbn.
  - destruct rl; cbn in Hr; try lia; intros Hstep; try discriminate.
    all: try (destruct (acquire Reader _) eqn:Ha; [|discriminate];
              destruct (acquire_some _ _ _ Ha) as [Hm ->]).
    all: st_cbn; try rewrite Hnum in Hstep; cbn in Hstep.
    all: injection Hstep as <-; cbn [r_counted w_counted] in *; intros Hctl'.
    all: split; [constructor; st_cbn; cbn [r_counted]; auto; try lia|st_cbn; lia].
    rewrite Hrw. reflexivity.
  - destruct wl; cbn in Hw; try lia; intros Hstep; try discriminate.
    all: try (destruct (acquire Writer _) eqn:Ha; [|discriminate];
              destruct (acquire_some _ _ _ Ha) as [Hm ->]).
    all: st_cbn; try rewrite Hnum in Hstep; cbn in Hstep.
    all: injection Hstep as <-; cbn [r_counted w_counted] in *; intros Hctl'.
    all: split; [constructor; st_cbn; cbn [w_counted]; auto; try lia|st_cbn; lia].
    rewrite Hww. reflexivity.
Qed.

Lemma no_block_exec (fout : out_file) (sched : list tid) (s s' : state) :
  no_block_inv fout s -> exec block_size 0 sched s = Some s' ->
  no_block_inv fout s'
  /\ r_rank (rpc (rd s')) + w_rank (wpc (wr s')) + Z.of_nat (length sched)
     <= r_rank (rpc (rd s)) + w_rank (wpc (wr s)).
Proof.
  revert s. induction sched as [|t r IH]; intros s Hinv Hex.
  - cbn in Hex. injection Hex as <-. split; auto. cbn. lia.
  - cbn [exec] in Hex.
    destruct (step_thread block_size 0 t s) as [s1|] eqn:Hst; [|discriminate].
    destruct (no_block_step _ _ _ _ Hinv Hst) as [Hinv1 Hlt].
    destruct (IH _ Hinv1 Hex) as [Hinv2 Hle].
    split; auto. cbn [length]. lia.
Qed.

End NoBlock.

(** X10. No blocks.  With [num_block = 0] (as after [-b 0], or after a
    [-b] whose argument is not a number), for every block size, source and
    destination, as long as [pthread_cond_wait] returns only on a signal: a
    run has at most 8 steps and no thread ever terminates, so [main] never
    returns; nothing is printed and nothing is written; and the only state
    in which nothing can move has both threads blocked in
    [pthread_cond_wait], each after counting one wait. *)
Theorem no_blocks_no_copy (block_size : Z)
    (fin : in_file) (fout : out_file) (m : mem) (ms : list move) (s : state) :
  signalled ms = true ->
  exec_moves block_size 0 ms (init_state 0 fin fout m) = Some s ->
  Z.of_nat (length ms) <= 8
  /\ main_exit s = None
  /\ log s = []
  /\ file_out (td s) = fout
  /\ (stuck block_size 0 s = true ->
      rpc (rd s) = R_waiting /\ wpc (wr s) = W_waiting
      /\ rwaits (td s) = 1 /\ wwaits (td s) = 1).
Proof.
  intros Hsig Hex. rewrite exec_moves_signalled in Hex by assumption.
  destruct (no_block_exec block_size fout _ _ _ (no_block_init fin fout m) Hex)
    as [[Hctl Hnum Hr Hw Hlog Hout Hrw Hww] Hle].
  cbn in Hle. rewrite length_threads in Hle.
  split; [lia|]. split.
  { unfold main_exit, terminated. destruct (statusWriter (td s)); auto.
    destruct (rpc (rd s)); cbn in Hr; try lia; reflexivity. }
  split; [exact Hlog|]. split; [exact Hout|].
  unfold stuck, step_reader, step_writer, acquire.
  rewrite Hrw, Hww. pose proof (ctl_owner _ _ Hctl) as Hown.
  destruct s as [tt mx [rl ri rr] [wl wi wr0] lg]. st_cbn.
  destruct rl; cbn in Hr; try lia; destruct wl; cbn in Hw; try lia;
    destruct mx as [[|]|]; cbn in *; try discriminate; auto.
Qed.

Lemma no_blocks_no_copy_witness :
  signalled (runs sched_no_block) = true
  /\ exec_moves 2 0 (runs sched_no_block) (init_state 0 src_abc dst_new mem_new)
     = Some (run 2 0 sched_no_block (init_state 0 src_abc dst_new mem_new))
  /\ stuck 2 0 (run 2 0 sched_no_block (init_state 0 src_abc dst_new mem_new))
     = true
  /\ main_exit (run 2 0 sched_no_block (init_state 0 src_abc dst_new mem_new))
     = None
  /\ wwaits (td (run 2 0 sched_no_block (init_state 0 src_abc dst_new mem_new)))
     = 1.
Proof.
  assert (H0 : signalled (runs sched_no_block) = true) by (vm_compute; reflexivity).
  assert (H1 : exec_moves 2 0 (runs sched_no_block)
                 (init_state 0 src_abc dst_new mem_new)
               = Some (run 2 0 sched_no_block
                         (init_state 0 src_abc dst_new mem_new)))
    by (apply is_run_runs; vm_compute; reflexivity).
  assert (H2 : stuck 2 0 (run 2 0 sched_no_block
                            (init_state 0 src_abc dst_new mem_new)) = true)
    by (vm_compute; reflexivity).
  destruct (no_blocks_no_copy 2 src_abc dst_new mem_new _ _ H0 H1)
    as (_ & A & _ & _ & B).
  destruct (B H2) as (_ & _ & _ & B4).
  split; [exact H0|]. split; [exact H1|]. split; [exact H2|].
  split; [exact A|exact B4].
Defined.


(** ** Empty blocks *)

Section NoSize.

Variable num_block : Z.
Hypothesis num_block_range : 1 <= num_block < 2 ^ 32.

Lemma no_size_init (fin : in_file) (fout : out_file) (m : mem) :
  in_bad fin = None -> no_size_inv num_block fout (init_state num_block fin fout m).
Proof.
  intros Hb. constructor; cbn -[Z.to_nat]; auto; try discriminate.
  - apply ctl_inv_init. lia.
  - rewrite repeat_length. lia.
Qed.

Lemma sys_read_nothing (f : in_file) (m : mem) (off : Z) :
  in_bad f = None ->
  fst (fst (sys_read f m off 0)) = 0
  /\ in_bad (snd (sys_read f m off 0)) = None.
Proof.
  intros Hb. unfold sys_read, in_fails, RW_MAX. rewrite Hb. cbn. split; auto. lia.
Qed.

Lemma sys_write_nothing (f : out_file) (m : mem) (off : Z) :
  accepts_empty f = true ->
  fst (sys_write f m off 0) = 0
  /\ out_cap (snd (sys_write f m off 0)) = out_cap f
  /\ out_pos (snd (sys_write f m off 0)) = out_pos f
  /\ (forall a, out_data (snd (sys_write f m off 0)) a = out_data f a)
  /\ out_dev (snd (sys_write f m off 0)) = out_dev f.
Proof.
  unfold sys_write, accepts_empty. intros Hacc.
  assert (E : Z.max 0 (match out_room f with
                       | Some room => Z.min (Z.min 0 RW_MAX) room
                       | None => Z.min 0 RW_MAX
                       end) = 0)
    by (unfold RW_MAX; destruct (out_room f); lia).
  rewrite E. clear E.
  replace (match out_room f with
           | Some room => (room <=? 0) && ((0 <? 0) || out_dev f)
           | None => false
           end) with false
    by (destruct (out_room f); cbn [Z.ltb Z.compare orb] in *; auto;
        now destruct ((_ <=? 0) && out_dev f)).
  cbn [fst snd out_cap out_pos out_data out_dev].
  repeat split; auto; try lia.
  intros a. unfold in_range.
  destruct (Z.leb_spec (out_pos f) a), (Z.ltb_spec a (out_pos f + 0));
    cbn [andb]; auto; lia.
Qed.

Lemma accepts_empty_same (f g : out_file) :
  out_cap f = out_cap g -> out_pos f = out_pos g -> out_dev f = out_dev g ->
  accepts_empty f = accepts_empty g.
Proof.
  intros H1 H2 H3. unfold accepts_empty, out_room. now rewrite H1, H2, H3.
Qed.

Ltac ns_fin :=
  st_cbn; cbn [r_single Z.eqb] in *;
  first [ assumption | reflexivity | discriminate | lia
        | intros [?|?]; discriminate
        | intros; first [ assumption | discriminate | lia | congruence ] ].

Lemma no_size_slot (fout : out_file) (s : state) :
  no_size_inv num_block fout s -> 1 <= numToWrite (td s) ->
  block_at (blocks (td s)) 0 = mkBlock 0 true.
Proof.
  intros Hinv Hge. apply (ns_slot _ _ _ Hinv).
  pose proof (ns_num _ _ _ Hinv) as Hnum.
  pose proof (r_pub_facts 0 0 (rpc (rd s))). lia.
Qed.

Lemma no_size_reader (fout : out_file) (s s' : state) :
  no_size_inv num_block fout s -> step_reader 0 num_block s = Some s' ->
  no_size_inv num_block fout s'
  /\ r_rank (rpc (rd s')) + w_rank (wpc (wr s'))
     < r_rank (rpc (rd s)) + w_rank (wpc (wr s)).
Proof.
  intros Hinv Hstep.
  pose proof (ctl_inv_reader 0 num_block ltac:(lia) _ _ (ns_ctl _ _ _ Hinv) Hstep)
    as Hctl'.
  revert Hstep Hctl'.
  destruct Hinv as [Hctl Hlen Hri Hwi Hrp Hwp Hbad Hnum Hret Hend Hslot Hwret
                      Hpub Hwrt Hq Hread Hcap Hpos Hdata Hdev].
  destruct s as [t m [rl ri rr] [wl wi wr0] lg]. unfold step_reader.
  st_cbn. cbn [r_single] in *. subst ri.
  destruct rl; try discriminate; intros Hstep; try discriminate.
  all: try (destruct (acquire Reader _) eqn:Ha; [|discriminate];
            destruct (acquire_some _ _ _ Ha) as [Hm ->]).
  all: try (pose proof (sys_read_nothing (file_in t) (buf t) (buf_idx 0 0) Hbad) as Hrn;
            destruct (sys_read _ _ _ _) as [[n1 m1] f1]; cbn [fst snd] in Hrn;
            destruct Hrn as [-> Hbad1]).
  all: st_cbn; unfold wake_writer in *.
  all: try rewrite Hnum in Hstep.
  all: try (replace (num_block <=? 0) with false in Hstep
             by (symmetry; apply Z.leb_gt; lia)).
  all: try (change (to_int 0) with 0 in Hstep; cbn [Z.eqb] in Hstep).
  all: try (rewrite (Hslot eq_refl) in Hstep; cbn [end_] in Hstep).
  all: injection Hstep as <-; intros Hctl'.
  all: try match goal with
           | |- context [match ?w with W_waiting => _ | _ => _ end] =>
               destruct w
           end.
  all: split; [|st_cbn; lia].
  all: constructor; try exact Hctl'; st_cbn; cbn [r_single Z.eqb] in *; try ns_fin.
  - (* R_case0 *) now rewrite length_set_end.
  - intros _. apply Hret. now left.
  - intros _. rewrite block_at_set_end by lia. reflexivity.
  - (* R_default *) now rewrite length_set_size.
  - intros _. rewrite block_at_set_size by lia. cbn [Z.eqb].
    rewrite (Hret (or_intror eq_refl)), (Hend eq_refl). reflexivity.
  - (* R_incr *) rewrite Hpub. reflexivity.
Qed.

Lemma no_size_writer (fout : out_file) (s s' : state) :
  accepts_empty fout = true ->
  no_size_inv num_block fout s -> step_writer 0 num_block s = Some s' ->
  no_size_inv num_block fout s'
  /\ r_rank (rpc (rd s')) + w_rank (wpc (wr s'))
     < r_rank (rpc (rd s)) + w_rank (wpc (wr s)).
Proof.
  intros Hacc Hinv Hstep.
  pose proof (ctl_inv_writer 0 num_block ltac:(lia) _ _ (ns_ctl _ _ _ Hinv) Hstep)
    as Hctl'.
  pose proof (no_size_slot _ _ Hinv) as Hblk.
  assert (Hacc' : accepts_empty (file_out (td s)) = true).
  { rewrite <- Hacc. apply accepts_empty_same;
      [apply (ns_cap _ _ _ Hinv)|apply (ns_pos _ _ _ Hinv)|apply (ns_dev _ _ _ Hinv)]. }
  pose proof (ctl_wgrant _ _ (ns_ctl _ _ _ Hinv)) as Hwg.
  revert Hstep Hctl'. revert Hacc'.
  destruct Hinv as [Hctl Hlen Hri Hwi Hrp Hwp Hbad Hnum Hret Hend Hslot Hwret
                      Hpub Hwrt Hq Hread Hcap Hpos Hdata Hdev].
  destruct s as [t m [rl ri rr] [wl wi wr0] lg]. unfold step_writer.
  st_cbn. cbn [w_granted] in *. subst wi. intros Hacc'.
  destruct wl; try discriminate; intros Hstep; try discriminate.
  all: try (destruct (acquire Writer _) eqn:Ha; [|discriminate];
            destruct (acquire_some _ _ _ Ha) as [Hm ->]).
  all: try (rewrite (Hblk (Hwg eq_refl)) in Hstep; cbn [size end_] in Hstep).
  all: try (pose proof (sys_write_nothing (file_out t) (buf t) (buf_idx 0 0) Hacc')
              as Hwn;
            destruct (sys_write _ _ _ _) as [n1 f1]; cbn [fst snd] in Hwn;
            destruct Hwn as (-> & Hc1 & Hp1 & Hd1 & Hv1)).
  all: st_cbn; unfold wake_reader in *.
  all: try (change (to_int 0) with 0 in Hstep; cbn [Z.eqb] in Hstep).
  all: try (rewrite (Hwret eq_refl) in Hstep;
            change (wrap64 0) with 0 in Hstep; cbn [Z.eqb] in Hstep).
  all: try match type of Hstep with
           | context [if ?c then _ else _] => destruct c eqn:?
           end.
  all: injection Hstep as <-; intros Hctl'.
  all: split; [|st_cbn; lia].
  all: constructor; try exact Hctl'; st_cbn; cbn [r_single Z.eqb] in *; try ns_fin.
  all: try (intros a; rewrite Hd1; apply Hdata).
  - (* W_write *) rewrite Hwrt.
    pose proof (ctl_wgrant _ _ Hctl') as G. specialize (G eq_refl). st_cbn.
    destruct (w_wr W_write =? 1) eqn:E; [discriminate|reflexivity].
Qed.

Lemma no_size_exec (fout : out_file) (sched : list tid) (s s' : state) :
  accepts_empty fout = true ->
  no_size_inv num_block fout s -> exec 0 num_block sched s = Some s' ->
  no_size_inv num_block fout s'
  /\ r_rank (rpc (rd s')) + w_rank (wpc (wr s')) + Z.of_nat (length sched)
     <= r_rank (rpc (rd s)) + w_rank (wpc (wr s)).
Proof.
  intros Hacc. revert s. induction sched as [|t r IH]; intros s Hinv Hex.
  - cbn in Hex. injection Hex as <-. split; auto. cbn. lia.
  - cbn [exec] in Hex.
    destruct (step_thread 0 num_block t s) as [s1|] eqn:Hst; [|discriminate].
    assert (H1 : no_size_inv num_block fout s1
                 /\ r_rank (rpc (rd s1)) + w_rank (wpc (wr s1))
                    < r_rank (rpc (rd s)) + w_rank (wpc (wr s))).
    { destruct t; cbn [step_thread] in Hst.
      - eapply no_size_reader; eauto.
      - eapply no_size_writer; eauto. }
    destruct H1 as [Hinv1 Hlt].
    destruct (IH _ Hinv1 Hex) as [Hinv2 Hle].
    split; auto. cbn [length]. lia.
Qed.

Lemma no_size_progress (fout : out_file) (s : state) :
  no_size_inv num_block fout s -> terminated s = false ->
  exists t s', step_thread 0 num_block t s = Some s'.
Proof.
  intros [Hctl _ _ _ Hrp Hwp _ Hnum _ _ _ _ _ _ _ _ _ _ _ _].
  destruct Hctl as [Hb _ _ _ _ _ _ Hown _ Hrw _ Hww].
  destruct s as [t m [rl ri rr] [wl wi wr0] lg].
  unfold terminated, step_thread, step_reader, step_writer, acquire in *.
  st_cbn. cbn [r_single] in *.
  intros Hterm.
  assert (Hn0 : (num_block =? 0) = false) by (apply Z.eqb_neq; lia).
  destruct rl; try discriminate;
    try (exists Reader; cbn; try (destruct (sys_read _ _ _ _) as [[? ?] ?]);
         eexists; reflexivity).
  all: destruct m as [[|]|]; try discriminate;
    try (exists Reader; cbn; eexists; reflexivity).
  all: destruct wl; try discriminate;
    try (exists Writer; cbn; try (destruct (sys_write _ _ _ _) as [? ?]);
         eexists; reflexivity).
  all: exfalso; cbn in *.
  all: try (destruct (Hww eq_refl) as [He|He]; [|discriminate]); try lia.
Qed.

End NoSize.

(** X11. Empty blocks.  With [block_size = 0], a readable source of any
    length, a destination on which a [write] of zero bytes succeeds, and
    [pthread_cond_wait] returning only on a signal: every run is finite (at
    most 36 steps) and free of deadlock, and ends with exactly one slot
    published, slot 0 with size 0 and the [end] flag, one [write] of zero
    bytes, no message, [td->read = 0] and the destination exactly as it was
    opened; the exit status is 0 unless the source is empty, in which case
    there is none: nothing is copied and nothing is reported. *)
Theorem no_block_size_no_copy (num_block : Z)
    (fin : in_file) (fout : out_file) (m : mem) (ms : list move) (s : state) :
  1 <= num_block < 2 ^ 32 -> in_bad fin = None ->
  accepts_empty fout = true ->
  signalled ms = true ->
  exec_moves 0 num_block ms (init_state num_block fin fout m) = Some s ->
  Z.of_nat (length ms) <= 36
  /\ (terminated s = false -> exists t s', step_thread 0 num_block t s = Some s')
  /\ (terminated s = true ->
      published (log s) = [(0, mkBlock 0 true)]
      /\ written (log s) = [(0, 0)]
      /\ forallb quiet_event (log s) = true
      /\ read (td s) = 0
      /\ out_pos (file_out (td s)) = out_pos fout
      /\ (forall a, out_data (file_out (td s)) a = out_data fout a)
      /\ main_exit s = if in_len fin =? 0 then None else Some 0).
Proof.
  intros Hn Hbad Hacc Hsig Hex. rewrite exec_moves_signalled in Hex by assumption.
  destruct (no_size_exec num_block Hn fout _ _ _ Hacc
              (no_size_init num_block Hn fin fout m Hbad) Hex) as [Hinv Hle].
  cbn in Hle. rewrite length_threads in Hle.
  assert (0 <= r_rank (rpc (rd s))) by (destruct (rpc (rd s)); cbn; lia).
  assert (0 <= w_rank (wpc (wr s))) by (destruct (wpc (wr s)); cbn; lia).
  split; [lia|]. split; [now apply (no_size_progress num_block Hn fout)|].
  intros Hterm.
  destruct Hinv as [_ _ _ _ _ _ _ _ _ _ _ _ Hpub Hwrt Hq Hread _ Hpos Hdata _].
  assert (Hexit : main_exit s = if in_len fin =? 0 then None else Some 0).
  { unfold main_exit, statusWriter.
    rewrite Hterm, (fsize_reachable _ _ _ _ (exec_reachable _ _ _ _ _ Hex)). cbn.
    now destruct (in_len fin =? 0). }
  unfold terminated in Hterm.
  destruct (rpc (rd s)); try discriminate.
  destruct (wpc (wr s)); try discriminate.
  cbn in Hpub, Hwrt. repeat split; auto.
Qed.

Lemma no_block_size_no_copy_witness :
  signalled (runs sched_one_slot) = true
  /\ exec_moves 0 1 (runs sched_one_slot) (init_state 1 src_abc dst_new mem_new)
     = Some (run 0 1 sched_one_slot (init_state 1 src_abc dst_new mem_new))
  /\ terminated (run 0 1 sched_one_slot (init_state 1 src_abc dst_new mem_new))
     = true
  /\ out_pos (file_out (td (run 0 1 sched_one_slot
                              (init_state 1 src_abc dst_new mem_new))))
     = out_pos dst_new
  /\ main_exit (run 0 1 sched_one_slot (init_state 1 src_abc dst_new mem_new))
     = Some 0.
Proof.
  assert (H1 : 1 <= 1 < 2 ^ 32) by lia.
  assert (H2 : in_bad src_abc = None) by reflexivity.
  assert (H2' : accepts_empty dst_new = true) by reflexivity.
  assert (Hs : signalled (runs sched_one_slot) = true) by (vm_compute; reflexivity).
  assert (H3 : exec_moves 0 1 (runs sched_one_slot)
                 (init_state 1 src_abc dst_new mem_new)
               = Some (run 0 1 sched_one_slot
                         (init_state 1 src_abc dst_new mem_new)))
    by (apply is_run_runs; vm_compute; reflexivity).
  assert (H4 : terminated (run 0 1 sched_one_slot
                             (init_state 1 src_abc dst_new mem_new)) = true)
    by (vm_compute; reflexivity).
  destruct (no_block_size_no_copy 1 src_abc dst_new mem_new _ _ H1 H2 H2' Hs H3)
    as (_ & _ & A).
  destruct (A H4) as (_ & _ & _ & _ & A5 & _ & A7).
  split; [exact Hs|]. split; [exact H3|]. split; [exact H4|].
  split; [exact A5|exact A7].
Defined.


(** ** A reader that never waits *)

Section NeverWaits.

Variables bs n L : Z.
Variable data : Z -> byte.
Hypothesis Hbs : 1 <= bs < 2 ^ 32.
Hypothesis Hn : 1 <= n < 2 ^ 32.
Hypothesis HL : 0 <= L.
Hypothesis Hint : Z.min bs L < 2 ^ 31.
Hypothesis Hcall : Z.min bs L <= RW_MAX.
Hypothesis Hidx : forall i, 0 <= i < n -> (i - 1) * bs < L -> i * bs < 2 ^ 32.
Hypothesis Hroom : L <= (n - 1) * bs.




End NeverWaits.




(** ** The progress counters and the status line *)

Section Progress.

Variables bs n L : Z.
Variable data : Z -> byte.
Hypothesis Hbs : 1 <= bs < 2 ^ 32.
Hypothesis Hn : 1 <= n < 2 ^ 32.
Hypothesis HL : 0 <= L.
Hypothesis Hint : Z.min bs L < 2 ^ 31.
Hypothesis Hcall : Z.min bs L <= RW_MAX.
Hypothesis Hidx : forall i, 0 <= i < n -> (i - 1) * bs < L -> i * bs < 2 ^ 32.

Lemma count_slots (p : Z) : 0 <= p -> count (slots bs n L p) = p.
Proof.
  intros Hp. unfold count, slots. rewrite length_map, length_seq. lia.
Qed.

(** The rounds of the invariant can be read off the history. *)
Lemma copy_inv_rounds (rk wk : Z) (s : state) :
  copy_inv bs n L data rk wk s ->
  rk = count (published (log s)) - r_pub (rpc (rd s))
  /\ wk = count (consumed (log s)) - w_cons (wpc (wr s)).
Proof.
  intros Hinv.
  destruct (ci_rk _ _ _ _ _ _ _ Hinv) as [Hr0 _].
  destruct (ci_wk _ _ _ _ _ _ _ Hinv) as [Hw0 _].
  rewrite (ci_pub _ _ _ _ _ _ _ Hinv), (ci_cons _ _ _ _ _ _ _ Hinv).
  assert (0 <= r_pub (rpc (rd s))) by (destruct (rpc (rd s)); cbn; lia).
  assert (0 <= w_cons (wpc (wr s))) by (destruct (wpc (wr s)); cbn; lia).
  rewrite !count_slots by lia. lia.
Qed.

Lemma fpos_range (k : Z) : 0 <= k -> 0 <= fpos bs L k <= L.
Proof. intros Hk. unfold fpos. nia. Qed.

Lemma fpos_mono (k k' : Z) : k <= k' -> fpos bs L k <= fpos bs L k'.
Proof.
  intros Hk. unfold fpos.
  assert (k * bs <= k' * bs) by (apply Z.mul_le_mono_nonneg_r; lia). lia.
Qed.

Lemma sz_antitone (k k' : Z) : 0 <= k <= k' -> sz bs L k' <= sz bs L k.
Proof.
  intros Hk. unfold sz, fpos.
  assert (k * bs <= k' * bs) by (apply Z.mul_le_mono_nonneg_r; lia).
  assert ((k + 1) * bs = k * bs + bs) by lia.
  assert ((k' + 1) * bs = k' * bs + bs) by lia.
  lia.
Qed.


Lemma progress_inv_init (fin : in_file) (fout : out_file) (m : mem) :
  progress_inv bs n L 0 0 (init_state n fin fout m).
Proof.
  constructor; cbn -[Z.to_nat].
  - unfold fpos. lia.
  - discriminate.
Qed.

Ltac pg_rounds rk wk rk' wk' Er' Ew' :=
  st_cbn; rewrite ?count_snoc in *;
  first [ assert (rk' = rk) by lia | assert (rk' = rk + 1) by lia ];
  first [ assert (wk' = wk) by lia | assert (wk' = wk + 1) by lia ];
  clear Er' Ew'; subst rk' wk'.

Ltac pg_same Hwrote Hslot :=
  constructor; st_cbn;
  [ exact Hwrote
  | let A := fresh in let B := fresh in
    intros A B; rewrite ?size_set_end; apply Hslot; [exact A|lia] ].

Lemma progress_inv_step (rk wk rk' wk' : Z) (t : tid) (s s' : state) :
  copy_inv bs n L data rk wk s -> progress_inv bs n L rk wk s ->
  step_thread bs n t s = Some s' ->
  copy_inv bs n L data rk' wk' s' ->
  progress_inv bs n L rk' wk' s'.
Proof.
  intros Hinv [Hwrote Hslot] Hstep Hinv'.
  destruct (copy_inv_rounds _ _ _ Hinv) as [Er Ew].
  destruct (copy_inv_rounds _ _ _ Hinv') as [Er' Ew'].
  pose proof (ci_num _ _ _ _ _ _ _ Hinv) as Hnum.
  pose proof (ctl_bound _ _ (ci_ctl _ _ _ _ _ _ _ Hinv)) as Hb.
  pose proof (ctl_wgrant _ _ (ci_ctl _ _ _ _ _ _ _ Hinv)) as Hwg.
  pose proof (ctl_rgrant _ _ (ci_ctl _ _ _ _ _ _ _ Hinv)) as Hrg.
  pose proof (ci_len _ _ _ _ _ _ _ Hinv) as Hlen.
  pose proof (ci_size _ _ _ _ _ _ _ Hinv) as Hsize.
  pose proof (ci_ridx _ _ _ _ _ _ _ Hinv) as Hri.
  pose proof (ci_widx _ _ _ _ _ _ _ Hinv) as Hwi.
  pose proof (ci_noerr _ _ _ _ _ _ _ Hinv) as Hne.
  destruct (ci_rk _ _ _ _ _ _ _ Hinv) as [Hr0 _].
  destruct (ci_wk _ _ _ _ _ _ _ Hinv) as [Hw0 _].
  pose proof (r_pub_facts 0 0 (rpc (rd s))) as Hpf.
  pose proof (Z.mod_pos_bound rk n ltac:(lia)) as Hrm.
  pose proof (Z.mod_pos_bound wk n ltac:(lia)) as Hwm.
  clear Hinv Hinv'. revert Hstep.
  destruct s as [tt m [rl ri rr] [wl wi wr0] lg].
  st_cbn. cbn [r_granted w_granted] in *.
  destruct t; cbn [step_thread]; unfold step_reader, step_writer; st_cbn.
  - destruct rl; try discriminate; intros Hstep; try discriminate.
    all: try (destruct (acquire Reader _) eqn:Ha; [|discriminate];
              destruct (acquire_some _ _ _ Ha) as [Hm ->]).
    all: try (destruct (sys_read _ _ _ _) as [[n1 m1] f1]).
    all: try (destruct (n =? 0); [discriminate|]).
    all: st_cbn; unfold wake_writer in *.
    all: split_ifs; injection Hstep as <-.
    all: try match goal with
             | H : context [match ?w with W_waiting => _ | _ => _ end] |- _ =>
                 destruct w
             end.
    all: pg_rounds rk wk rk' wk' Er' Ew'.
    all: try (pg_same Hwrote Hslot; fail).
    + (* R_default *)
      constructor; st_cbn; [exact Hwrote|].
      intros A B. rewrite block_at_set_size by lia.
      replace (wk mod n =? ri) with false.
      * apply Hslot; [exact A|lia].
      * symmetry. apply Z.eqb_neq. subst ri.
        apply mod_window; [lia|]. specialize (Hrg eq_refl). lia.
  - destruct wl; try discriminate; intros Hstep; try discriminate.
    all: try (destruct (acquire Writer _) eqn:Ha; [|discriminate];
              destruct (acquire_some _ _ _ Ha) as [Hm ->]).
    all: try (destruct (sys_write _ _ _ _) as [n1 f1]).
    all: try (destruct (n =? 0); [discriminate|]).
    all: st_cbn; unfold wake_reader in *.
    all: split_ifs; injection Hstep as <-.
    all: try match goal with
             | H : context [match ?w with R_waiting => _ | _ => _ end] |- _ =>
                 destruct w
             end.
    all: pg_rounds rk wk rk' wk' Er' Ew'.
    all: try (pg_same Hwrote Hslot; fail).
    all: try (constructor; st_cbn; [exact Hwrote|discriminate]).
    + (* W_decr *)
      constructor; st_cbn; [exact Hwrote|].
      intros _ _. subst wi. apply Hsize. specialize (Hwg eq_refl). lia.
    + (* W_acc *)
      constructor; st_cbn; [|discriminate].
      subst wi.
      assert (Hs : 0 <= size (block_at (blocks tt) (wk mod n)) <= sz bs L wk).
      { pose proof (sz_range bs L) as Rg. feed Rg.
        pose proof (Rg wk Hw0) as R0.
        destruct (Z_le_gt_dec (rk + r_meta rl) (wk + n)) as [Hle|Hgt].
        - rewrite (Hslot eq_refl Hle). lia.
        - pose proof (Hsize (wk + n) ltac:(lia)) as E.
          replace ((wk + n) mod n) with (wk mod n) in E
            by (rewrite <- (Z_mod_plus_full wk 1 n); f_equal; lia).
          rewrite E.
          pose proof (Rg (wk + n) ltac:(lia)).
          pose proof (sz_antitone wk (wk + n) ltac:(lia)). lia. }
      assert (Hf : fpos bs L (wk + 1) = fpos bs L wk + sz bs L wk)
        by (unfold sz; lia).
      unfold wrap64.
      pose proof (Z.mod_pos_bound (wrote tt + size (block_at (blocks tt) (wk mod n)))
                    (2 ^ 64) ltac:(lia)).
      pose proof (Z.mod_le (wrote tt + size (block_at (blocks tt) (wk mod n)))
                    (2 ^ 64) ltac:(lia) ltac:(lia)).
      lia.
Qed.

(** Both invariants along a run. *)
Lemma progress_inv_exec (sched : list tid) (s0 s : state) (rk0 wk0 : Z) :
  copy_inv bs n L data rk0 wk0 s0 -> progress_inv bs n L rk0 wk0 s0 ->
  exec bs n sched s0 = Some s ->
  exists rk wk, copy_inv bs n L data rk wk s /\ progress_inv bs n L rk wk s.
Proof.
  revert s0 rk0 wk0.
  induction sched as [|t r IH]; intros s0 rk0 wk0 H0 P0 Hex; cbn [exec] in Hex.
  - injection Hex as <-. exists rk0, wk0. split; assumption.
  - destruct (step_thread bs n t s0) as [s1|] eqn:Hst; [|discriminate].
    pose proof (copy_inv_step bs n L data) as Hcs. feed Hcs.
    destruct (Hcs _ _ _ _ _ H0 Hst) as (rk' & wk' & Hinv' & _).
    apply (IH s1 rk' wk'); auto.
    apply (progress_inv_step rk0 wk0 rk' wk' t s0 s1); assumption.
Qed.

End Progress.

(** X13. The status line.  In a copy without errors of a non-empty source
    with [100 * L < 2^64], with [block_size] at most [RW_MAX], slot offsets
    that fit and [pthread_cond_wait] returning only on a signal: in every
    state of every run the line printed by [statusWriter] is defined, both
    percentages lie between 0 and 100, [td->read] is at most [L],
    [td->wrote] never exceeds the number of bytes written to the
    destination, which is at most [L]; and once both threads have
    terminated the read percentage is 100. *)
Theorem status_line_within_bounds (block_size num_block : Z)
    (fin : in_file) (fout : out_file) (m : mem) (ms : list move) (s : state) :
  1 <= block_size <= RW_MAX -> 1 <= num_block < 2 ^ 32 ->
  (num_block - 1) * block_size < 2 ^ 32 ->
  0 < in_len fin -> in_len fin * 100 < 2 ^ 64 -> in_bad fin = None ->
  out_cap fout = None -> out_pos fout = 0 ->
  signalled ms = true ->
  exec_moves block_size num_block ms (init_state num_block fin fout m) = Some s ->
  exists p q,
    statusWriter (td s) = Some (p, q, rwaits (td s), wwaits (td s))
    /\ 0 <= p <= 100 /\ 0 <= q <= 100
    /\ 0 <= read (td s) <= in_len fin
    /\ 0 <= wrote (td s) <= out_pos (file_out (td s))
    /\ out_pos (file_out (td s)) <= in_len fin
    /\ (terminated s = true -> p = 100).
Proof.
  intros Hbs Hn Hfit HL H100 Hbad Hcap Hpos Hsig Hex.
  rewrite exec_moves_signalled in Hex by assumption.
  assert (Hf : fits block_size num_block (in_len fin)) by (apply fits_small; lia).
  destruct Hf as [Hcall Hidx].
  assert (Hint : Z.min block_size (in_len fin) < 2 ^ 31)
    by (unfold RW_MAX in Hcall; lia).
  assert (Hbs' : 1 <= block_size < 2 ^ 32) by (unfold RW_MAX in Hbs; lia).
  assert (HL0 : 0 <= in_len fin) by lia.
  assert (H0 : copy_inv block_size num_block (in_len fin) (in_data fin) 0 0
                 (init_state num_block fin fout m))
    by (apply copy_inv_init; auto; lia).
  pose proof (progress_inv_exec block_size num_block (in_len fin) (in_data fin))
    as Hx.
  feed Hx.
  pose proof (progress_inv_init block_size num_block (in_len fin)) as Hp0.
  feed Hp0.
  destruct (Hx _ _ s 0 0 H0 (Hp0 fin fout m) Hex) as (rk & wk & Hinv & [Hwrote _]).
  destruct (ci_rk _ _ _ _ _ _ _ Hinv) as [Hr0 Hr1].
  destruct (ci_wk _ _ _ _ _ _ _ Hinv) as [Hw0 _].
  pose proof (ci_read _ _ _ _ _ _ _ Hinv) as Hread.
  pose proof (ci_fsize _ _ _ _ _ _ _ Hinv) as Hfs.
  pose proof (ci_opos _ _ _ _ _ _ _ Hinv) as Hop.
  pose proof (ci_rdone _ _ _ _ _ _ _ Hinv) as Hrd.
  pose proof (fpos_range block_size (in_len fin)) as Fr. feed Fr.
  pose proof (fpos_mono block_size (in_len fin)) as Fm. feed Fm.
  assert (0 <= w_wr (wpc (wr s))) by (destruct (wpc (wr s)); cbn; lia).
  pose proof (Fr rk Hr0). pose proof (Fr wk Hw0).
  pose proof (Fr (wk + w_wr (wpc (wr s))) ltac:(lia)).
  pose proof (Fm wk (wk + w_wr (wpc (wr s))) ltac:(lia)).
  rewrite wrap64_small in Hread by lia.
  unfold statusWriter. rewrite Hfs.
  replace (in_len fin =? 0) with false by (symmetry; apply Z.eqb_neq; lia).
  eexists; eexists; split; [reflexivity|].
  rewrite !wrap64_small by lia. rewrite Hop, Hread.
  assert (D : forall x, 0 <= x <= in_len fin -> 0 <= x * 100 / in_len fin <= 100).
  { intros x Hx'. split.
    - apply Z.div_pos; lia.
    - apply Z.div_le_upper_bound; lia. }
  repeat split; try lia; try (apply D; lia).
  intros Hterm. unfold terminated in Hterm.
  destruct (rpc (rd s)); try discriminate. specialize (Hrd eq_refl).
  replace (fpos block_size (in_len fin) rk) with (in_len fin)
    by (unfold fpos; lia).
  rewrite Z.mul_comm. apply Z.div_mul; lia.
Qed.

Lemma status_line_within_bounds_witness :
  signalled (runs sched_to_write) = true
  /\ exec_moves 2 1 (runs sched_to_write) (init_state 1 src_abc dst_new mem_new)
     = Some (run 2 1 sched_to_write (init_state 1 src_abc dst_new mem_new))
  /\ exists p q,
       statusWriter (td (run 2 1 sched_to_write
                           (init_state 1 src_abc dst_new mem_new)))
       = Some (p, q,
               rwaits (td (run 2 1 sched_to_write
                             (init_state 1 src_abc dst_new mem_new))),
               wwaits (td (run 2 1 sched_to_write
                             (init_state 1 src_abc dst_new mem_new))))
       /\ 0 <= p <= 100 /\ 0 <= q <= 100.
Proof.
  assert (H1 : 1 <= 2 <= RW_MAX) by (unfold RW_MAX; lia).
  assert (H2 : 1 <= 1 < 2 ^ 32) by lia.
  assert (H3 : (1 - 1) * 2 < 2 ^ 32) by lia.
  assert (H4 : 0 < in_len src_abc) by (cbn; lia).
  assert (H5 : in_len src_abc * 100 < 2 ^ 64) by (cbn; lia).
  assert (H6 : in_bad src_abc = None) by reflexivity.
  assert (H7 : out_cap dst_new = None) by reflexivity.
  assert (H8 : out_pos dst_new = 0) by reflexivity.
  assert (Hs : signalled (runs sched_to_write) = true) by (vm_compute; reflexivity).
  assert (H9 : exec_moves 2 1 (runs sched_to_write)
                 (init_state 1 src_abc dst_new mem_new)
               = Some (run 2 1 sched_to_write (init_state 1 src_abc dst_new mem_new)))
    by (apply is_run_runs; vm_compute; reflexivity).
  destruct (status_line_within_bounds 2 1 src_abc dst_new mem_new _ _
              H1 H2 H3 H4 H5 H6 H7 H8 Hs H9) as (p & q & A & B & C & _).
  split; [exact Hs|]. split; [exact H9|].
  exists p, q. split; [exact A|]. split; [exact B|exact C].
Defined.


(** ** The bytes before a failed read *)

Section BadSource.

Variables bs n N : Z.
Hypothesis Hbs : 1 <= bs < 2 ^ 31.
Hypothesis Hrw : bs <= RW_MAX.
Hypothesis Hn : 1 <= n < 2 ^ 32.

Ltac sb_open :=
  intros [Hbf Hnum Hout Hmx Hwr Hdat Hpos Hbad Hins Hgood Hlen Hblen Hri
          Hearly Hlate Hlog];
  st_cbn; subst.

Ltac sb_fin :=
  st_cbn; cbn [filter quiet_event r_failed] in *;
  first [ assumption | reflexivity | discriminate | congruence | lia
        | intros _; split; reflexivity
        | intros; discriminate ].

Lemma sim_bad_reader (s s' s1' : state) :
  0 <= ridx (rd s) < Z.of_nat (length (blocks (td s))) ->
  (rpc (rd s') = R_chkend ->
   end_ (block_at (blocks (td s')) (ridx (rd s'))) = false) ->
  sim_bad N s s' -> step_reader bs n s' = Some s1' ->
  exists s1, (s1 = s \/ step_reader bs n s = Some s1) /\ sim_bad N s1 s1'.
Proof.
  destruct s as [[bl bf num fi fo rdc wrc fs rw ww] mx [rl ri rr] [wl wi wr0] lg].
  destruct s' as [[bl' bf' num' fi' fo' rdc' wrc' fs' rw' ww'] mx' [rl' ri' rr']
                    [wl' wi' wr0'] lg'].
  destruct fi as [len dat bad pos]. destruct fi' as [len' dat' bad' pos'].
  st_cbn. intros Hidx Hflag. sb_open. injection Hwr as -> -> ->.
  unfold step_reader, acquire. st_cbn.
  destruct rl'; cbn [r_failed] in *; intros Hstep; try discriminate.
  (* before the failure *)
  all: try (destruct (Hearly eq_refl) as [Hrd ->]; injection Hrd as <- ->;
            clear Hearly Hlate).
  all: try (destruct (Hlate eq_refl) as (-> & Hfail & Hagree);
            clear Hearly Hlate).
  all: try (destruct mx; [discriminate|]).
  all: try (destruct (n =? 0); [discriminate|]).
  all: cbn [option_map] in *; unfold wake_writer in *; st_cbn.
  7: { (* R_read *)
    unfold sys_read, in_fails, in_limit in *. st_cbn.
    rewrite (Z.min_l bs RW_MAX) in * by lia.
    destruct (Z.leb_spec N pos) as [Hf|Hf].
    - (* the read fails: the other run stands still *)
      change (to_int (-1) =? -1) with true in Hstep. cbn iota in Hstep.
      injection Hstep as <-.
      eexists; split; [left; reflexivity|].
      constructor; try sb_fin.
      intros _. st_cbn. repeat split; auto.
    - rewrite (Z.min_l N len') in Hstep by lia.
      assert (Hk : 1 <= Z.max 0 (Z.min bs (N - pos)) < 2 ^ 31) by lia.
      rewrite (to_int_small (Z.max 0 (Z.min bs (N - pos)))) in * by lia.
      replace (Z.max 0 (Z.min bs (N - pos)) =? -1) with false in *
        by (symmetry; apply Z.eqb_neq; lia).
      replace (Z.max 0 (Z.min bs (N - pos)) =? 0) with false in *
        by (symmetry; apply Z.eqb_neq; lia).
      injection Hstep as <-.
      eexists; split; [right; reflexivity|].
      constructor; try sb_fin. }
  all: split_ifs; injection Hstep as <-.
  all: try (specialize (Hflag eq_refl); congruence).
  all: try (eexists; split; [right; reflexivity|];
            try match goal with
                | |- context [match ?w with W_waiting => _ | _ => _ end] =>
                    destruct w
                end;
            constructor; sb_fin; fail).
  all: eexists; (split; [left; reflexivity|]).
  all: constructor; try sb_fin.
  all: st_cbn; rewrite ?length_set_end, ?length_set_size; auto.
  all: intros _; repeat split; auto.
  all: intros j Hj0 Hj;
    rewrite ?block_at_set_end, ?block_at_set_size by lia;
    replace (j =? ri) with false by (symmetry; apply Z.eqb_neq; lia); auto.
Qed.

Lemma sim_bad_writer (s s' s1' : state) :
  0 <= widx (wr s) ->
  (rpc (rd s) = R_read -> w_granted (wpc (wr s)) = true ->
   widx (wr s) <> ridx (rd s)) ->
  sim_bad N s s' -> step_writer bs n s' = Some s1' ->
  exists s1, step_writer bs n s = Some s1 /\ sim_bad N s1 s1'.
Proof.
  destruct s as [[bl bf num fi fo rdc wrc fs rw ww] mx [rl ri rr] [wl wi wr0] lg].
  destruct s' as [[bl' bf' num' fi' fo' rdc' wrc' fs' rw' ww'] mx' [rl' ri' rr']
                    [wl' wi' wr0'] lg'].
  destruct fi as [len dat bad pos]. destruct fi' as [len' dat' bad' pos'].
  st_cbn. intros Hwi Hapart. sb_open. injection Hwr as -> -> ->.
  unfold step_writer, acquire. st_cbn.
  destruct (r_failed rl') eqn:Ph.
  - (* after the failure *)
    destruct (Hlate eq_refl) as (-> & Hfail & Hagree). clear Hearly Hlate.
    specialize (Hapart eq_refl).
    destruct wl; cbn [w_granted] in *; intros Hstep; try discriminate.
    all: try (rewrite (Hagree wi Hwi (Hapart eq_refl)) in Hstep).
    all: try (destruct mx; [discriminate|]).
    all: try (destruct (sys_write _ _ _ _) as [n1 f1]).
    all: try (destruct (n =? 0); [discriminate|]).
    all: cbn [option_map] in *; unfold wake_reader in *; st_cbn.
    all: try match goal with
             | H : context [match ?r with R_waiting => _ | _ => _ end] |- _ =>
                 destruct r; try discriminate
             end.
    all: split_ifs; injection Hstep as <-.
    all: eexists; (split; [reflexivity|]).
    all: constructor; try sb_fin.
    all: st_cbn; try (intros E; congruence).
    all: intros _; repeat split; assumption.
  - (* before the failure *)
    destruct (Hearly eq_refl) as [Hrd ->]. injection Hrd as -> ->.
    clear Hearly Hlate.
    destruct wl; cbn [w_granted] in *; intros Hstep; try discriminate.
    all: try (destruct mx; [discriminate|]).
    all: try (destruct (sys_write _ _ _ _) as [n1 f1]).
    all: try (destruct (n =? 0); [discriminate|]).
    all: cbn [option_map] in *; unfold wake_reader in *; st_cbn.
    all: try match goal with
             | H : context [match ?r with R_waiting => _ | _ => _ end] |- _ =>
                 destruct r; try discriminate
             end.
    all: split_ifs; injection Hstep as <-.
    all: eexists; (split; [reflexivity|]).
    all: constructor; try sb_fin.
    all: st_cbn; try (intros E; congruence).
Qed.

End BadSource.

Section BadSourceRun.

Variables bs n N : Z.
Variable data : Z -> byte.
Hypothesis Hbs : 1 <= bs < 2 ^ 31.
Hypothesis Hrw : bs <= RW_MAX.
Hypothesis Hbs' : 1 <= bs < 2 ^ 32.
Hypothesis Hn : 1 <= n < 2 ^ 32.
Hypothesis HN : 0 <= N.
Hypothesis Hint : Z.min bs N < 2 ^ 31.
Hypothesis Hcall : Z.min bs N <= RW_MAX.
Hypothesis Hidx : forall i, 0 <= i < n -> (i - 1) * bs < N -> i * bs < 2 ^ 32.

(** While the reader is about to read, a slot the writer has been let
    through to is not the one under the reader's cursor. *)
Lemma copy_inv_apart (rk wk : Z) (s : state) :
  copy_inv bs n N data rk wk s ->
  0 <= ridx (rd s) < Z.of_nat (length (blocks (td s)))
  /\ 0 <= widx (wr s)
  /\ (rpc (rd s) = R_read -> w_granted (wpc (wr s)) = true ->
      widx (wr s) <> ridx (rd s)).
Proof.
  intros Hinv.
  pose proof (ci_ctl _ _ _ _ _ _ _ Hinv) as Hctl.
  pose proof (ctl_wgrant _ _ Hctl) as Hwg.
  pose proof (ctl_rgrant _ _ Hctl) as Hrg.
  pose proof (ci_num _ _ _ _ _ _ _ Hinv) as Hnum.
  rewrite (ci_ridx _ _ _ _ _ _ _ Hinv), (ci_widx _ _ _ _ _ _ _ Hinv),
    (ci_len _ _ _ _ _ _ _ Hinv).
  pose proof (Z.mod_pos_bound rk n ltac:(lia)).
  pose proof (Z.mod_pos_bound wk n ltac:(lia)).
  split; [lia|]. split; [lia|].
  intros Er Gw. rewrite Er in *. cbn [r_pub r_granted] in *.
  specialize (Hwg Gw). specialize (Hrg eq_refl).
  assert (w_rel (wpc (wr s)) = 0) by (destruct (wpc (wr s)); try discriminate; reflexivity).
  apply mod_window; lia.
Qed.

Lemma hang_inv_chkend (hk hw : Z) (s : state) :
  hang_inv n N hk hw s -> rpc (rd s) = R_chkend ->
  end_ (block_at (blocks (td s)) (ridx (rd s))) = false.
Proof.
  intros Hinv Hpc.
  destruct (end_ (block_at (blocks (td s)) (ridx (rd s)))) eqn:E; [|reflexivity].
  pose proof (Z.mod_pos_bound hk n ltac:(lia)) as Hm.
  rewrite <- (hi_ridx _ _ _ _ _ Hinv) in Hm.
  destruct (hi_flag _ _ _ _ _ Hinv _ Hm E) as [_ [H|H]]; congruence.
Qed.

Lemma sim_bad_exec (sched : list tid) (rk wk hk hw : Z) (s s' s1' : state) :
  copy_inv bs n N data rk wk s -> hang_inv n N hk hw s' ->
  sim_bad N s s' -> exec bs n sched s' = Some s1' ->
  exists s1 rk1 wk1, copy_inv bs n N data rk1 wk1 s1 /\ sim_bad N s1 s1'.
Proof.
  pose proof (copy_inv_step bs n N data) as Hcs. feed Hcs.
  pose proof (sim_bad_reader bs n N) as Hsr. feed Hsr.
  revert rk wk hk hw s s'.
  induction sched as [|t r IH]; intros rk wk hk hw s s' Hinv Hhang Hsim Hex.
  - cbn in Hex. injection Hex as <-. exists s, rk, wk. split; auto.
  - cbn [exec] in Hex.
    destruct (step_thread bs n t s') as [s2'|] eqn:Hst; [|discriminate].
    destruct (copy_inv_apart _ _ _ Hinv) as (A1 & A2 & A3).
    assert (Hh2 : exists hk2 hw2, hang_inv n N hk2 hw2 s2').
    { destruct (hang_inv_exec bs n N Hbs' Hn [t] hk hw s' s2' Hhang) as (a & b & H & _).
      - cbn [exec]. now rewrite Hst.
      - eauto. }
    destruct Hh2 as (hk2 & hw2 & Hhang2).
    assert (Hs : exists s2 rk2 wk2,
               copy_inv bs n N data rk2 wk2 s2 /\ sim_bad N s2 s2').
    { destruct t; cbn [step_thread] in Hst.
      - destruct (Hsr s s' s2' A1 (hang_inv_chkend _ _ _ Hhang) Hsim Hst)
          as (s2 & [->|Hst2] & Hsim2).
        + exists s, rk, wk. split; auto.
        + destruct (Hcs _ _ Reader _ _ Hinv Hst2) as (rk2 & wk2 & Hinv2 & _).
          exists s2, rk2, wk2. split; auto.
      - destruct (sim_bad_writer bs n N s s' s2' A2 A3 Hsim Hst)
          as (s2 & Hst2 & Hsim2).
        destruct (Hcs _ _ Writer _ _ Hinv Hst2) as (rk2 & wk2 & Hinv2 & _).
        exists s2, rk2, wk2. split; auto. }
    destruct Hs as (s2 & rk2 & wk2 & Hinv2 & Hsim2).
    exact (IH _ _ _ _ _ _ Hinv2 Hhang2 Hsim2 Hex).
Qed.

End BadSourceRun.

(** X14. The bytes before a failed read.  On a source that cannot be read
    from offset [N] on, in a configuration in which one [read] can deliver
    a whole block and the offsets fit, with [pthread_cond_wait] returning
    only on a signal: in every state of every run the destination holds a
    prefix of the source no longer than [N], and in the state in which the
    run gets stuck it holds exactly the first [N] bytes. *)
Theorem read_failure_keeps_prefix (block_size num_block N : Z)
    (fin : in_file) (fout : out_file) (m : mem) (ms : list move) (s : state) :
  1 <= block_size <= RW_MAX -> 1 <= num_block < 2 ^ 32 ->
  (num_block - 1) * block_size < 2 ^ 32 ->
  in_bad fin = Some N -> 0 <= N <= in_len fin ->
  out_cap fout = None -> out_pos fout = 0 ->
  signalled ms = true ->
  exec_moves block_size num_block ms (init_state num_block fin fout m) = Some s ->
  out_pos (file_out (td s)) <= N
  /\ (forall a, 0 <= a < out_pos (file_out (td s)) ->
                out_data (file_out (td s)) a = in_data fin a)
  /\ (stuck block_size num_block s = true -> out_pos (file_out (td s)) = N).
Proof.
  intros Hbs Hn Hfit Hbad HN Hcap Hpos Hsig Hex.
  rewrite exec_moves_signalled in Hex by assumption.
  set (sched := map thread_of ms) in *.
  assert (Hf : fits block_size num_block N) by (apply fits_small; lia).
  destruct Hf as [Hcall Hidx].
  assert (Hrw : block_size <= RW_MAX) by lia.
  assert (Hbs31 : 1 <= block_size < 2 ^ 31) by (unfold RW_MAX in Hbs; lia).
  assert (Hint : Z.min block_size N < 2 ^ 31) by lia.
  assert (Hbs' : 1 <= block_size < 2 ^ 32) by lia.
  assert (HN0 : 0 <= N) by lia.
  assert (H0 : copy_inv block_size num_block N (in_data fin) 0 0
                 (init_state num_block (readable_part fin N) fout m))
    by (apply copy_inv_init; auto).
  assert (Hh0 : hang_inv num_block N 0 0 (init_state num_block fin fout m))
    by (apply hang_inv_init; auto).
  assert (Hs0 : sim_bad N (init_state num_block (readable_part fin N) fout m)
                  (init_state num_block fin fout m)).
  { constructor; cbn; auto; try lia; try discriminate. }
  pose proof (sim_bad_exec block_size num_block N (in_data fin)) as Hx. feed Hx.
  destruct (Hx sched 0 0 0 0 _ _ _ H0 Hh0 Hs0 Hex) as (s1 & rk & wk & Hinv & Hsim).
  pose proof (hang_inv_exec block_size num_block N) as Hy. feed Hy.
  destruct (Hy sched 0 0 _ _ Hh0 Hex) as (hk & hw & Hhang & _).
  destruct (ci_rk _ _ _ _ _ _ _ Hinv) as [Hr0 _].
  destruct (ci_wk _ _ _ _ _ _ _ Hinv) as [Hw0 _].
  pose proof (ci_opos _ _ _ _ _ _ _ Hinv) as Hop.
  pose proof (ci_out _ _ _ _ _ _ _ Hinv) as Hod.
  pose proof (fpos_range block_size N) as Fr. feed Fr.
  assert (0 <= w_wr (wpc (wr s1))) by (destruct (wpc (wr s1)); cbn; lia).
  pose proof (Fr (wk + w_wr (wpc (wr s1))) ltac:(lia)).
  rewrite (sb_out _ _ _ Hsim).
  split; [lia|]. split; [intros a Ha; apply Hod; lia|].
  intros Hst.
  pose proof (hang_inv_stuck block_size num_block N) as Hz. feed Hz.
  destruct (Hz _ _ _ Hhang Hst) as [Er Ew].
  destruct (sb_late _ _ _ Hsim) as (Er1 & Hfail & _); [now rewrite Er|].
  assert (Ew1 : wpc (wr s1) = W_waiting) by (rewrite <- (sb_wr _ _ _ Hsim); exact Ew).
  pose proof (ci_ctl _ _ _ _ _ _ _ Hinv) as Hctl.
  pose proof (ctl_bound _ _ Hctl) as Hb.
  destruct (ctl_wwait _ _ Hctl Ew1) as [Hlt|Hsg]; [|congruence].
  pose proof (ci_num _ _ _ _ _ _ _ Hinv) as Hnum.
  pose proof (ci_in _ _ _ _ _ _ _ Hinv) as Hin.
  rewrite Er1, Ew1 in *. cbn [r_pub r_data w_rel w_wr] in *.
  rewrite Hin in Hfail. cbn [in_pos] in Hfail.
  rewrite Z.add_0_r in *.
  assert (wk = rk) by lia. subst wk.
  pose proof (Fr rk Hr0). lia.
Qed.

Lemma read_failure_keeps_prefix_witness :
  signalled (runs sched_abc_bad) = true
  /\ exec_moves 2 2 (runs sched_abc_bad) (init_state 2 src_abc_bad dst_new mem_new)
     = Some (run 2 2 sched_abc_bad (init_state 2 src_abc_bad dst_new mem_new))
  /\ stuck 2 2 (run 2 2 sched_abc_bad (init_state 2 src_abc_bad dst_new mem_new))
     = true
  /\ out_pos (file_out (td (run 2 2 sched_abc_bad
                              (init_state 2 src_abc_bad dst_new mem_new)))) = 2.
Proof.
  assert (H1 : 1 <= 2 <= RW_MAX) by (unfold RW_MAX; lia).
  assert (H2 : 1 <= 2 < 2 ^ 32) by lia.
  assert (H3 : (2 - 1) * 2 < 2 ^ 32) by lia.
  assert (H4 : in_bad src_abc_bad = Some 2) by reflexivity.
  assert (H5 : 0 <= 2 <= in_len src_abc_bad) by (cbn; lia).
  assert (H6 : out_cap dst_new = None) by reflexivity.
  assert (H7 : out_pos dst_new = 0) by reflexivity.
  assert (Hs : signalled (runs sched_abc_bad) = true) by (vm_compute; reflexivity).
  assert (H8 : exec_moves 2 2 (runs sched_abc_bad)
                 (init_state 2 src_abc_bad dst_new mem_new)
               = Some (run 2 2 sched_abc_bad
                         (init_state 2 src_abc_bad dst_new mem_new)))
    by (apply is_run_runs; vm_compute; reflexivity).
  assert (H9 : stuck 2 2 (run 2 2 sched_abc_bad
                            (init_state 2 src_abc_bad dst_new mem_new)) = true)
    by (vm_compute; reflexivity).
  destruct (read_failure_keeps_prefix 2 2 2 src_abc_bad dst_new mem_new _ _
              H1 H2 H3 H4 H5 H6 H7 Hs H8) as (_ & _ & A).
  split; [exact Hs|]. split; [exact H8|]. split; [exact H9|exact (A H9)].
Defined.


(** ** The default sizes *)

(** X15. The program with its default sizes.  When neither [-s] nor [-b]
    is given and set-up succeeds on a readable source of any length and an
    unlimited destination opened at offset 0, the threads run with 1 MiB
    blocks and 10 of them; as long as [pthread_cond_wait] returns only on a
    signal every run is finite and free of deadlock; and when both threads
    have terminated the first [L] bytes of the destination are the source,
    whatever an older, longer destination held beyond [L] is still there,
    and [main] exits with 0, unless the source is empty, in which case the
    status thread has killed the process. *)
Theorem default_options_copy_any_source (e : setup) (fin : in_file)
    (fout : out_file) (s0 : state) (ms : list move) (s : state) :
  opt_s e = None -> opt_b e = None ->
  open_in e = Some fin -> open_out e = Some fout ->
  0 <= in_len fin -> in_bad fin = None ->
  out_cap fout = None -> out_pos fout = 0 ->
  main_setup e = inr s0 ->
  signalled ms = true ->
  exec_moves (chosen_block_size e) (chosen_num_block e) ms s0 = Some s ->
  Z.of_nat (length ms) <= 40 * in_len fin + 76
  /\ (terminated s = false ->
      exists t s',
        step_thread (chosen_block_size e) (chosen_num_block e) t s = Some s')
  /\ (terminated s = true ->
      main_exit s = (if in_len fin =? 0 then None else Some 0)
      /\ (forall a, 0 <= a < in_len fin ->
                    out_data (file_out (td s)) a = in_data fin a)
      /\ (forall a, in_len fin <= a ->
                    out_data (file_out (td s)) a = out_data fout a)).
Proof.
  intros Hs Hb Hin Hout HL Hbad Hcap Hpos Hset Hsig Hex.
  rewrite exec_moves_signalled in Hex by assumption.
  unfold chosen_block_size, chosen_num_block in *. rewrite Hs, Hb in *.
  unfold main_setup in Hset. rewrite Hin, Hout in Hset.
  destruct (args_ok e); [|discriminate].
  destruct (calloc_ok e); [|discriminate].
  destruct (malloc_buf e) as [m|]; [|discriminate].
  cbn [negb] in Hset. injection Hset as <-.
  unfold chosen_num_block in Hex. rewrite Hb in Hex.
  destruct (copy_faithful BLOCK_SIZE NUM_BLOCK fin fout m (map thread_of ms) s)
    as (A & B & C); auto; try (unfold BLOCK_SIZE, NUM_BLOCK; lia).
  { apply fits_small; unfold BLOCK_SIZE, NUM_BLOCK, RW_MAX; lia. }
  rewrite length_threads in A.
  split; [exact A|]. split; [exact B|].
  intros Ht. destruct (C Ht) as (C1 & C2 & _ & _ & _ & _ & _ & C8).
  split; [exact C8|]. split; [exact C2|].
  intros a Ha.
  assert (F : out_frame fout s).
  { eapply out_frame_reachable; [|eapply exec_reachable; eauto].
    apply out_frame_init. }
  apply (of_data _ _ F). right. lia.
Qed.

Lemma default_options_copy_any_source_witness :
  main_setup setup_plain = inr (init_state 10 src_abc dst_new mem_new)
  /\ signalled (runs sched_two_slots) = true
  /\ exec_moves (chosen_block_size setup_plain) (chosen_num_block setup_plain)
       (runs sched_two_slots) (init_state 10 src_abc dst_new mem_new)
     = Some (run (chosen_block_size setup_plain) (chosen_num_block setup_plain)
               sched_two_slots (init_state 10 src_abc dst_new mem_new))
  /\ Z.of_nat (length (runs sched_two_slots)) <= 40 * in_len src_abc + 76.
Proof.
  assert (H1 : opt_s setup_plain = None) by reflexivity.
  assert (H2 : opt_b setup_plain = None) by reflexivity.
  assert (H3 : open_in setup_plain = Some src_abc) by reflexivity.
  assert (H4 : open_out setup_plain = Some dst_new) by reflexivity.
  assert (H5 : 0 <= in_len src_abc) by (cbn; lia).
  assert (H6 : in_bad src_abc = None) by reflexivity.
  assert (H7 : out_cap dst_new = None) by reflexivity.
  assert (H8 : out_pos dst_new = 0) by reflexivity.
  assert (H9 : main_setup setup_plain
               = inr (init_state 10 src_abc dst_new mem_new)) by reflexivity.
  assert (Hs : signalled (runs sched_two_slots) = true) by (vm_compute; reflexivity).
  assert (H10 : exec_moves (chosen_block_size setup_plain)
                  (chosen_num_block setup_plain)
                  (runs sched_two_slots) (init_state 10 src_abc dst_new mem_new)
                = Some (run (chosen_block_size setup_plain)
                          (chosen_num_block setup_plain)
                          sched_two_slots (init_state 10 src_abc dst_new mem_new)))
    by (apply is_run_runs; vm_compute; reflexivity).
  destruct (default_options_copy_any_source setup_plain src_abc dst_new _ _ _
              H1 H2 H3 H4 H5 H6 H7 H8 H9 Hs H10) as (A & _).
  split; [exact H9|]. split; [exact Hs|]. split; [exact H10|exact A].
Defined.


(** ** The copy when the offsets of the slots do not fit *)

Section FlowProofs.

Variables bs n L : Z.
Variable data : Z -> byte.
Hypothesis Hbs : 1 <= bs < 2 ^ 32.
Hypothesis Hn : 1 <= n < 2 ^ 32.
Hypothesis HL : 0 <= L.
Hypothesis Hint : Z.min bs L < 2 ^ 31.
Hypothesis Hcall : Z.min bs L <= RW_MAX.


Ltac fl_easy :=
  first [ assumption | discriminate | reflexivity | lia
        | intros; first [ assumption | discriminate | congruence | lia ]
        | intros;
          match goal with
          | H : forall k, _ -> size _ = _ |- size _ = _ => apply H; lia
          | H : forall j, _ -> end_ _ = _ |- end_ _ = _ => rewrite H by lia; reflexivity
          end
        | intros [?|?]; first [ discriminate | congruence | lia ]
        | intros;
          match goal with
          | H : _ \/ _ -> ?G |- ?G =>
              apply H; first [ left; reflexivity | right; reflexivity ]
          end ].


Ltac fl_step k :=
  exists k; st_cbn; rewrite ?Z.add_0_r in *; (split; [constructor|]);
  st_cbn; rewrite ?Z.add_0_r; try fl_easy.

Lemma flow_inv_reader (rk wk : Z) (s s' : state) :
  flow_inv bs n L data rk wk s -> step_reader bs n s = Some s' ->
  exists rk', flow_inv bs n L data rk' wk s'
              /\ fuel_left L rk' wk s' < fuel_left L rk wk s.
Proof.
  intros Hinv Hstep.
  assert (Hn' : 0 <= n < 2 ^ 32) by lia.
  pose proof (ctl_inv_reader bs n Hn' _ _ (fl_ctl _ _ _ _ _ _ _ Hinv) Hstep) as Hctl'.
  revert Hctl'. destruct Hinv as
    [Hctl Hrk Hwk Hin Hri Hwi Hne Hnum Hlen Hret Hc0 Hacc Hrd Hwl Hwd
     Hsize Hrsize Hend Hcap Hop Hwret Hread Hfs Hpub Hcons Hq Hwrt].
  destruct Hctl as [Hb Hrm Hwm Hrg Hwg Hws Hrs Hown Hrf Hrw Hwe Hww].
  revert Hstep.
  destruct s as [t m [rl ri rr] [wl wi wr0] lg]. unfold step_reader, fuel_left.
  st_cbn.
  assert (Hwrel : 0 <= w_rel wl <= 1) by (destruct wl; cbn; lia).
  pose proof ((ring_idx 0 n 0 Hn) rk) as Hring.
  destruct rl; intros Hstep Hctl'; try discriminate.
  all: try (destruct (acquire Reader _) eqn:Ha; [|discriminate];
            destruct (acquire_some _ _ _ Ha) as [Hm ->]).
  all: st_cbn; rewrite ?Z.add_0_r in *.
  - (* R_lock *) injection Hstep as <-. fl_step rk.
  - (* R_check *)
    injection Hstep as <-.
    destruct (n <=? numToWrite t); fl_step rk.
  - (* R_waitinc *) injection Hstep as <-. fl_step rk.
  - (* R_wait *) injection Hstep as <-. fl_step rk.
  - (* R_woken *) injection Hstep as <-. fl_step rk.
  - (* R_unlock *) injection Hstep as <-. fl_step rk.
  - (* R_read *)
    rewrite Hin, (sys_read_ok bs L data Hbs Hcall) in Hstep by lia.
    pose proof ((sz_range bs L Hbs HL Hint Hcall) rk ltac:(lia)) as Hsz.
    rewrite (to_int_small (sz bs L rk)) in Hstep by lia.
    replace (sz bs L rk =? -1) with false in Hstep by (symmetry; apply Z.eqb_neq; lia).
    specialize (Hrg eq_refl).
    destruct (Z.eqb_spec (sz bs L rk) 0) as [E|E]; injection Hstep as <-; fl_step rk.
    + intros _. now apply (sz_zero bs L Hbs).
    + intros j Hj. rewrite Hend by lia.
      rewrite (isend_false bs L); auto.
      destruct (Z_lt_ge_dec (rk * bs) L); auto.
      exfalso. apply E. apply (sz_zero bs L Hbs). lia.
  - (* R_case0 *)
    injection Hstep as <-. specialize (Hrg eq_refl). specialize (Hc0 eq_refl).
    fl_step rk.
    + now rewrite length_set_end.
    + intros k Hk. rewrite size_set_end. apply Hsize; lia.
    + intros j Hj. rewrite block_at_set_end by lia.
      rewrite (isend_true bs L) by auto. subst ri.
      destruct (j =? rk mod n); cbn; auto.
  - (* R_default *)
    injection Hstep as <-. specialize (Hrg eq_refl).
    specialize (Hret (or_intror eq_refl)).
    pose proof ((sz_range bs L Hbs HL Hint Hcall) rk ltac:(lia)) as Hsz.
    assert (Hw : wrap64 rr = sz bs L rk) by (subst rr; apply wrap64_small; lia).
    rewrite Hw.
    fl_step rk.
    + now rewrite length_set_size.
    + intros k Hk. pose proof ((ring_idx 0 n 0 Hn) k).
      rewrite block_at_set_size by lia. subst ri.
      destruct (Z.eqb_spec (k mod n) (rk mod n)) as [E|E]; cbn.
      * destruct (Z.eq_dec k rk) as [->|]; auto.
        exfalso. revert E. apply mod_window; lia.
      * destruct (Z.eq_dec k rk) as [->|]; [congruence | apply Hsize; lia].
    + intros _. rewrite block_at_set_size by lia. subst ri.
      now rewrite Z.eqb_refl.
    + intros j Hj. rewrite end_set_size. apply Hend; lia.
  - (* R_lock2 *) injection Hstep as <-. fl_step rk.
  - (* R_incr *)
    injection Hstep as <-. specialize (Hrg eq_refl).
    rewrite wrap32_small in * by lia.
    fl_step rk.
    rewrite Hpub, (slots_succ bs n L) by lia. f_equal. unfold slot. subst ri.
    rewrite (block_eta (block_at _ _)), Hrsize, Hend by (auto; lia).
    now rewrite Z.eqb_refl, andb_true_r.
  - (* R_signal *)
    injection Hstep as <-. unfold wake_writer in *. st_cbn.
    destruct wl; fl_step rk.
  - (* R_unlock2 *) injection Hstep as <-. fl_step rk.
  - (* R_chkend *)
    assert (He : end_ (block_at (blocks t) ri) = isend bs L rk)
      by (rewrite Hri, Hend by lia; now rewrite Z.eqb_refl, andb_true_r).
    rewrite He in *. injection Hstep as <-.
    destruct (Z_le_gt_dec L (rk * bs));
      [ rewrite ((isend_true bs L) rk) in * by lia
      | rewrite ((isend_false bs L) rk) in * by lia ]; fl_step rk.
    all: intros j Hj; rewrite ?(isend_true bs L), ?(isend_false bs L) by lia; now apply Hend.
  - (* R_acc *)
    replace (n =? 0) with false in Hstep by (symmetry; apply Z.eqb_neq; lia).
    injection Hstep as <-. specialize (Hacc eq_refl).
    fl_step (rk + 1).
    + subst ri. apply (next_idx 0 n 0 Hn).
    + intros j Hj. rewrite Hend by lia. now rewrite (isend_false bs L).
    + rewrite Hri, Hrsize, Hread by reflexivity.
      unfold wrap64. rewrite Zplus_mod_idemp_l. f_equal. unfold sz. lia.
Qed.

Lemma flow_inv_writer (rk wk : Z) (s s' : state) :
  flow_inv bs n L data rk wk s -> step_writer bs n s = Some s' ->
  exists wk', flow_inv bs n L data rk wk' s'
              /\ fuel_left L rk wk' s' < fuel_left L rk wk s.
Proof.
  intros Hinv Hstep.
  assert (Hn' : 0 <= n < 2 ^ 32) by lia.
  pose proof (ctl_inv_writer bs n Hn' _ _ (fl_ctl _ _ _ _ _ _ _ Hinv) Hstep) as Hctl'.
  revert Hctl'. destruct Hinv as
    [Hctl Hrk Hwk Hin Hri Hwi Hne Hnum Hlen Hret Hc0 Hacc Hrd Hwl Hwd
     Hsize Hrsize Hend Hcap Hop Hwret Hread Hfs Hpub Hcons Hq Hwrt].
  destruct Hctl as [Hb Hrm Hwm Hrg Hwg Hws Hrs Hown Hrf Hrw Hwe Hww].
  revert Hstep.
  destruct s as [t m [rl ri rr] [wl wi wr0] lg]. unfold step_writer, fuel_left.
  st_cbn.
  pose proof ((r_pub_facts 0 0) rl) as Hpf.
  pose proof ((ring_idx 0 n 0 Hn) wk) as Hring.
  destruct wl; intros Hstep Hctl'; try discriminate.
  all: try (destruct (acquire Writer _) eqn:Ha; [|discriminate];
            destruct (acquire_some _ _ _ Ha) as [Hm ->]).
  all: st_cbn; rewrite ?Z.add_0_r in *.
  - (* W_lock *) injection Hstep as <-. fl_step wk.
  - (* W_check *)
    injection Hstep as <-.
    destruct (numToWrite t <? 1); fl_step wk.
  - (* W_waitinc *) injection Hstep as <-. fl_step wk.
  - (* W_wait *) injection Hstep as <-. fl_step wk.
  - (* W_woken *) injection Hstep as <-. fl_step wk.
  - (* W_unlock *) injection Hstep as <-. fl_step wk.
  - (* W_write *)
    specialize (Hwg eq_refl).
    pose proof ((sz_range bs L Hbs HL Hint Hcall) wk ltac:(lia)) as Hsz.
    rewrite Hwi, Hsize in * by lia.
    rewrite sys_write_ok in * by (auto; lia).
    rewrite (to_int_small (sz bs L wk)) in * by lia.
    replace (sz bs L wk =? -1) with false in * by (symmetry; apply Z.eqb_neq; lia).
    injection Hstep as <-.
    fl_step wk.
    + rewrite Hop. unfold sz. lia.
    + rewrite Hwrt, (slots_succ bs n L), map_app by lia. reflexivity.
  - (* W_chkshort *)
    specialize (Hwg eq_refl). specialize (Hwret eq_refl).
    pose proof ((sz_range bs L Hbs HL Hint Hcall) wk ltac:(lia)) as Hsz.
    rewrite Hwi, Hsize, Hwret in * by lia.
    rewrite wrap64_small, Z.eqb_refl in * by lia.
    injection Hstep as <-. fl_step wk.
  - (* W_chkend *)
    specialize (Hwg eq_refl).
    assert (Hblk : block_at (blocks t) wi = mkBlock (sz bs L wk) (isend bs L wk)).
    { rewrite (block_eta (block_at _ _)), Hwi, Hsize, Hend by lia. f_equal.
      destruct (Z.eq_dec wk rk) as [->|Hne'].
      - rewrite (r_pub_endable 0 0) by lia. now rewrite Z.eqb_refl, andb_true_r.
      - assert (wk <= rk - 1) by lia.
        pose proof ((mul_bs_le bs 0 Hbs) wk (rk - 1) ltac:(lia)).
        rewrite ((isend_false bs L) wk) by lia.
        destruct (r_endable rl) eqn:Een; cbn [andb]; auto.
        destruct (isend bs L rk); cbn [andb]; auto.
        apply Z.eqb_neq. apply mod_window; try lia.
        destruct (Z.eq_dec (r_pub rl) 0) as [E0|E0]; [|lia].
        pose proof (Hrg (r_endable_granted _ Een E0)). lia. }
    rewrite Hblk in *. cbn [end_] in *.
    injection Hstep as <-.
    destruct (Z_le_gt_dec L (wk * bs));
      [ rewrite ((isend_true bs L) wk) in * by lia
      | rewrite ((isend_false bs L) wk) in * by lia ]; fl_step wk.
    all: rewrite Hcons, (slots_succ bs n L) by lia; unfold slot;
      rewrite ?(isend_true bs L), ?(isend_false bs L) by lia; now subst wi.
  - (* W_lock2 *) injection Hstep as <-. fl_step wk.
  - (* W_decr *)
    injection Hstep as <-. specialize (Hwg eq_refl).
    rewrite wrap32_small in * by lia.
    fl_step wk.
  - (* W_signal *)
    injection Hstep as <-. unfold wake_reader in *. st_cbn.
    destruct rl; fl_step wk.
  - (* W_unlock2 *) injection Hstep as <-. fl_step wk.
  - (* W_acc *)
    replace (n =? 0) with false in * by (symmetry; apply Z.eqb_neq; lia).
    injection Hstep as <-. specialize (Hwl eq_refl).
    fl_step (wk + 1).
    subst wi. apply (next_idx 0 n 0 Hn).
Qed.

Lemma flow_inv_init (fin : in_file) (fout : out_file) (m : mem) :
  in_len fin = L -> in_data fin = data -> in_bad fin = None ->
  out_cap fout = None -> out_pos fout = 0 ->
  flow_inv bs n L data 0 0 (init_state n fin fout m).
Proof.
  intros Hl Hd Hb Hc Hp.
  assert (Hf0 : fpos bs L 0 = 0) by (unfold fpos; lia).
  constructor; cbn -[Z.mul Z.add Z.sub Z.modulo slots fpos sz isend];
    rewrite ?Hl, ?Hd, ?Hb, ?Hc, ?Hp, ?Z.add_0_r, ?Hf0;
    try first [ reflexivity | discriminate | lia | intros; lia
              | intros [?|?]; discriminate ].
  - apply ctl_inv_init; lia.
  - rewrite repeat_length. lia.
  - intros j Hj. fold (block_at (repeat default_block (Z.to_nat n)) j).
    now rewrite block_at_repeat.
Qed.

Lemma flow_inv_step (rk wk : Z) (t : tid) (s s' : state) :
  flow_inv bs n L data rk wk s -> step_thread bs n t s = Some s' ->
  exists rk' wk', flow_inv bs n L data rk' wk' s'
                  /\ fuel_left L rk' wk' s' < fuel_left L rk wk s.
Proof.
  intros Hinv Hst. destruct t; cbn in Hst.
  - destruct (flow_inv_reader _ _ _ _ Hinv Hst) as [rk' H]. eauto.
  - destruct (flow_inv_writer _ _ _ _ Hinv Hst) as [wk' H]. eauto.
Qed.

Lemma flow_fuel_nonneg (rk wk : Z) (s : state) :
  flow_inv bs n L data rk wk s -> 0 <= fuel_left L rk wk s.
Proof.
  intros Hinv. unfold fuel_left.
  destruct (fl_rk _ _ _ _ _ _ _ Hinv) as [H1 H2].
  destruct (fl_wk _ _ _ _ _ _ _ Hinv) as [H3 H4].
  pose proof ((round_le bs L Hbs HL) rk H1 H2). pose proof ((round_le bs L Hbs HL) wk H3 H4).
  assert (0 <= r_rank (rpc (rd s))) by (destruct (rpc (rd s)); cbn; lia).
  assert (0 <= w_rank (wpc (wr s))) by (destruct (wpc (wr s)); cbn; lia).
  lia.
Qed.

(** Every run from a state that satisfies the invariant ends in such a
    state, and is no longer than the fuel the first state has left. *)
Lemma flow_inv_exec (sched : list tid) (rk wk : Z) (s s' : state) :
  flow_inv bs n L data rk wk s -> exec bs n sched s = Some s' ->
  exists rk' wk', flow_inv bs n L data rk' wk' s'
                  /\ fuel_left L rk' wk' s' + Z.of_nat (length sched)
                     <= fuel_left L rk wk s.
Proof.
  revert rk wk s. induction sched as [|t r IH]; intros rk wk s Hinv Hex.
  - cbn in Hex. injection Hex as <-. exists rk, wk. split; auto. cbn. lia.
  - cbn [exec] in Hex. destruct (step_thread bs n t s) as [s1|] eqn:Hst; [|discriminate].
    destruct (flow_inv_step _ _ _ _ _ Hinv Hst) as (rk1 & wk1 & Hinv1 & Hlt).
    destruct (IH _ _ _ Hinv1 Hex) as (rk2 & wk2 & Hinv2 & Hle).
    exists rk2, wk2. split; auto. cbn [length]. lia.
Qed.

Ltac go_reader :=
  exists Reader; cbn;
  try (destruct (sys_read _ _ _ _) as [[? ?] ?]);
  try (replace (n =? 0) with false by (symmetry; apply Z.eqb_neq; lia));
  eexists; reflexivity.

Ltac go_writer :=
  exists Writer; cbn;
  try (destruct (sys_write _ _ _ _) as [? ?]);
  try (replace (n =? 0) with false by (symmetry; apply Z.eqb_neq; lia));
  eexists; reflexivity.

(** No deadlock: while a thread is still running, some thread can move. *)
Lemma flow_inv_progress (rk wk : Z) (s : state) :
  flow_inv bs n L data rk wk s -> terminated s = false ->
  exists t s', step_thread bs n t s = Some s'.
Proof.
  intros Hinv.
  destruct Hinv as
    [Hctl Hrk Hwk _ _ _ _ Hnum _ _ _ _ Hrd _ Hwd _ _ _ _ _ _ _ _ _ _ _ _].
  destruct Hctl as [Hb _ _ _ _ _ _ Hown _ Hrw _ Hww].
  destruct s as [t m [rl ri rr] [wl wi wr0] lg].
  unfold terminated, step_thread, step_reader, step_writer, acquire in *.
  cbn [td mutex rd wr log rpc ridx rret wpc widx wret] in *.
  intros Hterm.
  destruct rl; try go_reader.
  all: destruct m as [[|]|]; try discriminate; try go_reader.
  all: destruct wl; try discriminate; try go_writer.
  all: exfalso; cbn in Hnum;
    try (destruct (Hrw eq_refl) as [Hf|Hf]; [|discriminate]);
    try (destruct (Hww eq_refl) as [He|He]; [|discriminate]);
    try specialize (Hrd eq_refl); try specialize (Hwd eq_refl).
  - lia.
  - pose proof ((mul_bs_le bs 0 Hbs) wk (rk - 1) ltac:(lia)). lia.
  - pose proof ((mul_bs_le bs 0 Hbs) rk (wk - 1) ltac:(lia)). lia.
Qed.

(** What a terminated run leaves behind. *)
Lemma flow_inv_final (rk wk : Z) (s : state) :
  flow_inv bs n L data rk wk s -> terminated s = true ->
  out_pos (file_out (td s)) = L
  /\ published (log s) = slots bs n L ((L + bs - 1) / bs + 1)
  /\ consumed (log s) = slots bs n L ((L + bs - 1) / bs + 1)
  /\ read (td s) = wrap64 L
  /\ forallb quiet_event (log s) = true
  /\ written (log s)
     = map (fun p => (fst p, size (snd p)))
           (slots bs n L ((L + bs - 1) / bs + 1)).
Proof.
  intros Hinv Hterm. unfold terminated in Hterm.
  destruct (rpc (rd s)) eqn:Er; try discriminate.
  destruct (wpc (wr s)) eqn:Ew; try discriminate.
  pose proof (fl_rdone _ _ _ _ _ _ _ Hinv Er) as Hrd.
  pose proof (fl_wdone _ _ _ _ _ _ _ Hinv Ew) as Hwd.
  destruct (fl_rk _ _ _ _ _ _ _ Hinv) as [Hr0 Hr1].
  destruct (fl_wk _ _ _ _ _ _ _ Hinv) as [Hw0 Hw1].
  pose proof ((round_count bs L) rk Hr0 Hr1 Hrd) as Hrc.
  pose proof ((round_count bs L) wk Hw0 Hw1 Hwd) as Hwc.
  pose proof (fl_opos _ _ _ _ _ _ _ Hinv) as Hop.
  pose proof (fl_pub _ _ _ _ _ _ _ Hinv) as Hpub.
  pose proof (fl_cons _ _ _ _ _ _ _ Hinv) as Hcons.
  pose proof (fl_read _ _ _ _ _ _ _ Hinv) as Hread.
  pose proof (fl_written _ _ _ _ _ _ _ Hinv) as Hwrt.
  rewrite Er in Hpub. rewrite Ew in Hop, Hcons, Hwrt. cbn [r_pub w_wr w_cons] in *.
  assert (Hpos : out_pos (file_out (td s)) = L) by (rewrite Hop; unfold fpos; lia).
  repeat split.
  - exact Hpos.
  - now rewrite Hpub, Hrc.
  - now rewrite Hcons, Hwc.
  - rewrite Hread. f_equal. unfold fpos. lia.
  - exact (fl_quiet _ _ _ _ _ _ _ Hinv).
  - now rewrite Hwrt, Hwc.
Qed.

End FlowProofs.

(** X16. Whatever the offsets.  For every [block_size] up to [RW_MAX] and
    every [num_block >= 1], also when the offsets of the slots do not fit
    [unsigned int]: a copy without errors, in which [pthread_cond_wait]
    returns only on a signal, is finite and free of deadlock, and when both
    threads have terminated the destination has received exactly [L] bytes,
    in one [write] per published slot, the slots published are those of the
    source, [td->read] is [L], nothing was printed and [main] exits with 0
    unless the source is empty.  Only the bytes themselves depend on the
    offsets. *)
Theorem copy_completes_whatever_the_offsets (block_size num_block : Z)
    (fin : in_file) (fout : out_file) (m : mem) (ms : list move) (s : state) :
  1 <= block_size <= RW_MAX -> 1 <= num_block < 2 ^ 32 ->
  0 <= in_len fin -> in_bad fin = None ->
  out_cap fout = None -> out_pos fout = 0 ->
  signalled ms = true ->
  exec_moves block_size num_block ms (init_state num_block fin fout m) = Some s ->
  Z.of_nat (length ms) <= 40 * in_len fin + 76
  /\ (terminated s = false ->
      exists t s', step_thread block_size num_block t s = Some s')
  /\ (terminated s = true ->
      out_pos (file_out (td s)) = in_len fin
      /\ published (log s)
         = slots block_size num_block (in_len fin)
             ((in_len fin + block_size - 1) / block_size + 1)
      /\ consumed (log s) = published (log s)
      /\ written (log s)
         = map (fun p => (fst p, size (snd p))) (published (log s))
      /\ read (td s) = wrap64 (in_len fin)
      /\ forallb quiet_event (log s) = true
      /\ main_exit s = if in_len fin =? 0 then None else Some 0).
Proof.
  intros Hbs Hn HL Hbad Hcap Hpos Hsig Hex.
  rewrite exec_moves_signalled in Hex by assumption.
  assert (Hbs' : 1 <= block_size < 2 ^ 32) by (unfold RW_MAX in Hbs; lia).
  assert (Hint : Z.min block_size (in_len fin) < 2 ^ 31)
    by (unfold RW_MAX in Hbs; lia).
  assert (Hcall : Z.min block_size (in_len fin) <= RW_MAX) by lia.
  assert (H0 : flow_inv block_size num_block (in_len fin) (in_data fin) 0 0
                 (init_state num_block fin fout m))
    by (apply flow_inv_init; auto).
  pose proof (flow_inv_exec block_size num_block (in_len fin) (in_data fin)) as Hx.
  feed Hx.
  destruct (Hx _ 0 0 _ _ H0 Hex) as (rk & wk & Hinv & Hfuel).
  pose proof (flow_fuel_nonneg block_size num_block (in_len fin) (in_data fin))
    as Hge.
  feed Hge. specialize (Hge _ _ _ Hinv).
  pose proof (flow_inv_progress block_size num_block (in_len fin) (in_data fin))
    as Hpr.
  feed Hpr.
  pose proof (flow_inv_final block_size num_block (in_len fin) (in_data fin)) as Hfi.
  feed Hfi.
  rewrite length_threads in Hfuel.
  split; [|split].
  - unfold fuel_left in Hfuel at 2. cbn in Hfuel. lia.
  - apply (Hpr _ _ _ Hinv).
  - intros Hterm.
    destruct (Hfi _ _ _ Hinv Hterm) as (A & B & C & D & E & F).
    rewrite B, C, F. repeat split; auto.
    unfold main_exit, statusWriter.
    rewrite (fl_fsize _ _ _ _ _ _ _ Hinv), Hterm.
    now destruct (in_len fin =? 0).
Qed.

Lemma copy_completes_whatever_the_offsets_witness :
  signalled (runs sched_wide) = true
  /\ exec_moves (2 ^ 30) 5 (runs sched_wide)
       (init_state 5 (src_wide (2 ^ 32 + 2 ^ 29)) dst_new mem_new)
     = Some (run (2 ^ 30) 5 sched_wide
               (init_state 5 (src_wide (2 ^ 32 + 2 ^ 29)) dst_new mem_new))
  /\ terminated (run (2 ^ 30) 5 sched_wide
                   (init_state 5 (src_wide (2 ^ 32 + 2 ^ 29)) dst_new mem_new))
     = true
  /\ forallb quiet_event
       (log (run (2 ^ 30) 5 sched_wide
               (init_state 5 (src_wide (2 ^ 32 + 2 ^ 29)) dst_new mem_new)))
     = true
  /\ main_exit (run (2 ^ 30) 5 sched_wide
                  (init_state 5 (src_wide (2 ^ 32 + 2 ^ 29)) dst_new mem_new))
     = Some 0.
Proof.
  assert (H1 : 1 <= 2 ^ 30 <= RW_MAX) by (unfold RW_MAX; lia).
  assert (H2 : 1 <= 5 < 2 ^ 32) by lia.
  assert (H3 : 0 <= in_len (src_wide (2 ^ 32 + 2 ^ 29))) by (cbn; lia).
  assert (H4 : in_bad (src_wide (2 ^ 32 + 2 ^ 29)) = None) by reflexivity.
  assert (H5 : out_cap dst_new = None) by reflexivity.
  assert (H6 : out_pos dst_new = 0) by reflexivity.
  assert (Hs : signalled (runs sched_wide) = true) by (vm_compute; reflexivity).
  assert (H7 : exec_moves (2 ^ 30) 5 (runs sched_wide)
                 (init_state 5 (src_wide (2 ^ 32 + 2 ^ 29)) dst_new mem_new)
               = Some (run (2 ^ 30) 5 sched_wide
                         (init_state 5 (src_wide (2 ^ 32 + 2 ^ 29)) dst_new
                            mem_new)))
    by (apply is_run_runs; vm_compute; reflexivity).
  assert (H8 : terminated (run (2 ^ 30) 5 sched_wide
                             (init_state 5 (src_wide (2 ^ 32 + 2 ^ 29)) dst_new
                                mem_new)) = true)
    by (vm_compute; reflexivity).
  destruct (copy_completes_whatever_the_offsets (2 ^ 30) 5
              (src_wide (2 ^ 32 + 2 ^ 29)) dst_new mem_new _ _
              H1 H2 H3 H4 H5 H6 Hs H7) as (_ & _ & A).
  destruct (A H8) as (_ & _ & _ & _ & _ & A6 & A7).
  split; [exact Hs|]. split; [exact H7|]. split; [exact H8|].
  split; [exact A6|exact A7].
Defined.
